(** * Random nickname collision experiment: a model of [src/main.cc]

    The development embeds the sampler, the nickname generator, the word
    corpus loader and the four collision experiments of [main.cc] and proves
    the properties the specification states about them.

    Conventions of the embedding:
    - [sz] (std::size_t) and [int] values are numbers in [N]; the unsigned
      subtraction that can wrap is [sz_sub], the addition [sz_add].
    - a [std::string] is a [list ascii]; [s[i] = c] is the list update
      [<[i:=c]> s];
    - a [double] is a binary64 number of the standard library
      ([spec_float]); its division and multiplication are [SF64div] and
      [SF64mul], which round to nearest, ties to even;
    - a random engine is the stream of numbers its distributions draw from
      (a tape and a cursor);
    - a call either returns, throws, runs into undefined behaviour or, for
      the loops that need not terminate, runs out of fuel: see [result]. *)

From Stdlib Require Import ZArith NArith QArith Qround Qpower Ascii Lia Lqa Permutation.
From Stdlib Require Import Floats SpecFloat.
From Stdlib Require DecimalN.
From stdpp Require Import gmap strings list.

Local Open Scope N_scope.

(** ** Outcomes of a call *)

Inductive exn : Type :=
| runtime_error   (* std::runtime_error("there are no words to sample") *)
| out_of_range.   (* std::out_of_range of vector::at *)

Inductive result (A : Type) : Type :=
| Ret (a : A)          (* normal return *)
| Throw (e : exn)      (* an exception leaves the function *)
| Undefined            (* the C++ behaviour is undefined *)
| OutOfFuel.           (* the loop did not finish within the fuel given *)

Arguments Ret {A} a.
Arguments Throw {A} e.
Arguments Undefined {A}.
Arguments OutOfFuel {A}.

#[global] Instance result_ret : MRet result := fun A a => Ret a.
#[global] Instance result_bind : MBind result := fun A B k m =>
  match m with
  | Ret a => k a
  | Throw e => Throw e
  | Undefined => Undefined
  | OutOfFuel => OutOfFuel
  end.

(** ** Machine integers *)

Definition SZ_MOD : N := 2 ^ 64.

(** [a - b] on std::size_t. *)
Definition sz_sub (a b : N) : N :=
  if b <=? a then a - b else a + SZ_MOD - b.

(** [a + b] on std::size_t. *)
Definition sz_add (a b : N) : N := (a + b) mod SZ_MOD.

(** ** Strings *)

Abbreviation str := (list ascii).

Definition lit (s : string) : str := String.list_ascii_of_string s.

Definition length_sz {A} (l : list A) : N := N.of_nat (length l).

(** std::tolower and std::toupper in the "C" locale. *)
Definition tolower (c : ascii) : ascii :=
  let n := N_of_ascii c in
  if (N_of_ascii "A" <=? n) && (n <=? N_of_ascii "Z") then ascii_of_N (n + 32) else c.

Definition toupper (c : ascii) : ascii :=
  let n := N_of_ascii c in
  if (N_of_ascii "a" <=? n) && (n <=? N_of_ascii "z") then ascii_of_N (n - 32) else c.

Definition is_digit (c : ascii) : bool :=
  let n := N_of_ascii c in (N_of_ascii "0" <=? n) && (n <=? N_of_ascii "9").
Definition is_upper (c : ascii) : bool :=
  let n := N_of_ascii c in (N_of_ascii "A" <=? n) && (n <=? N_of_ascii "Z").
Definition is_lower (c : ascii) : bool :=
  let n := N_of_ascii c in (N_of_ascii "a" <=? n) && (n <=? N_of_ascii "z").
Definition is_alnum (c : ascii) : bool := is_digit c || is_upper c || is_lower c.

(** ** Random engines

    An engine is consumed only through [std::uniform_int_distribution]; it is
    modelled by the stream of raw numbers the distributions are fed with.
    A distribution over [[a, b]] maps the next raw number into the range, so
    every value of the range is reachable and every tape gives a run. *)

Record Engine : Type := { tape : nat -> N; cursor : nat }.

Definition advance (g : Engine) : Engine :=
  {| tape := tape g; cursor := S (cursor g) |}.

Definition peek (g : Engine) : N := tape g (cursor g).

(** [std::uniform_int_distribution<T>(a, b)(g)]; the range must not be empty. *)
Definition uniform_int (a b : N) (g : Engine) : result (N * Engine) :=
  if a <=? b then Ret (a + peek g mod (b - a + 1), advance g) else Undefined.

(** ** Sampler *)

Definition NUM_DIGITS : N := N_of_ascii "9" - N_of_ascii "0" + 1.
Definition NUM_ALPHAS : N := (N_of_ascii "Z" - N_of_ascii "A" + 1) * 2.

Definition sample_ascii (g : Engine) : result (ascii * Engine) :=
  '(ch, g) ← uniform_int 0 (NUM_ALPHAS + NUM_DIGITS - 1) g;
  if ch <? NUM_DIGITS then Ret (ascii_of_N (N_of_ascii "0" + ch), g)
  else
    let ch := ch - NUM_DIGITS in
    Ret (if ch <=? N_of_ascii "Z" - N_of_ascii "A"
         then ascii_of_N (N_of_ascii "A" + ch)
         else ascii_of_N (N_of_ascii "a" + (ch - (N_of_ascii "Z" - N_of_ascii "A" + 1))), g).

Definition sample_digit (g : Engine) : result (ascii * Engine) :=
  '(ch, g) ← uniform_int (N_of_ascii "0") (N_of_ascii "9") g;
  Ret (ascii_of_N ch, g).

Definition sample_ascii_lower (g : Engine) : result (ascii * Engine) :=
  '(ch, g) ← uniform_int (N_of_ascii "a") (N_of_ascii "z") g;
  Ret (ascii_of_N ch, g).

(** ** Word corpus *)

Abbreviation WordDB := (list (list str)).

Definition MAX_NICKNAME_LEN : N := 12.

(** The bucket at index [L]; no bucket, no words. *)
Definition bucket (db : WordDB) (L : N) : list str :=
  default [] (db !! N.to_nat L).

(** The loop [while (it->size() <= idx) idx -= (it++)->size();] followed by
    [it->at(idx)]. [it] is the rest of the corpus from the iterator on;
    dereferencing the end iterator is undefined. *)
Fixpoint bucket_walk (it : list (list str)) (idx : N) : result str :=
  match it with
  | [] => Undefined
  | b :: it' =>
      if length_sz b <=? idx then bucket_walk it' (sz_sub idx (length_sz b))
      else match b !! N.to_nat idx with
           | Some w => Ret w
           | None => Throw out_of_range
           end
  end.

(** [std::reduce] over the buckets [it, it + count) with [total + it.size()]. *)
Definition count_candidates (bs : list (list str)) : N :=
  foldl (fun total b => total + length_sz b) 0 bs.

Definition sample_word (g : Engine) (db : WordDB) (min_len max_len : N)
  : result (str * Engine) :=
  let count := sz_add (sz_sub max_len min_len) 1 in
  if negb (min_len + count <=? length_sz db) then Undefined
  else
    let it := drop (N.to_nat min_len) db in
    let num_candidates := count_candidates (take (N.to_nat count) it) in
    if num_candidates =? 0 then Throw runtime_error
    else
      '(idx, g) ← uniform_int 0 (num_candidates - 1) g;
      w ← bucket_walk it idx;
      Ret (w, g).

(** ** Binary64 numbers *)

(** The exact value of a finite number; an infinity and a NaN have none. *)
Definition Q_of_spec_float (x : spec_float) : option Q :=
  match x with
  | S754_zero _ => Some 0%Q
  | S754_finite s m e =>
      let v := (inject_Z (Z.pos m) * 2 ^ e)%Q in
      Some (if s then Qopp v else v)
  | _ => None
  end.

(** The conversion of a [std::size_t] to [double], written
    [static_cast<double>(n)] or applied to an operand of [/]: the nearest
    binary64 number, ties to even. *)
Definition double_of_sz (n : N) : spec_float :=
  binary_normalize prec emax (Z.of_N n) 0 false.

(** The literal [2.7] as the compiler reads it: the nearest binary64
    number, 0x1.599999999999ap+1. *)
Definition double_2_7 : spec_float := S754_finite false 6079859496950170 (-51).

Definition INT32_MIN : Z := -2147483648.
Definition INT32_MAX : Z := 2147483647.

(** [std::round]: to the nearest integer, halfway cases away from zero. *)
Definition round_half_away (q : Q) : Z :=
  if Qle_bool 0 q then Qfloor (q + (1 # 2)) else Qceiling (q - (1 # 2)).

(** [static_cast<i32>(std::round(x))]. [std::round] gives an integer, which
    binary64 holds; the cast of an integer outside [i32], of an infinity or
    of a NaN is undefined ([None]). *)
Definition round_to_i32 (x : spec_float) : option Z :=
  match Q_of_spec_float x with
  | Some v =>
      let k := round_half_away v in
      if (INT32_MIN <=? k)%Z && (k <=? INT32_MAX)%Z then Some k else None
  | None => None
  end.

(** ** Mangling *)

(** [static_cast<i32>(std::round(piece.length() / mangling_factor))], the
    initial value of the variable the code calls [magling_magnitude]: the
    length is converted to [double] and divided in binary64. *)
Definition magling_magnitude (len : N) (mangling_factor : spec_float) : option Z :=
  round_to_i32 (SF64div (double_of_sz len) mangling_factor).

(** The same number with the quotient taken exactly, for a rational factor
    (2.7 is [27 # 10]) and without the bounds of [i32]. At the factor 2.7
    this is [magling_magnitude] for every length below 5,798,205,849 (lemma
    [magling_magnitude_2_7]); the nickname generator is stated on it. *)
Definition mangling_magnitude (len : N) (mangling_factor : Q) : Z :=
  round_half_away (inject_Z (Z.of_N len) / mangling_factor).

(** [std::iota(begin, end, 0)] on a vector of [n] elements. *)
Definition iota (n : nat) : list N := map N.of_nat (seq 0 n).

(** The body of [while (0 < magling_magnitude--)], run [n] times. Indexing
    the emptied vector [indices] is undefined. *)
Fixpoint mangle_loop (n : nat) (g : Engine) (piece : str) (indices : list N)
  : result (str * Engine) :=
  match n with
  | O => Ret (piece, g)
  | S n' =>
      '(idx, g) ← uniform_int 0 (sz_sub (length_sz indices) 1) g;
      match indices !! N.to_nat idx, last indices with
      | Some chosen, Some back =>
          (* swap(indices[idx], indices.back()); idx = indices.back(); pop_back() *)
          let indices := take (pred (length indices)) (<[N.to_nat idx := back]> indices) in
          let idx := chosen in
          if idx =? 0 then
            '(c, g) ← sample_ascii_lower g;
            mangle_loop n' g (<[N.to_nat idx := c]> piece) indices
          else
            '(c, g) ← sample_ascii g;
            mangle_loop n' g (<[N.to_nat idx := tolower c]> piece) indices
      | _, _ => Undefined
      end
  end.

(** The part of [sample_and_mangle_word] after the word is drawn, with the
    [double] factor of the code. Besides the cast, the decrement of
    [INT32_MIN] in the loop test [0 < magling_magnitude--] is undefined. *)
Definition mangle_b64 (g : Engine) (piece : str) (mangling_factor : spec_float)
  : result (str * Engine) :=
  let indices := iota (length piece) in
  match magling_magnitude (length_sz piece) mangling_factor with
  | Some magling_magnitude =>
      if (magling_magnitude =? INT32_MIN)%Z then Undefined
      else mangle_loop (Z.to_nat magling_magnitude) g piece indices
  | None => Undefined
  end.

Definition sample_and_mangle_word_b64 (g : Engine) (db : WordDB) (min_len max_len : N)
  (mangling_factor : spec_float) : result (str * Engine) :=
  '(piece, g) ← sample_word g db min_len max_len;
  mangle_b64 g piece mangling_factor.

(** The two functions with the exact quotient [mangling_magnitude]. A zero
    factor makes the quotient infinite, whose cast to [i32] is undefined. *)
Definition mangle (g : Engine) (piece : str) (mangling_factor : Q)
  : result (str * Engine) :=
  let indices := iota (length piece) in
  if Qeq_bool mangling_factor 0 then Undefined
  else
    let magling_magnitude := mangling_magnitude (length_sz piece) mangling_factor in
    mangle_loop (Z.to_nat magling_magnitude) g piece indices.

Definition sample_and_mangle_word (g : Engine) (db : WordDB) (min_len max_len : N)
  (mangling_factor : Q) : result (str * Engine) :=
  '(piece, g) ← sample_word g db min_len max_len;
  mangle g piece mangling_factor.

(** ** Nickname generator *)

Record SampleNicknameOpt : Type := {
  min_len : N;
  max_len : N;
  min_word_len : N;
  max_word_len : N;
}.

Definition SAMPLE_NICKNAME_OPT : SampleNicknameOpt :=
  {| min_len := 8; max_len := 8; min_word_len := 3; max_word_len := 8 |}.

Definition MANGLING_FACTOR : Q := 27 # 10.

(** [for (--chance; 0 < chance; --chance) piece.push_back(sample_ascii(g));]
    with [n] the value of [chance] after the first decrement. *)
Fixpoint random_fill (n : nat) (g : Engine) (piece : str) : result (str * Engine) :=
  match n with
  | O => Ret (piece, g)
  | S n' =>
      '(c, g) ← sample_ascii g;
      random_fill n' g (piece ++ [c])
  end.

(** [piece[0] = toupper(piece[0])]; on an empty string this rewrites the
    terminating null character with itself. *)
Definition capitalize (piece : str) : str :=
  match piece with
  | [] => piece
  | c :: _ => <[0%nat := toupper c]> piece
  end.

(** [while (0 < chance) { ... }]: one unit of fuel per iteration. *)
Fixpoint nickname_loop (fuel : nat) (g : Engine) (db : WordDB) (opt : SampleNicknameOpt)
  (chance : N) (pieces : list str) : result (list str * Engine) :=
  if chance =? 0 then Ret (pieces, g)
  else
    match fuel with
    | O => OutOfFuel
    | S fuel' =>
        if chance <? min_word_len opt then
          '(c, g) ← sample_ascii_lower g;
          '(piece, g) ← random_fill (N.to_nat (sz_sub chance 1)) g [c];
          nickname_loop fuel' g db opt 0 (pieces ++ [piece])
        else
          '(piece, g) ← sample_and_mangle_word g db (min_word_len opt)
                          (N.min (max_word_len opt) chance) MANGLING_FACTOR;
          let chance := sz_sub chance (length_sz piece) in
          nickname_loop fuel' g db opt chance (pieces ++ [capitalize piece])
    end.

(** Exchange of the elements at [i] and [j]. *)
Definition swap_at {A} (v : list A) (i j : nat) : list A :=
  match v !! i, v !! j with
  | Some x, Some y => <[i:=y]> (<[j:=x]> v)
  | _, _ => v
  end.

(** [std::shuffle]: [for (i = n - 1; 0 < i; --i) swap(v[i], v[D(g, {0, i})])].
    The standard fixes that the result is a permutation drawn with the
    engine, not the order of the draws; this is the textbook loop. *)
Fixpoint shuffle_loop {A} (i : nat) (g : Engine) (v : list A) : result (list A * Engine) :=
  match i with
  | O => Ret (v, g)
  | S i' =>
      '(j, g) ← uniform_int 0 (N.of_nat i) g;
      shuffle_loop i' g (swap_at v i (N.to_nat j))
  end.

Definition shuffle {A} (g : Engine) (v : list A) : result (list A * Engine) :=
  shuffle_loop (pred (length v)) g v.

(** [std::accumulate(begin, end, std::string(), nickname + piece)]. *)
Definition accumulate (pieces : list str) : str :=
  foldl (fun nickname piece => nickname ++ piece) [] pieces.

Definition sample_nickname (fuel : nat) (g : Engine) (db : WordDB) (opt : SampleNicknameOpt)
  : result (str * Engine) :=
  '(chance, g) ← uniform_int (min_len opt) (max_len opt) g;
  '(pieces, g) ← nickname_loop fuel g db opt chance [];
  '(pieces, g) ← shuffle g pieces;
  Ret (accumulate pieces, g).

(** ** Loading the corpus *)

Definition newline : ascii := ascii_of_N 10.

(** The lines the loop [for (line; !std::getline(f, line).eof();)] hands to
    its body: [std::getline] sets eofbit when the input ends before a
    newline, so the characters after the last newline are read but the body
    does not run for them. [line] is the line read so far. *)
Fixpoint getlines (line : str) (f : str) : list str :=
  match f with
  | [] => []
  | c :: f' =>
      if decide (c = newline) then line :: getlines [] f'
      else getlines (line ++ [c]) f'
  end.

(** [std::string_view(line.c_str() + 1, n)]. *)
Definition string_view_from_1 (line : str) (n : N) : str :=
  take (N.to_nat n) (drop 1 line).

(** The body of the loop of [load_word_db]. *)
Definition load_line (db : WordDB) (line : str) : WordDB :=
  if sz_sub (length_sz line) 2 <? length_sz db then
    alter (fun b => b ++ [string_view_from_1 line (sz_sub (length_sz line) 2)])
          (N.to_nat (sz_sub (length_sz line) 2)) db
  else db.

(** [load_word_db] on the contents of the file; [None] as the file stands
    for a file that cannot be opened, [None] as the result for [std::exit]. *)
Definition load_word_db (file : option str) : option WordDB :=
  match file with
  | None => None
  | Some f =>
      let db := replicate (N.to_nat (MAX_NICKNAME_LEN + 1)) [] in
      Some (foldl load_line db (getlines [] f))
  end.

(** ** Collision experiments *)

Definition NUM_INITIAL_NICKNAMES : N := 10000000.
Definition NUM_TRIES : N := 50000000.

(** [std::random_device]: the stream of the seeds it gives. *)
Record Device : Type := { entropy : nat -> N; taken : nat }.

Definition random_device (d : Device) : N * Device :=
  (entropy d (taken d), {| entropy := entropy d; taken := S (taken d) |}).

(** The locals of one experiment: the set of nicknames, the collision
    counter and the source of randomness ([Src] is the engine that is reused
    or the device that seeds a new engine for every draw). *)
Record Worker (Src : Type) : Type := {
  nickname_db : gset str;
  num_collisions : N;
  source : Src;
}.
Arguments nickname_db {Src} w.
Arguments num_collisions {Src} w.
Arguments source {Src} w.

Definition size_sz (X : gset str) : N := N.of_nat (size X).

(** [static_cast<double>(num_collisions) / NUM_TRIES * 100]: the operands
    [NUM_TRIES] and [100] are converted to [double], the division and the
    multiplication are those of binary64. *)
Definition percentage (num_collisions num_tries : N) : spec_float :=
  SF64mul (SF64div (double_of_sz num_collisions) (double_of_sz num_tries))
          (double_of_sz 100).

Section Experiment.
Context {Src : Type}.
(** One draw of a nickname, as the variant makes it. *)
Variable next_nickname : Src -> result (str * Src).

(** One iteration of the trial loop: [contains], then [++num_collisions]. *)
Definition trial (w : Worker Src) : result (Worker Src) :=
  '(nickname, s) ← next_nickname (source w);
  Ret {| nickname_db := nickname_db w;
         num_collisions :=
           if decide (nickname ∈ nickname_db w) then num_collisions w + 1
           else num_collisions w;
         source := s |}.

(** [for (auto i = sz(); i < NUM_TRIES; ++i)] with [n] iterations left. *)
Fixpoint trial_phase (n : nat) (w : Worker Src) : result (Worker Src) :=
  match n with
  | O => Ret w
  | S n' => w ← trial w; trial_phase n' w
  end.

(** [while (nickname_db.size() < NUM_INITIAL_NICKNAMES) nickname_db.emplace(...)];
    the loop needs not end, one unit of fuel per iteration. *)
Fixpoint population_phase (fuel : nat) (num_initial : N) (w : Worker Src)
  : result (Worker Src) :=
  if size_sz (nickname_db w) <? num_initial then
    match fuel with
    | O => OutOfFuel
    | S fuel' =>
        '(nickname, s) ← next_nickname (source w);
        population_phase fuel' num_initial
          {| nickname_db := {[nickname]} ∪ nickname_db w;
             num_collisions := num_collisions w;
             source := s |}
    end
  else Ret w.

(** What the experiment stores in [out]. *)
Definition report (num_tries : N) (w : Worker Src) : N * N * spec_float :=
  (num_tries, num_collisions w, percentage (num_collisions w) num_tries).

(** The locals when the experiment starts. *)
Definition start (s : Src) : Worker Src :=
  {| nickname_db := ∅; num_collisions := 0; source := s |}.

(** Both phases; the state after the trial phase. *)
Definition run (fuel : nat) (num_initial num_tries : N) (s : Src)
  : result (Worker Src) :=
  w ← population_phase fuel num_initial (start s);
  trial_phase (N.to_nat num_tries)
    {| nickname_db := nickname_db w; num_collisions := 0; source := source w |}.

(** The nicknames the population loop draws, in order, duplicates
    included (the loop again, keeping only the draws). *)
Fixpoint population_draws (fuel : nat) (num_initial : N) (w : Worker Src) : list str :=
  if size_sz (nickname_db w) <? num_initial then
    match fuel with
    | O => []
    | S fuel' =>
        match next_nickname (source w) with
        | Ret (nickname, s) =>
            nickname :: population_draws fuel' num_initial
              {| nickname_db := {[nickname]} ∪ nickname_db w;
                 num_collisions := num_collisions w;
                 source := s |}
        | _ => []
        end
    end
  else [].

(** The nicknames the [n] draws of a trial phase give, in order. *)
Fixpoint trial_draws (n : nat) (s : Src) : result (list str) :=
  match n with
  | O => Ret []
  | S n' =>
      '(nickname, s) ← next_nickname s;
      rest ← trial_draws n' s;
      Ret (nickname :: rest)
  end.
End Experiment.

Section Variants.
(** The seeding constructors [std::mt19937(seed)] and [std::mt19937_64(seed)]. *)
Variable mt19937 mt19937_64 : N -> Engine.
(** The corpus, the fuel of every call of [sample_nickname]. *)
Variable word_db : WordDB.
Variable nickname_fuel : nat.

(** A draw with the engine of the experiment. *)
Definition draw_reuse (pesudo_random_engine : Engine) : result (str * Engine) :=
  sample_nickname nickname_fuel pesudo_random_engine word_db SAMPLE_NICKNAME_OPT.

(** A draw with an engine made and seeded for it. *)
Definition draw_recreate (engine_of : N -> Engine) (d : Device) : result (str * Device) :=
  let '(seed, d) := random_device d in
  '(nickname, _) ← sample_nickname nickname_fuel (engine_of seed) word_db SAMPLE_NICKNAME_OPT;
  Ret (nickname, d).

(** The skeleton the four experiments share. *)
Definition experiment_reuse (engine_of : N -> Engine) (fuel : nat)
  (num_initial num_tries : N) (d : Device) : result (Worker Engine) :=
  let '(seed, _) := random_device d in
  run draw_reuse fuel num_initial num_tries (engine_of seed).

Definition experiment_recreate (engine_of : N -> Engine) (fuel : nat)
  (num_initial num_tries : N) (d : Device) : result (Worker Device) :=
  run (draw_recreate engine_of) fuel num_initial num_tries d.

(** 32bit engine, reused. *)
Definition case01 (fuel : nat) (d : Device) : result (N * N * spec_float) :=
  w ← experiment_reuse mt19937 fuel NUM_INITIAL_NICKNAMES NUM_TRIES d;
  Ret (report NUM_TRIES w).

(** 32bit engine, recreated. *)
Definition case02 (fuel : nat) (d : Device) : result (N * N * spec_float) :=
  w ← experiment_recreate mt19937 fuel NUM_INITIAL_NICKNAMES NUM_TRIES d;
  Ret (report NUM_TRIES w).

(** 64bit engine, reused. *)
Definition case03 (fuel : nat) (d : Device) : result (N * N * spec_float) :=
  w ← experiment_reuse mt19937_64 fuel NUM_INITIAL_NICKNAMES NUM_TRIES d;
  Ret (report NUM_TRIES w).

(** 64bit engine, recreated. *)
Definition case04 (fuel : nat) (d : Device) : result (N * N * spec_float) :=
  w ← experiment_recreate mt19937_64 fuel NUM_INITIAL_NICKNAMES NUM_TRIES d;
  Ret (report NUM_TRIES w).
End Variants.

(** ** Properties of a corpus and the specification's view of it *)

(** The buckets [min_len], [min_len + 1], ..., [max_len], flattened into one
    sequence (follows the specification, not the code). *)
Definition eligible_lengths (min_len max_len : N) : list N :=
  (fun j => min_len + N.of_nat j) <$> seq 0 (N.to_nat (max_len + 1 - min_len)).

Definition eligible_words (db : WordDB) (min_len max_len : N) : list str :=
  concat (bucket db <$> eligible_lengths min_len max_len).

(** Every word stored in bucket [L] has length exactly [L]. *)
Definition bucket_invariant (db : WordDB) : Prop :=
  forall (L : nat) (b : list str) (w : str), db !! L = Some b -> w ∈ b -> length w = L.

Fixpoint bucket_invariantb_from (L : nat) (db : WordDB) : bool :=
  match db with
  | [] => true
  | b :: db' => forallb (fun w => Nat.eqb (length w) L) b && bucket_invariantb_from (S L) db'
  end.

(** A [std::vector] has fewer than 2^64 elements. *)
Definition representable (db : WordDB) : Prop := length_sz db < SZ_MOD.

(** Every character of every word of the corpus is a letter or a digit. *)
Definition alnum_str (s : str) : Prop := Forall (fun c => is_alnum c = true) s.

Definition alnum_corpus (db : WordDB) : Prop :=
  forall (L : nat) (b : list str) (w : str), db !! L = Some b -> w ∈ b -> alnum_str w.

Definition alnum_corpusb (db : WordDB) : bool :=
  forallb (forallb (forallb is_alnum)) db.

(** An entry without its first and its last character (follows the
    specification). *)
Definition strip_delimiters (line : str) : str := removelast (tail line).

(** The entries of the word list, in order, whose stripped length is [L]. *)
Definition entries_of_length (L : nat) (lines : list str) : list str :=
  filter (fun line => length line = (L + 2)%nat) lines.

(** The corpus the specification describes for a list of entries: thirteen
    buckets, bucket [L] holding the stripped entries of stripped length [L],
    in order. *)
Definition claimed_corpus (entries : list str) (db : WordDB) : Prop :=
  length db = 13%nat
  /\ forall L : nat, (L <= 12)%nat ->
       db !! L = Some (strip_delimiters <$> entries_of_length L entries).

(** The percentage of [count] collisions in [num_tries] trials (follows the
    specification: 100 * collision_count / total_trials). *)
Definition exact_percentage (count num_tries : N) : Q :=
  (100 * inject_Z (Z.of_N count) / inject_Z (Z.of_N num_tries))%Q.

(** The report the specification describes for [count] collisions: the
    number of trials, the count and the percentage of the count. *)
Definition claimed_report (num_tries count : N) (out : N * N * spec_float) : Prop :=
  out.1.1 = num_tries /\ out.1.2 = count
  /\ exists p, Q_of_spec_float out.2 = Some p /\ (p == exact_percentage count num_tries)%Q.

(** A percentage as close to the exact one as two roundings of binary64
    leave it, and between 0 and 100. *)
Definition close_percentage (count num_tries : N) (x : spec_float) : Prop :=
  exists p, Q_of_spec_float x = Some p
    /\ (0 <= p <= 100)%Q
    /\ (exact_percentage count num_tries * (1 - (1 # 2 ^ 48)) <= p)%Q
    /\ (p <= exact_percentage count num_tries * (1 + (1 # 2 ^ 48)))%Q.

(** What an experiment may store in [out]: the number of trials, a count of
    at most as many collisions, and the percentage of the count. *)
Definition sound_report (out : N * N * spec_float) : Prop :=
  out.1.1 = NUM_TRIES
  /\ out.1.2 <= NUM_TRIES
  /\ close_percentage out.1.2 NUM_TRIES out.2.

(** ** Rounding *)

(** [k] is the integer nearest to [v], halfway cases away from zero
    (follows the specification's round(length / mangling_factor)). *)
Definition rounds_to (v : Q) (k : Z) : Prop :=
  if Qle_bool 0 v
  then (inject_Z k - (1 # 2) <= v < inject_Z k + (1 # 2))%Q
  else (inject_Z k - (1 # 2) < v <= inject_Z k + (1 # 2))%Q.

(** The place of the rational [n / d] as the shift register [mrs] of the
    rounding of binary64 records it: [n / d] lies in the unit interval that
    starts at the mantissa, the round bit says whether it reaches the middle
    of the interval, the sticky bit whether it is off the start and off the
    middle. *)
Definition located (n d : Z) (mrs : shr_record) : Prop :=
  (0 < d /\ 0 <= shr_m mrs /\ shr_m mrs * d <= n < (shr_m mrs + 1) * d
   /\ (shr_r mrs = true <-> d <= 2 * (n - shr_m mrs * d))
   /\ (shr_s mrs = true <-> (n <> shr_m mrs * d /\ 2 * (n - shr_m mrs * d) <> d)))%Z.

(** ** The sampler seen through its draws *)

(** The character [sample_ascii] makes of the number drawn. *)
Definition ascii_of_draw (ch : N) : ascii :=
  if ch <? NUM_DIGITS then ascii_of_N (N_of_ascii "0" + ch)
  else
    if ch - NUM_DIGITS <=? N_of_ascii "Z" - N_of_ascii "A"
    then ascii_of_N (N_of_ascii "A" + (ch - NUM_DIGITS))
    else ascii_of_N (N_of_ascii "a" + (ch - NUM_DIGITS - (N_of_ascii "Z" - N_of_ascii "A" + 1))).

(** One replacement [piece[idx] = c]. *)
Definition write (piece : str) (wr : N * ascii) : str :=
  <[N.to_nat wr.1 := wr.2]> piece.

(** The mangling loop again, keeping only the replacements it makes, in
    order, as pairs of a position and the character stored there. *)
Fixpoint mangle_writes (n : nat) (g : Engine) (indices : list N) : list (N * ascii) :=
  match n with
  | O => []
  | S n' =>
      match uniform_int 0 (sz_sub (length_sz indices) 1) g with
      | Ret (idx, g) =>
          match indices !! N.to_nat idx, last indices with
          | Some chosen, Some back =>
              let indices := take (pred (length indices)) (<[N.to_nat idx := back]> indices) in
              let idx := chosen in
              if idx =? 0 then
                match sample_ascii_lower g with
                | Ret (c, g) => (idx, c) :: mangle_writes n' g indices
                | _ => []
                end
              else
                match sample_ascii g with
                | Ret (c, g) => (idx, tolower c) :: mangle_writes n' g indices
                | _ => []
                end
          | _, _ => []
          end
      | _ => []
      end
  end.

(** What a replacement stores: a lowercase letter at position 0, elsewhere
    the lowercase fold of a letter or digit. *)
Definition mangled_char (wr : N * ascii) : Prop :=
  if wr.1 =? 0 then is_lower wr.2 = true
  else exists c, is_alnum c = true /\ wr.2 = tolower c.

(** ** Concrete inputs *)

(** An engine whose tape starts with the numbers given and goes on with 0. *)
Definition tape_of (l : list N) : Engine :=
  {| tape := fun n => default 0 (l !! n); cursor := 0 |}.

(** The engine [tape_of l] after [n] draws. *)
Definition tape_after (l : list N) (n : nat) : Engine :=
  {| tape := tape (tape_of l); cursor := n |}.

(** A small corpus with words of 3, 5 and 8 letters. *)
Definition example_db : WordDB :=
  [[]; []; []; [lit "cat"; lit "dog"]; []; [lit "mango"]; []; [];
   [lit "mangrove"]; []; []; []; []].

Definition example_tape : list N := [0; 3; 1; 2; 3; 4; 5; 6; 7; 8; 9; 1; 2; 3].

(** A corpus whose only word is [mangrove]. *)
Definition mangrove_db : WordDB :=
  [[]; []; []; []; []; []; []; []; [lit "mangrove"]; []; []; []; []].

(** A word list with a hyphenated entry, quoted with apostrophes. *)
Definition hyphen_file : str := lit "'t-shirts'
".

(** A word list of six lines and a last line without a newline. *)
Definition example_file : str := lit "'cat'
'mangrove'
'x'
q
''
'dog'
'trailing'".

(** A word of 5,798,205,849 characters, and a corpus that holds it. *)
Definition long_word : str := replicate (N.to_nat 5798205849) "a"%char.

Definition long_db : WordDB :=
  [[]; []; []; [long_word]; []; []; []; []; []; []; []; []; []].

(** A source for the examples: it gives the nickname [hit] at the draws 0
    to [hits], the first of which fills the set, and [miss] afterwards. *)
Definition counting_draw (hits : N) (s : N) : result (str * N) :=
  Ret (if s <=? hits then lit "hit" else lit "miss", s + 1).

(** A seeding function and a device for the examples. *)
Definition example_engine_of (seed : N) : Engine :=
  {| tape := fun n => seed + N.of_nat n * seed; cursor := 0 |}.

Definition example_device : Device :=
  {| entropy := fun n => N.of_nat n * 7 + 1; taken := 0 |}.

(** A run of the engine-reusing experiment on the small corpus, with an
    engine of period 3: 2 nicknames to start with, 6 trials. *)
Definition example_start : Engine :=
  {| tape := fun n => N.of_nat n mod 3; cursor := 0 |}.

Definition example_population : Worker Engine :=
  Eval vm_compute in
    match population_phase (draw_reuse example_db 8) 40 2 (start example_start) with
    | Ret w => w
    | _ => start example_start
    end.

Definition example_final : Worker Engine :=
  Eval vm_compute in
    match run (draw_reuse example_db 8) 40 2 6 example_start with
    | Ret w => w
    | _ => start example_start
    end.

(** A run on the corpus of one word with the engine that draws 0 for ever:
    1 nickname to start with, 6 trials. *)
Definition mangrove_final : Worker Engine :=
  Eval vm_compute in
    match run (draw_reuse mangrove_db 8) 2 1 6 (tape_of []) with
    | Ret w => w
    | _ => start (tape_of [])
    end.

(** A run with 7 collisions in 100 trials. *)
Definition counting_final : Worker N :=
  Eval vm_compute in
    match run (counting_draw 7) 1 1 100 0 with
    | Ret w => w
    | _ => start 0
    end.

(** * Further parts of the code *)

(** ** Reading a character back to the number drawn *)

(** The number in [0, 61] that [sample_ascii] turns into [c]. *)
Definition draw_of_ascii (c : ascii) : N :=
  let n := N_of_ascii c in
  if is_digit c then n - N_of_ascii "0"
  else if is_upper c then n - N_of_ascii "A" + NUM_DIGITS
  else n - N_of_ascii "a" + NUM_DIGITS + (N_of_ascii "Z" - N_of_ascii "A" + 1).

(** ** The pieces of a nickname *)

(** A piece made of a word: as long as a word may be, and begun with a
    character that is not a lowercase letter. *)
Definition word_piece (opt : SampleNicknameOpt) (p : str) : Prop :=
  min_word_len opt <= length_sz p <= max_word_len opt
  /\ exists c rest, p = c :: rest /\ is_lower c = false.

(** The random filler: shorter than any word, a lowercase letter followed
    by letters and digits. *)
Definition filler_piece (opt : SampleNicknameOpt) (p : str) : Prop :=
  length_sz p < min_word_len opt
  /\ exists c rest, p = c :: rest /\ is_lower c = true /\ alnum_str rest.

(** The thirteen empty buckets of a word list without usable lines. *)
Definition empty_db : WordDB := replicate 13 [].

(** Options for nicknames shorter than any word. *)
Definition short_opt : SampleNicknameOpt :=
  {| min_len := 2; max_len := 2; min_word_len := 3; max_word_len := 8 |}.


(** A source of nicknames that gives the same nickname at every draw. *)
Definition constant_draw (s : unit) : result (str * unit) := Ret (lit "Aata0Aat", s).

(** The engine-recreating experiment on the small corpus. *)
Definition example_recreate_final : Worker Device :=
  Eval vm_compute in
    match experiment_recreate example_db 8 example_engine_of 40 2 6 example_device with
    | Ret w => w
    | _ => start example_device
    end.

(** ** The description of the corpus in the log *)

(** A decimal digit as a character. *)
Fixpoint chars_of_uint (d : Decimal.uint) : str :=
  match d with
  | Decimal.Nil => []
  | Decimal.D0 d => "0"%char :: chars_of_uint d
  | Decimal.D1 d => "1"%char :: chars_of_uint d
  | Decimal.D2 d => "2"%char :: chars_of_uint d
  | Decimal.D3 d => "3"%char :: chars_of_uint d
  | Decimal.D4 d => "4"%char :: chars_of_uint d
  | Decimal.D5 d => "5"%char :: chars_of_uint d
  | Decimal.D6 d => "6"%char :: chars_of_uint d
  | Decimal.D7 d => "7"%char :: chars_of_uint d
  | Decimal.D8 d => "8"%char :: chars_of_uint d
  | Decimal.D9 d => "9"%char :: chars_of_uint d
  end.

(** [stream << n] for a [std::size_t]: the decimal numeral of [n]. *)
Definition show_sz (n : N) : str := chars_of_uint (N.to_uint n).

(** The loop of [print_about_expriment_env]: [i] is the index of the first
    of the buckets left, [info] what the stream holds. *)
Fixpoint word_db_info_loop (i : N) (buckets : list (list str)) (info : str) : str :=
  match buckets with
  | [] => info
  | b :: buckets' =>
      let info := if 0 <? i then info ++ lit ", " else info in
      let info :=
        info ++ lit "[" ++ show_sz i ++ lit "]" ++ lit "=" ++ show_sz (length_sz b) in
      word_db_info_loop (i + 1) buckets' info
  end.

(** [print_about_expriment_env]: the message it hands to the log. *)
Definition print_about_expriment_env (word_db : WordDB) : str :=
  word_db_info_loop 0 word_db (lit "ENV: WORD DB { ") ++ lit " }".

(** One entry of the message (follows the format, for the statement of
    what the loop builds). *)
Definition info_entry (i : nat) (b : list str) : str :=
  lit "[" ++ show_sz (N.of_nat i) ++ lit "]=" ++ show_sz (length_sz b).

(** The entries joined by [", "]. *)
Fixpoint join_entries (entries : list str) : str :=
  match entries with
  | [] => []
  | [e] => e
  | e :: entries' => e ++ lit ", " ++ join_entries entries'
  end.

(** The entries from index [i] on, each after its separator. *)
Fixpoint info_tail (i : nat) (buckets : list (list str)) : str :=
  match buckets with
  | [] => []
  | b :: buckets' => lit ", " ++ info_entry i b ++ info_tail (S i) buckets'
  end.

(** A corpus with other words in buckets of the sizes of [example_db]. *)
Definition other_db : WordDB :=
  [[]; []; []; [lit "cow"; lit "pig"]; []; [lit "lemon"]; []; [];
   [lit "elephant"]; []; []; []; []].

(** * Proofs *)

(** ** Outcomes *)

Lemma bind_Ret {A B} (m : result A) (k : A -> result B) (b : B) :
  m ≫= k = Ret b -> exists a, m = Ret a /\ k a = Ret b.
Proof. destruct m; simpl; intros; try discriminate. eauto. Qed.

(** Splits a hypothesis [m ≫= k = Ret b] into the two calls. *)
Ltac bind_inv H :=
  let a := fresh "a" in
  let Ha := fresh "Hcall" in
  apply bind_Ret in H; destruct H as (a & Ha & H);
  lazymatch type of a with
  | (_ * _)%type => destruct a as [? ?]
  | _ => idtac
  end.

(** ** Drawing *)

Lemma uniform_int_Ret a b g v g' :
  uniform_int a b g = Ret (v, g') -> a <= v <= b /\ g' = advance g.
Proof.
  unfold uniform_int. destruct (N.leb_spec a b); [|discriminate].
  intros [= <- <-]. split; [|done].
  assert (peek g mod (b - a + 1) < b - a + 1) by (apply N.mod_upper_bound; lia).
  set (m := peek g mod (b - a + 1)) in *. lia.
Qed.

Lemma uniform_int_ok a b g :
  a <= b -> uniform_int a b g = Ret (a + peek g mod (b - a + 1), advance g).
Proof. unfold uniform_int. intros. destruct (N.leb_spec a b); [done|lia]. Qed.

(** A property of all numbers below a bound, checked by enumeration. *)
Lemma N_below_forall (P : N -> bool) (k : nat) :
  forallb P (N.of_nat <$> seq 0 k) = true ->
  forall n, n < N.of_nat k -> P n = true.
Proof.
  intros H n Hn. rewrite forallb_forall in H. apply H.
  apply list_elem_of_In, list_elem_of_fmap. exists (N.to_nat n). split; [lia|].
  apply elem_of_seq. lia.
Qed.

Lemma sample_ascii_eq g :
  sample_ascii g = Ret (ascii_of_draw (peek g mod 62), advance g).
Proof.
  unfold sample_ascii. rewrite uniform_int_ok by (vm_compute; discriminate).
  change (NUM_ALPHAS + NUM_DIGITS - 1 - 0 + 1) with 62. rewrite N.add_0_l.
  simpl. unfold ascii_of_draw. by destruct (_ <? _).
Qed.

Lemma ascii_of_draw_alnum n : n < 62 -> is_alnum (ascii_of_draw n) = true.
Proof. apply (N_below_forall (fun n => is_alnum (ascii_of_draw n)) 62). by vm_compute. Qed.

Lemma sample_ascii_alnum g c g' :
  sample_ascii g = Ret (c, g') -> is_alnum c = true /\ g' = advance g.
Proof.
  rewrite sample_ascii_eq. intros [= <- <-]. split; [|done].
  apply ascii_of_draw_alnum. by apply N.mod_upper_bound.
Qed.

Lemma sample_ascii_lower_eq g :
  sample_ascii_lower g = Ret (ascii_of_N (97 + peek g mod 26), advance g).
Proof.
  unfold sample_ascii_lower. by rewrite uniform_int_ok by (vm_compute; discriminate).
Qed.

Lemma sample_ascii_lower_lower g c g' :
  sample_ascii_lower g = Ret (c, g') -> is_lower c = true /\ g' = advance g.
Proof.
  rewrite sample_ascii_lower_eq. intros [= <- <-]. split; [|done].
  apply (N_below_forall (fun n => is_lower (ascii_of_N (97 + n))) 26); [by vm_compute|].
  by apply N.mod_upper_bound.
Qed.

Lemma is_lower_alnum c : is_lower c = true -> is_alnum c = true.
Proof. unfold is_alnum. intros ->. by rewrite orb_true_r. Qed.

Lemma tolower_alnum c : is_alnum c = true -> is_alnum (tolower c) = true.
Proof. destruct c as [[] [] [] [] [] [] [] []]; vm_compute; congruence. Qed.

Lemma toupper_alnum c : is_alnum c = true -> is_alnum (toupper c) = true.
Proof. destruct c as [[] [] [] [] [] [] [] []]; vm_compute; congruence. Qed.

Lemma tolower_not_upper c : is_upper (tolower c) = false.
Proof. destruct c as [[] [] [] [] [] [] [] []]; vm_compute; congruence. Qed.

(** ** The walk over the buckets *)

Lemma count_candidates_from (bs : list (list str)) (a : N) :
  foldl (fun total b => total + length_sz b) a bs = a + length_sz (concat bs).
Proof.
  revert a. induction bs as [|b bs IH]; intros a; simpl.
  - unfold length_sz. simpl. lia.
  - rewrite IH. unfold length_sz. rewrite length_app. lia.
Qed.

Lemma count_candidates_concat (bs : list (list str)) :
  count_candidates bs = length_sz (concat bs).
Proof. unfold count_candidates. by rewrite count_candidates_from. Qed.

(** The walk finds the [i]-th word of the flattened buckets, whatever
    follows them. *)
Lemma bucket_walk_concat (bs rest : list (list str)) (i : N) (w : str) :
  concat bs !! N.to_nat i = Some w -> bucket_walk (bs ++ rest) i = Ret w.
Proof.
  revert i. induction bs as [|b bs IH]; intros i Hw; simpl in *; [done|].
  unfold length_sz, sz_sub. destruct (N.leb_spec (N.of_nat (length b)) i) as [Hle|Hlt].
  - apply IH. rewrite lookup_app_r in Hw by lia.
    rewrite <- Hw. f_equal. lia.
  - rewrite lookup_app_l in Hw by lia. by rewrite Hw.
Qed.

(** Whatever the walk returns is a word of one of the buckets it walked. *)
Lemma bucket_walk_elem (it : list (list str)) (i : N) (w : str) :
  bucket_walk it i = Ret w -> exists (j : nat) (b : list str), it !! j = Some b /\ w ∈ b.
Proof.
  revert i. induction it as [|b it IH]; intros i; simpl; [done|].
  destruct (_ <=? _).
  - intros (j & b' & ? & ?)%IH. by exists (S j), b'.
  - destruct (b !! N.to_nat i) eqn:E; [|done]. intros [= ->].
    exists 0%nat, b. split; [done|]. by eapply list_elem_of_lookup_2.
Qed.

Lemma take_drop_buckets (db : WordDB) (n k : nat) :
  (n + k <= length db)%nat ->
  take k (drop n db) = (fun j => default [] (db !! (n + j)%nat)) <$> seq 0 k.
Proof.
  intros Hlen. apply list_eq. intros j.
  rewrite list_lookup_fmap. destruct (decide (j < k)%nat) as [Hj|Hj].
  - rewrite lookup_take_lt, lookup_drop, lookup_seq_lt by done. simpl.
    destruct (lookup_lt_is_Some_2 db (n + j)) as [b ->]; [lia|done].
  - by rewrite lookup_take_ge, lookup_seq_ge by lia.
Qed.

Lemma sz_count_exact (db : WordDB) (min_len max_len : N) :
  representable db -> min_len <= max_len -> max_len < length_sz db ->
  sz_add (sz_sub max_len min_len) 1 = max_len + 1 - min_len.
Proof.
  unfold representable, sz_add, sz_sub. intros Hrep Hle Hlt.
  destruct (N.leb_spec min_len max_len); [|lia].
  rewrite N.mod_small; lia.
Qed.

(** The buckets the code sums over and walks first are the eligible ones. *)
Lemma eligible_buckets (db : WordDB) (min_len max_len : N) :
  min_len <= max_len -> max_len < length_sz db ->
  take (N.to_nat (max_len + 1 - min_len)) (drop (N.to_nat min_len) db)
  = bucket db <$> eligible_lengths min_len max_len.
Proof.
  unfold length_sz. intros Hle Hlt. rewrite take_drop_buckets by lia.
  unfold eligible_lengths. rewrite <- list_fmap_compose.
  apply list_fmap_ext. intros _ j _. simpl. unfold bucket.
  by replace (N.to_nat (min_len + N.of_nat j)) with (N.to_nat min_len + j)%nat by lia.
Qed.

Lemma eligible_words_prefix (db : WordDB) (min_len max_len : N) :
  min_len <= max_len -> max_len < length_sz db ->
  exists rest,
    drop (N.to_nat min_len) db = (bucket db <$> eligible_lengths min_len max_len) ++ rest.
Proof.
  intros Hle Hlt. rewrite <- eligible_buckets by done.
  eexists. symmetry. apply take_drop.
Qed.

(** [sample_word] on a range inside the corpus, in the specification's words. *)
Lemma sample_word_empty (g : Engine) (db : WordDB) (min_len max_len : N) :
  representable db -> min_len <= max_len -> max_len < length_sz db ->
  eligible_words db min_len max_len = [] ->
  sample_word g db min_len max_len = Throw runtime_error.
Proof.
  intros Hrep Hle Hlt Hnil. unfold sample_word.
  rewrite (sz_count_exact db) by done.
  destruct (N.leb_spec (min_len + (max_len + 1 - min_len)) (length_sz db)); [simpl|lia].
  rewrite eligible_buckets, count_candidates_concat by done.
  fold (eligible_words db min_len max_len). by rewrite Hnil.
Qed.

Lemma sample_word_select (g : Engine) (db : WordDB) (min_len max_len : N) :
  representable db -> min_len <= max_len -> max_len < length_sz db ->
  eligible_words db min_len max_len <> [] ->
  exists w,
    eligible_words db min_len max_len
      !! N.to_nat (peek g mod length_sz (eligible_words db min_len max_len)) = Some w
    /\ sample_word g db min_len max_len = Ret (w, advance g).
Proof.
  intros Hrep Hle Hlt Hne. unfold sample_word.
  rewrite (sz_count_exact db) by done.
  destruct (N.leb_spec (min_len + (max_len + 1 - min_len)) (length_sz db)); [simpl|lia].
  rewrite eligible_buckets, count_candidates_concat by done.
  fold (eligible_words db min_len max_len).
  set (flat := eligible_words db min_len max_len) in *.
  assert (0 < length_sz flat) as Hpos.
  { unfold length_sz. destruct flat; [done|simpl; lia]. }
  destruct (N.eqb_spec (length_sz flat) 0); [lia|].
  rewrite uniform_int_ok by lia. simpl.
  replace (length_sz flat - 1 - 0 + 1) with (length_sz flat) by lia.
  assert (peek g mod length_sz flat < length_sz flat) as Hidx
    by (apply N.mod_upper_bound; lia).
  set (idx := peek g mod length_sz flat) in *.
  destruct (lookup_lt_is_Some_2 flat (N.to_nat idx)) as [w Hw].
  { unfold length_sz in Hidx. lia. }
  exists w. split; [done|].
  destruct (eligible_words_prefix db min_len max_len Hle Hlt) as [rest ->].
  by rewrite N.add_0_l, (bucket_walk_concat _ rest idx w Hw).
Qed.

(** ** Binary64 arithmetic

    What the rounding of [SpecFloat] does to a number, as far as the
    magnitude of the mangling and the percentage need it: a quotient or a
    product that lies between two numbers binary64 holds is rounded to a
    number between them. *)

Section Binary64.
Local Open Scope Z_scope.

Lemma digits2_pos_size (p : positive) : digits2_pos p = Pos.size p.
Proof. induction p; simpl; congruence. Qed.

Lemma Zdigits2_spec (m : Z) : 0 < m -> 2 ^ (Zdigits2 m - 1) <= m < 2 ^ Zdigits2 m.
Proof.
  destruct m as [|p|p]; try lia. intros _. simpl. rewrite digits2_pos_size.
  pose proof (Pos.size_gt p) as Hgt. pose proof (Pos.size_le p) as Hle.
  split.
  - assert (2 ^ Z.pos (Pos.size p) <= 2 * Z.pos p) as H.
    { change (2 * Z.pos p) with (Z.pos p~0). rewrite <- Pos2Z.inj_pow. lia. }
    replace (Z.pos (Pos.size p)) with (Z.succ (Z.pos (Pos.size p) - 1)) in H by lia.
    rewrite Z.pow_succ_r in H by lia. lia.
  - rewrite <- Pos2Z.inj_pow. lia.
Qed.

Lemma Zdigits2_nonneg (m : Z) : 0 <= Zdigits2 m.
Proof. destruct m; simpl; lia. Qed.

Lemma Zdigits2_le (m L : Z) : 0 <= m -> 0 <= L -> m < 2 ^ L -> Zdigits2 m <= L.
Proof.
  intros Hm HL Hlt. destruct (Z.eq_dec m 0) as [->|Hne]; [simpl; lia|].
  destruct (Zdigits2_spec m) as [Hlo _]; [lia|].
  destruct (Z.le_gt_cases (Zdigits2 m) L) as [|Hgt]; [done|].
  assert (2 ^ L <= 2 ^ (Zdigits2 m - 1)) by (apply Z.pow_le_mono_r; lia). lia.
Qed.

Lemma Zdigits2_ge (m L : Z) : 0 <= L -> 2 ^ L <= m -> L + 1 <= Zdigits2 m.
Proof.
  intros HL Hle. assert (0 < m) as Hm by (pose proof (Z.pow_pos_nonneg 2 L); lia).
  destruct (Zdigits2_spec m Hm) as [_ Hhi].
  destruct (Z.le_gt_cases (L + 1) (Zdigits2 m)) as [|Hgt]; [done|].
  assert (2 ^ Zdigits2 m <= 2 ^ L) by (apply Z.pow_le_mono_r; lia). lia.
Qed.

Lemma located_shr_1 (n d : Z) (mrs : shr_record) :
  located n d mrs -> located n (2 * d) (shr_1 mrs).
Proof.
  destruct mrs as [m r s]. unfold located. simpl.
  intros (Hd & Hm & [Hlo Hhi] & Hr & Hs).
  assert (r || s = true <-> n <> m * d) as Hrs.
  { rewrite orb_true_iff, Hr, Hs. lia. }
  destruct m as [|[p|p|]|p]; simpl; try lia.
  all: repeat split; try lia; try (intros; lia); try (rewrite Hrs; lia);
    try (intros _; lia); try discriminate;
    try (intros H; apply Hrs in H; lia);
    try match goal with H : _ || _ = true |- _ => apply Hrs in H; lia end.
Qed.

Lemma located_iter_shr_1 (p : positive) : forall (n d : Z) (mrs : shr_record),
  located n d mrs -> located n (2 ^ Z.pos p * d) (SpecFloat.iter_pos shr_1 p mrs).
Proof.
  induction p as [p IH|p IH|]; intros n d mrs H; simpl.
  - apply located_shr_1 in H. apply IH in H. apply IH in H.
    replace (2 ^ Z.pos p~1 * d) with (2 ^ Z.pos p * (2 ^ Z.pos p * (2 * d))); [done|].
    rewrite (Pos2Z.inj_xI p). replace (2 * Z.pos p + 1) with (Z.pos p + Z.pos p + 1) by lia.
    rewrite !Z.pow_add_r, Z.pow_1_r by lia. ring.
  - apply IH in H. apply IH in H.
    replace (2 ^ Z.pos p~0 * d) with (2 ^ Z.pos p * (2 ^ Z.pos p * d)); [done|].
    rewrite (Pos2Z.inj_xO p). replace (2 * Z.pos p) with (Z.pos p + Z.pos p) by lia.
    rewrite !Z.pow_add_r by lia. ring.
  - apply located_shr_1 in H. by rewrite Z.pow_1_r.
Qed.

Lemma located_shr (n d : Z) (mrs : shr_record) (e sh : Z) :
  located n d mrs ->
  (shr mrs e sh).2 = Z.max e (e + sh)
  /\ located n (2 ^ ((shr mrs e sh).2 - e) * d) (shr mrs e sh).1.
Proof.
  intros H. destruct sh as [|p|p]; simpl.
  - split; [lia|]. rewrite Z.sub_diag. simpl. by rewrite Z.mul_1_l.
  - split; [lia|]. replace (e + Z.pos p - e) with (Z.pos p) by lia.
    by apply located_iter_shr_1.
  - split; [lia|]. rewrite Z.sub_diag. simpl. by rewrite Z.mul_1_l.
Qed.

Lemma fexp_eq (x : Z) : fexp prec emax x = Z.max (x - 53) (-1074).
Proof. reflexivity. Qed.

Lemma located_shr_fexp (n d m e : Z) (l : location) :
  located n d (shr_record_of_loc m l) ->
  (shr_fexp prec emax m e l).2 = Z.max e (fexp prec emax (Zdigits2 m + e))
  /\ located n (2 ^ ((shr_fexp prec emax m e l).2 - e) * d) (shr_fexp prec emax m e l).1.
Proof.
  intros H. unfold shr_fexp.
  destruct (located_shr n d _ e (fexp prec emax (Zdigits2 m + e) - e) H) as [He Hl].
  split; [rewrite He; lia|done].
Qed.

Lemma located_exact (m : Z) : 0 <= m -> located m 1 (shr_record_of_loc m loc_Exact).
Proof. intros Hm. unfold located. simpl. repeat split; try lia; try discriminate. Qed.

Lemma round_nearest_even_located (n d : Z) (mrs : shr_record) :
  located n d mrs ->
  let m'' := round_nearest_even (shr_m mrs) (loc_of_shr_record mrs) in
  shr_m mrs <= m'' <= shr_m mrs + 1
  /\ (m'' = shr_m mrs + 1 -> shr_m mrs * d < n)
  /\ 2 * Z.abs (m'' * d - n) <= d.
Proof.
  destruct mrs as [m r s]. unfold located. simpl.
  intros (Hd & Hm & [Hlo Hhi] & Hr & Hs).
  destruct r, s; simpl.
  - assert (d <= 2 * (n - m * d)) by (by apply Hr).
    assert (2 * (n - m * d) <> d) by (by apply Hs). lia.
  - assert (d <= 2 * (n - m * d)) as H1 by (by apply Hr).
    assert (~ (n <> m * d /\ 2 * (n - m * d) <> d)) as H2 by (rewrite <- Hs; discriminate).
    destruct (Z.even m); lia.
  - assert (~ d <= 2 * (n - m * d)) as H1 by (rewrite <- Hr; discriminate). lia.
  - assert (~ d <= 2 * (n - m * d)) as H1 by (rewrite <- Hr; discriminate).
    assert (~ (n <> m * d /\ 2 * (n - m * d) <> d)) as H2 by (rewrite <- Hs; discriminate).
    lia.
Qed.

Lemma Zdigits2_mono (a b : Z) : 0 <= a <= b -> Zdigits2 a <= Zdigits2 b.
Proof.
  intros [Ha Hab]. destruct (Z.eq_dec a 0) as [->|Hne]; [apply Zdigits2_nonneg|].
  destruct (Zdigits2_spec a) as [Hlo _]; [lia|].
  destruct (Zdigits2_spec b) as [_ Hhi]; [lia|].
  destruct (Z.le_gt_cases (Zdigits2 a) (Zdigits2 b)) as [|Hgt]; [done|].
  assert (2 ^ Zdigits2 b <= 2 ^ (Zdigits2 a - 1)).
  { apply Z.pow_le_mono_r; [lia|]. pose proof (Zdigits2_nonneg b). lia. }
  lia.
Qed.

Lemma Zdigits2_shift (a b sh : Z) :
  0 < a -> 0 <= sh -> a * 2 ^ sh <= b -> Zdigits2 a + sh <= Zdigits2 b.
Proof.
  intros Ha Hsh Hab.
  assert (0 < 2 ^ sh) as Hp by (apply Z.pow_pos_nonneg; lia).
  destruct (Zdigits2_spec a Ha) as [Hlo _].
  destruct (Zdigits2_spec b) as [_ Hhi]; [nia|].
  assert (1 <= Zdigits2 a).
  { destruct a; simpl; lia. }
  assert (2 ^ (Zdigits2 a - 1 + sh) <= b) as Hle.
  { rewrite Z.pow_add_r by lia. nia. }
  destruct (Z.le_gt_cases (Zdigits2 a + sh) (Zdigits2 b)) as [|Hgt]; [done|].
  assert (2 ^ Zdigits2 b <= 2 ^ (Zdigits2 a - 1 + sh)).
  { apply Z.pow_le_mono_r; [lia|]. pose proof (Zdigits2_nonneg b). lia. }
  lia.
Qed.

Lemma Zdigits2_succ (m : Z) :
  0 <= m ->
  Zdigits2 (m + 1) <= Zdigits2 m + 1
  /\ (Zdigits2 m < Zdigits2 (m + 1) -> m + 1 = 2 ^ Zdigits2 m).
Proof.
  intros Hm. pose proof (Zdigits2_nonneg m) as Hd.
  assert (m < 2 ^ Zdigits2 m) as Hhi.
  { destruct (Z.eq_dec m 0) as [->|]; [simpl; lia|]. apply Zdigits2_spec. lia. }
  split.
  - apply Zdigits2_le; [lia|lia|]. rewrite Z.pow_add_r, Z.pow_1_r by lia. lia.
  - intros Hlt. destruct (Zdigits2_spec (m + 1)) as [Hlo _]; [lia|].
    assert (2 ^ Zdigits2 m <= 2 ^ (Zdigits2 (m + 1) - 1)) by (apply Z.pow_le_mono_r; lia).
    lia.
Qed.

Lemma shr_m_of_loc (m : Z) (l : location) : shr_m (shr_record_of_loc m l) = m.
Proof. by destruct l as [|[]]. Qed.

(** What [binary_round_aux] makes of the number [n / d * 2 ^ e] given by its
    integer part [m] and the location [l] of the rest: [m'] is its integer
    part on the grid of exponent [e'], [m''] the rounded mantissa. *)
Lemma binary_round_aux_spec (s : bool) (m e : Z) (l : location) (n d : Z) :
  located n d (shr_record_of_loc m l) ->
  exists e' m' m'' : Z,
    e' = Z.max e (fexp prec emax (Zdigits2 m + e))
    /\ 0 <= m'
    /\ m' * (2 ^ (e' - e) * d) <= n < (m' + 1) * (2 ^ (e' - e) * d)
    /\ m' <= m'' <= m' + 1
    /\ (m'' = m' + 1 -> m' * (2 ^ (e' - e) * d) < n)
    /\ 2 * Z.abs (m'' * (2 ^ (e' - e) * d) - n) <= 2 ^ (e' - e) * d
    /\ ((m'' = 0 /\ binary_round_aux prec emax s m e l = S754_zero s)
        \/ exists (m3 : positive) (e3 : Z),
             e' <= e3 <= e' + 1 /\ Z.pos m3 * 2 ^ (e3 - e') = m''
             /\ binary_round_aux prec emax s m e l =
                if e3 <=? emax - prec then S754_finite s m3 e3 else S754_infinity s).
Proof.
  intros Hloc. unfold binary_round_aux.
  destruct (located_shr_fexp n d m e l Hloc) as [He' Hloc'].
  destruct (shr_fexp prec emax m e l) as [mrs' e'] eqn:E1. simpl in He', Hloc'.
  set (D := 2 ^ (e' - e) * d) in *.
  pose proof (round_nearest_even_located n D mrs' Hloc') as (Hm'' & Hup & Hnear).
  set (m'' := round_nearest_even (shr_m mrs') (loc_of_shr_record mrs')) in *.
  destruct Hloc' as (HD & Hm' & Hfl & _).
  set (m' := shr_m mrs') in *.
  destruct Hloc as (Hd & Hm & Hfl0 & _). rewrite shr_m_of_loc in Hm, Hfl0.
  assert (0 <= e' - e) as Hsh by lia.
  assert (0 < 2 ^ (e' - e)) as Hpow by (apply Z.pow_pos_nonneg; lia).
  assert (m' * 2 ^ (e' - e) <= m) as Hmm.
  { unfold D in Hfl. nia. }
  assert (-1074 <= e') as Hemin by (rewrite He', fexp_eq; lia).
  assert (fexp prec emax (Zdigits2 m' + e') <= e') as Hcan.
  { destruct (Z.eq_dec m' 0) as [->|Hne]; [simpl; rewrite fexp_eq; lia|].
    pose proof (Zdigits2_shift m' m (e' - e) ltac:(lia) Hsh Hmm).
    rewrite He' at 2. rewrite !fexp_eq. lia. }
  destruct (Zdigits2_succ m' Hm') as [Hsucc Hpow2].
  assert (Zdigits2 m'' <= Zdigits2 m' + 1) as Hdg.
  { destruct (Z.eq_dec m'' m') as [->|]; [lia|]. by replace m'' with (m' + 1) by lia. }
  assert (0 <= m'') as Hm''0 by lia.
  destruct (located_shr_fexp m'' 1 m'' e' loc_Exact (located_exact m'' Hm''0)) as [He'' Hloc''].
  destruct (shr_fexp prec emax m'' e' loc_Exact) as [mrs'' e''] eqn:E2. simpl in He'', Hloc''.
  destruct Hloc'' as (_ & Hm3 & Hfl3 & _).
  set (m3 := shr_m mrs'') in *.
  assert (e' <= e'' <= e' + 1) as Hee.
  { rewrite He'', fexp_eq. rewrite fexp_eq in Hcan. lia. }
  assert (m3 * 2 ^ (e'' - e') = m'') as Hexact.
  { destruct (Z.eq_dec e'' e') as [->|Hne].
    - rewrite Z.sub_diag in *. simpl in *. lia.
    - replace (e'' - e') with 1 in * by lia. rewrite Z.pow_1_r in *.
      assert (Zdigits2 m' < Zdigits2 m'') as Hlt.
      { destruct (Z.le_gt_cases (Zdigits2 m'') (Zdigits2 m')) as [Hle|]; [|lia].
        rewrite fexp_eq in He'', Hcan. lia. }
      assert (m'' = m' + 1) as Hup1.
      { destruct (Z.eq_dec m'' m') as [Heq|]; [rewrite Heq in Hlt; lia|lia]. }
      rewrite Hup1 in Hlt. specialize (Hpow2 Hlt).
      assert (1 <= Zdigits2 m') as Hge1.
      { destruct (Z.eq_dec m' 0) as [H0|]; [|destruct m'; simpl; lia].
        rewrite Hup1, H0 in He''. simpl in He''. rewrite fexp_eq in He''. lia. }
      replace (Zdigits2 m') with (Z.succ (Zdigits2 m' - 1)) in Hpow2 by lia.
      rewrite Z.pow_succ_r in Hpow2 by lia. lia. }
  exists e', m', m''. split_and!; try done; try lia.
  destruct m3 as [|p|p] eqn:Em3; [left|right|lia].
  - split; [lia|done].
  - exists p, e''. split_and!; try lia. done.
Qed.

Lemma fexp_mono (x y : Z) : x <= y -> fexp prec emax x <= fexp prec emax y.
Proof. rewrite !fexp_eq. lia. Qed.

Lemma Zdigits2_scaled (a sh : Z) : 0 <= a -> 0 <= sh -> Zdigits2 (a * 2 ^ sh) <= Zdigits2 a + sh.
Proof.
  intros Ha Hsh. pose proof (Zdigits2_nonneg a).
  assert (0 < 2 ^ sh) by (apply Z.pow_pos_nonneg; lia).
  apply Zdigits2_le; [nia|lia|]. rewrite Z.pow_add_r by lia.
  assert (a < 2 ^ Zdigits2 a).
  { destruct (Z.eq_dec a 0) as [->|]; [simpl; lia|]. apply Zdigits2_spec. lia. }
  nia.
Qed.

Lemma Zdigits2_scaled_le (x y p q : Z) :
  0 < x -> 0 <= y -> 0 <= p -> 0 <= q -> x * 2 ^ p <= y * 2 ^ q ->
  Zdigits2 x + p <= Zdigits2 y + q.
Proof.
  intros Hx Hy Hp Hq Hle.
  pose proof (Zdigits2_shift x (y * 2 ^ q) p Hx Hp Hle).
  pose proof (Zdigits2_scaled y q Hy Hq). lia.
Qed.

(** The number rounded lies between two numbers [a * 2 ^ k] and [b * 2 ^ k]
    that binary64 holds with the exponent [k]: so does the result. *)
Lemma binary_round_aux_bounds (s : bool) (m e : Z) (l : location) (n d a b k : Z) :
  located n d (shr_record_of_loc m l) ->
  0 <= a -> 0 <= b -> e <= k ->
  fexp prec emax (Zdigits2 b + k) <= k -> k < emax - prec ->
  a * 2 ^ (k - e) * d <= n <= b * 2 ^ (k - e) * d ->
  match binary_round_aux prec emax s m e l with
  | S754_zero s' => s' = s /\ a = 0
  | S754_finite s' m3 e3 =>
      s' = s /\ e <= e3 <= k + 1
      /\ a * 2 ^ (k - e) <= Z.pos m3 * 2 ^ (e3 - e) <= b * 2 ^ (k - e)
  | _ => False
  end.
Proof.
  intros Hloc Ha Hb Hek Hfb Hk [Hlo Hhi].
  destruct (binary_round_aux_spec s m e l n d Hloc)
    as (e' & m' & m'' & He' & Hm' & Hfl & Hm'' & Hup & _ & Hres).
  destruct Hloc as (Hd & Hm & Hfl0 & _). rewrite shr_m_of_loc in Hm, Hfl0.
  assert (0 < 2 ^ (k - e)) as Hpk by (apply Z.pow_pos_nonneg; lia).
  assert (m <= b * 2 ^ (k - e)) as Hmb by nia.
  assert (e' <= k) as He'k.
  { rewrite He'. apply Z.max_lub; [done|]. etrans; [|exact Hfb]. apply fexp_mono.
    destruct (Z.eq_dec m 0) as [->|Hne].
    - simpl. pose proof (Zdigits2_nonneg b). lia.
    - pose proof (Zdigits2_scaled_le m b 0 (k - e) ltac:(lia) Hb ltac:(lia) ltac:(lia)) as H.
      rewrite Z.pow_0_r, Z.mul_1_r in H. specialize (H Hmb). lia. }
  assert (e <= e') as Hee' by lia.
  assert (0 < 2 ^ (e' - e)) as Hp1 by (apply Z.pow_pos_nonneg; lia).
  assert (0 < 2 ^ (k - e')) as Hp2 by (apply Z.pow_pos_nonneg; lia).
  assert (2 ^ (k - e) = 2 ^ (k - e') * 2 ^ (e' - e)) as Hsplit.
  { rewrite <- Z.pow_add_r by lia. f_equal. lia. }
  set (D := 2 ^ (e' - e) * d) in *.
  assert (0 < D) as HD by (unfold D; nia).
  assert (a * 2 ^ (k - e') * D <= n <= b * 2 ^ (k - e') * D) as [Hlo' Hhi'].
  { unfold D. rewrite Hsplit in Hlo, Hhi. split; nia. }
  assert (a * 2 ^ (k - e') <= m'' <= b * 2 ^ (k - e')) as [Hlo'' Hhi''].
  { split.
    - assert (a * 2 ^ (k - e') < m' + 1) by nia. lia.
    - destruct (Z.eq_dec m'' (m' + 1)) as [Heq|Hne].
      + specialize (Hup Heq). assert (m' < b * 2 ^ (k - e')) by nia. lia.
      + assert (m'' = m') as -> by lia. nia. }
  destruct Hres as [[H0 ->]|(m3 & e3 & He3 & Hm3 & ->)].
  - split; [done|]. nia.
  - assert ((e3 <=? emax - prec) = true) as -> by (apply Z.leb_le; lia).
    split; [done|]. split; [lia|].
    assert (2 ^ (e3 - e) = 2 ^ (e3 - e') * 2 ^ (e' - e)) as ->.
    { rewrite <- Z.pow_add_r by lia. f_equal. lia. }
    rewrite Hsplit. rewrite <- Hm3 in Hlo'', Hhi''. split; nia.
Qed.

(** ** Powers of two as rationals *)

Lemma Qpow2_pos (e : Z) : (0 < 2 ^ e)%Q.
Proof. by apply Qpower_0_lt. Qed.

Lemma Qpow2_plus (a b : Z) : (2 ^ (a + b) == 2 ^ a * 2 ^ b)%Q.
Proof. by apply Qpower_plus. Qed.

Lemma Qpow2_Z (e : Z) : 0 <= e -> (2 ^ e == inject_Z (2 ^ e))%Q.
Proof. intros He. symmetry. exact (Zpower_Qpower 2 e He). Qed.

Lemma Qscaled (x e c : Z) :
  c <= e -> (inject_Z x * 2 ^ e == inject_Z (x * 2 ^ (e - c)) * 2 ^ c)%Q.
Proof.
  intros Hc. replace e with ((e - c) + c) at 1 by lia.
  rewrite Qpow2_plus, Qpow2_Z by lia. rewrite inject_Z_mult. ring.
Qed.

Lemma Qscaled_le (x y ex ey c : Z) :
  c <= ex -> c <= ey ->
  (inject_Z x * 2 ^ ex <= inject_Z y * 2 ^ ey)%Q <-> x * 2 ^ (ex - c) <= y * 2 ^ (ey - c).
Proof.
  intros Hx Hy. rewrite (Qscaled x ex c Hx), (Qscaled y ey c Hy).
  rewrite Qmult_le_r by apply Qpow2_pos. by rewrite <- Zle_Qle.
Qed.

Lemma Qscaled_mult (x y ex ey : Z) :
  (inject_Z x * 2 ^ ex * (inject_Z y * 2 ^ ey) == inject_Z (x * y) * 2 ^ (ex + ey))%Q.
Proof. rewrite Qpow2_plus, inject_Z_mult. ring. Qed.

(** ** Division and multiplication of binary64 numbers *)

Lemma SFdiv_core_binary_located (m1 m2 : positive) (e1 e2 : Z) :
  exists (q e' : Z) (l : location),
    SFdiv_core_binary prec emax (Z.pos m1) e1 (Z.pos m2) e2 = (q, e', l)
    /\ e' = Z.min (fexp prec emax (Zdigits2 (Z.pos m1) + e1 - (Zdigits2 (Z.pos m2) + e2)))
                  (e1 - e2)
    /\ located (Z.pos m1 * 2 ^ (e1 - e2 - e')) (Z.pos m2) (shr_record_of_loc q l).
Proof.
  unfold SFdiv_core_binary.
  set (e' := Z.min _ (e1 - e2)).
  set (sh := e1 - e2 - e').
  assert (0 <= sh) as Hsh by (unfold sh, e'; lia).
  set (m' := match sh with Z.pos _ => Z.shiftl (Z.pos m1) sh | 0 => Z.pos m1 | Z.neg _ => 0 end).
  assert (m' = Z.pos m1 * 2 ^ sh) as Hm'.
  { unfold m'. destruct sh as [|p|p] eqn:E; [simpl; lia| |lia].
    by rewrite Z.shiftl_mul_pow2 by lia. }
  pose proof (Z_div_mod m' (Z.pos m2) ltac:(lia)) as Hdiv.
  destruct (Z.div_eucl m' (Z.pos m2)) as [q r] eqn:E.
  destruct Hdiv as [Heq Hr].
  exists q, e', (new_location (Z.pos m2) r). split; [done|]. split; [done|].
  fold sh. rewrite <- Hm'.
  assert (0 <= m') as Hm'0.
  { rewrite Hm'. assert (0 < 2 ^ sh) by (apply Z.pow_pos_nonneg; lia). nia. }
  assert (0 <= q) as Hq by nia.
  unfold located. rewrite shr_m_of_loc.
  split; [lia|]. split; [done|]. split; [nia|].
  replace (m' - q * Z.pos m2) with r by lia.
  unfold new_location, new_location_even, new_location_odd.
  destruct (Z.even (Z.pos m2)) eqn:Ev.
  - destruct (Z.eqb_spec r 0) as [->|Hr0]; simpl; [split; split; (lia || discriminate)|].
    destruct (Z.compare_spec (2 * r) (Z.pos m2)); simpl;
      split; split; try lia; try discriminate; try done.
  - destruct (Z.eqb_spec r 0) as [->|Hr0]; simpl; [split; split; (lia || discriminate)|].
    assert (Z.pos m2 <> 2 * r) as Hodd.
    { intros Heq2. rewrite Heq2, Z.even_mul in Ev. discriminate. }
    destruct (Z.compare_spec (2 * r + 1) (Z.pos m2)); simpl;
      split; split; try lia; try discriminate; try done.
Qed.

Lemma Zdigits2_mul (x y : Z) : 0 <= x -> 0 <= y -> Zdigits2 (x * y) <= Zdigits2 x + Zdigits2 y.
Proof.
  intros Hx Hy. pose proof (Zdigits2_nonneg x). pose proof (Zdigits2_nonneg y).
  assert (x < 2 ^ Zdigits2 x).
  { destruct (Z.eq_dec x 0) as [->|]; [simpl; lia|]. apply Zdigits2_spec. lia. }
  assert (y < 2 ^ Zdigits2 y).
  { destruct (Z.eq_dec y 0) as [->|]; [simpl; lia|]. apply Zdigits2_spec. lia. }
  apply Zdigits2_le; [nia|lia|]. rewrite Z.pow_add_r by lia. nia.
Qed.

(** The quotient of two finite numbers lies between [a * 2 ^ k] and
    [b * 2 ^ k] when the exact quotient does and binary64 holds [b * 2 ^ k]
    with the exponent [k]. *)
Lemma SF64div_bounds (s1 s2 : bool) (m1 m2 : positive) (e1 e2 a b k : Z) :
  0 <= a -> 0 <= b ->
  fexp prec emax (Zdigits2 b + k) <= k -> k < emax - prec ->
  (inject_Z (a * Z.pos m2) * 2 ^ (k + e2) <= inject_Z (Z.pos m1) * 2 ^ e1)%Q ->
  (inject_Z (Z.pos m1) * 2 ^ e1 <= inject_Z (b * Z.pos m2) * 2 ^ (k + e2))%Q ->
  match SF64div (S754_finite s1 m1 e1) (S754_finite s2 m2 e2) with
  | S754_zero s => s = xorb s1 s2 /\ a = 0
  | S754_finite s m e =>
      s = xorb s1 s2 /\ e <= k + 1
      /\ (inject_Z a * 2 ^ k <= inject_Z (Z.pos m) * 2 ^ e <= inject_Z b * 2 ^ k)%Q
  | _ => False
  end.
Proof.
  intros Ha Hb Hfb Hk Hlo Hhi.
  destruct (SFdiv_core_binary_located m1 m2 e1 e2) as (q & e' & l & Hcore & He' & Hloc).
  unfold SF64div, SFdiv. rewrite Hcore.
  assert (e' <= k) as He'k.
  { apply (Qscaled_le _ _ _ _ (Z.min e1 (k + e2))) in Hhi; [|lia..].
    pose proof (Zdigits2_scaled_le (Z.pos m1) (b * Z.pos m2)
                  (e1 - Z.min e1 (k + e2)) (k + e2 - Z.min e1 (k + e2))
                  ltac:(lia) ltac:(nia) ltac:(lia) ltac:(lia) Hhi) as H1.
    pose proof (Zdigits2_mul b (Z.pos m2) Hb ltac:(lia)) as H2.
    etrans; [|exact Hfb]. rewrite He'. etrans; [apply Z.le_min_l|].
    apply fexp_mono. lia. }
  assert (e' <= e1 - e2) as He'e by lia.
  apply (Qscaled_le _ _ _ _ (e' + e2)) in Hlo; [|lia..].
  apply (Qscaled_le _ _ _ _ (e' + e2)) in Hhi; [|lia..].
  replace (k + e2 - (e' + e2)) with (k - e') in Hlo, Hhi by lia.
  replace (e1 - (e' + e2)) with (e1 - e2 - e') in Hlo, Hhi by lia.
  pose proof (binary_round_aux_bounds (xorb s1 s2) q e' l _ _ a b k Hloc Ha Hb He'k Hfb Hk
                ltac:(lia)) as Hres.
  destruct (binary_round_aux prec emax (xorb s1 s2) q e' l) as [s|s| |s m e]; try done.
  destruct Hres as (-> & He & Hlo' & Hhi'). split; [done|]. split; [lia|].
  split; apply (Qscaled_le _ _ _ _ e'); lia.
Qed.

(** The same for the product. *)
Lemma SF64mul_bounds (s1 s2 : bool) (m1 m2 : positive) (e1 e2 a b k : Z) :
  0 <= a -> 0 <= b -> e1 + e2 <= k ->
  fexp prec emax (Zdigits2 b + k) <= k -> k < emax - prec ->
  (inject_Z a * 2 ^ k <= inject_Z (Z.pos m1 * Z.pos m2) * 2 ^ (e1 + e2))%Q ->
  (inject_Z (Z.pos m1 * Z.pos m2) * 2 ^ (e1 + e2) <= inject_Z b * 2 ^ k)%Q ->
  match SF64mul (S754_finite s1 m1 e1) (S754_finite s2 m2 e2) with
  | S754_zero s => s = xorb s1 s2 /\ a = 0
  | S754_finite s m e =>
      s = xorb s1 s2 /\ e <= k + 1
      /\ (inject_Z a * 2 ^ k <= inject_Z (Z.pos m) * 2 ^ e <= inject_Z b * 2 ^ k)%Q
  | _ => False
  end.
Proof.
  intros Ha Hb He Hfb Hk Hlo Hhi.
  unfold SF64mul, SFmul.
  apply (Qscaled_le _ _ _ _ (e1 + e2)) in Hlo; [|lia..].
  apply (Qscaled_le _ _ _ _ (e1 + e2)) in Hhi; [|lia..].
  rewrite Z.sub_diag, Z.pow_0_r, Z.mul_1_r in Hlo, Hhi.
  pose proof (binary_round_aux_bounds (xorb s1 s2) (Z.pos (m1 * m2)) (e1 + e2) loc_Exact
                (Z.pos (m1 * m2)) 1 a b k (located_exact (Z.pos (m1 * m2)) ltac:(lia)) Ha Hb He Hfb Hk
                ltac:(rewrite Pos2Z.inj_mul; lia)) as Hres.
  destruct (binary_round_aux prec emax (xorb s1 s2) (Z.pos (m1 * m2)) (e1 + e2) loc_Exact)
    as [s|s| |s m e]; try done.
  destruct Hres as (-> & He' & Hlo' & Hhi'). split; [done|]. split; [lia|].
  split; apply (Qscaled_le _ _ _ _ (e1 + e2)); lia.
Qed.

(** ** Conversion of an integer *)

Lemma shl_align_spec (p : positive) (e e' : Z) :
  (shl_align p e e').2 = Z.min e e'
  /\ Z.pos (shl_align p e e').1 = Z.pos p * 2 ^ (e - (shl_align p e e').2).
Proof.
  unfold shl_align. destruct (e' - e) as [|d|d] eqn:E; simpl.
  - split; [lia|]. rewrite Z.sub_diag. simpl. lia.
  - split; [lia|]. rewrite Z.sub_diag. simpl. lia.
  - split; [lia|]. change (Pos.iter xO p d) with (shift_pos d p).
    rewrite shift_pos_correct, Z.pow_pos_fold. replace (e - e') with (Z.pos d) by lia. lia.
Qed.

(** A number below [2 ^ 53] is converted exactly. *)
Lemma double_of_sz_exact (n : N) :
  (0 < n < 2 ^ 53)%N ->
  exists (m : positive) (e : Z),
    double_of_sz n = S754_finite false m e /\ e <= 1
    /\ (inject_Z (Z.pos m) * 2 ^ e == inject_Z (Z.of_N n))%Q.
Proof.
  intros [Hpos Hlt]. destruct n as [|p]; [lia|].
  unfold double_of_sz, binary_normalize, binary_round. simpl Z.of_N.
  destruct (shl_align_spec p 0 (fexp prec emax (Z.pos (digits2_pos p) + 0))) as [Hez Hmz].
  destruct (shl_align p 0 (fexp prec emax (Z.pos (digits2_pos p) + 0))) as [mz ez].
  simpl in Hez, Hmz.
  assert (Zdigits2 (Z.pos p) <= 53) as Hdg.
  { apply Zdigits2_le; [lia|lia|]. change (2 ^ 53) with (Z.of_N (2 ^ 53)). lia. }
  assert (ez <= 0) as Hez0 by lia.
  pose proof (binary_round_aux_bounds false (Z.pos mz) ez loc_Exact (Z.pos mz) 1
                (Z.pos p) (Z.pos p) 0 (located_exact (Z.pos mz) ltac:(lia)) ltac:(lia) ltac:(lia)
                Hez0 ltac:(rewrite fexp_eq; lia) ltac:(reflexivity)
                ltac:(rewrite Hmz; lia)) as Hres.
  destruct (binary_round_aux prec emax false (Z.pos mz) ez loc_Exact) as [s|s| |s m e];
    try done; [lia|].
  destruct Hres as (-> & He & Hlo & Hhi). exists m, e. split; [done|]. split; [lia|].
  assert (inject_Z (Z.pos p) == inject_Z (Z.pos p) * 2 ^ 0)%Q as Heq by (simpl; ring).
  rewrite Heq. apply Qle_antisym; apply (Qscaled_le _ _ _ _ ez); lia.
Qed.

End Binary64.

(** ** Mangling *)

Lemma swap_pop_Permutation {A} (indices : list A) (i : nat) (chosen back : A) :
  indices !! i = Some chosen -> last indices = Some back ->
  indices ≡ₚ chosen :: take (pred (length indices)) (<[i := back]> indices).
Proof.
  intros Hi [l ->]%last_Some. rewrite length_app. simpl.
  replace (pred (length l + 1)) with (length l) by lia.
  destruct (decide (i < length l)%nat) as [Hlt|Hge].
  - rewrite lookup_app_l in Hi by done.
    rewrite insert_app_l, take_app_length' by (by rewrite ?length_insert).
    rewrite insert_take_drop by done.
    rewrite <- (take_drop_middle l i chosen Hi) at 1.
    rewrite (Permutation_app_comm _ [back]). simpl.
    rewrite <- !Permutation_middle. apply perm_swap.
  - apply lookup_lt_Some in Hi as Hlen. rewrite length_app in Hlen. simpl in Hlen.
    assert (i = length l) as -> by lia.
    rewrite list_lookup_middle in Hi by done. injection Hi as <-.
    rewrite take_insert_ge, take_app_length by lia.
    by rewrite Permutation_app_comm.
Qed.

(** One iteration of the loop on a vector that is not empty. *)
Lemma mangle_draw (indices : list N) (g : Engine) :
  indices <> [] ->
  exists idx chosen back,
    uniform_int 0 (sz_sub (length_sz indices) 1) g = Ret (idx, advance g)
    /\ indices !! N.to_nat idx = Some chosen /\ last indices = Some back.
Proof.
  intros Hne. assert (0 < length_sz indices) as Hpos.
  { unfold length_sz. destruct indices; [done|simpl; lia]. }
  assert (sz_sub (length_sz indices) 1 = length_sz indices - 1) as ->.
  { unfold sz_sub. destruct (N.leb_spec 1 (length_sz indices)); lia. }
  rewrite uniform_int_ok by lia.
  replace (length_sz indices - 1 - 0 + 1) with (length_sz indices) by lia.
  assert (peek g mod length_sz indices < length_sz indices) as Hidx
    by (apply N.mod_upper_bound; lia).
  rewrite N.add_0_l. set (idx := peek g mod length_sz indices) in *.
  destruct (lookup_lt_is_Some_2 indices (N.to_nat idx)) as [chosen Hc].
  { unfold length_sz in Hidx. lia. }
  destruct (proj2 (last_is_Some indices) Hne) as [back Hb].
  by exists idx, chosen, back.
Qed.

(** A call that returns has made [n] replacements, those of the log. *)
Lemma mangle_loop_writes (n : nat) :
  forall g piece indices piece' g',
    mangle_loop n g piece indices = Ret (piece', g') ->
    piece' = foldl write piece (mangle_writes n g indices)
    /\ length (mangle_writes n g indices) = n.
Proof.
  induction n as [|n IH]; intros g piece indices piece' g' H;
    cbn [mangle_loop mangle_writes] in *.
  - by injection H as <- <-.
  - destruct (uniform_int 0 (sz_sub (length_sz indices) 1) g) as [[idx g1]| | |];
      cbn [mbind result_bind] in H; try discriminate.
    destruct (indices !! N.to_nat idx) as [chosen|]; [|discriminate].
    destruct (last indices) as [back|]; [|discriminate].
    cbv zeta in *. destruct (chosen =? 0).
    + destruct (sample_ascii_lower g1) as [[c g2]| | |];
        cbn [mbind result_bind] in H; try discriminate.
      apply IH in H as [-> Hlen]. split; [done|]. simpl. by rewrite Hlen.
    + destruct (sample_ascii g1) as [[c g2]| | |];
        cbn [mbind result_bind] in H; try discriminate.
      apply IH in H as [-> Hlen]. split; [done|]. simpl. by rewrite Hlen.
Qed.

(** With enough indices left the loop returns. *)
Lemma mangle_loop_total (n : nat) :
  forall g piece indices,
    (n <= length indices)%nat ->
    exists piece' g', mangle_loop n g piece indices = Ret (piece', g').
Proof.
  induction n as [|n IH]; intros g piece indices Hn; cbn [mangle_loop].
  - by eexists _, _.
  - destruct (mangle_draw indices g) as (idx & chosen & back & Hu & Hc & Hb).
    { destruct indices; [simpl in Hn; lia|done]. }
    rewrite Hu. cbn [mbind result_bind]. rewrite Hc, Hb. cbv zeta.
    assert (n <= length (take (pred (length indices)) (<[N.to_nat idx:=back]> indices)))%nat.
    { rewrite length_take, length_insert. lia. }
    destruct (chosen =? 0).
    + rewrite sample_ascii_lower_eq. cbn [mbind result_bind]. by apply IH.
    + rewrite sample_ascii_eq. cbn [mbind result_bind]. by apply IH.
Qed.

(** The positions written are indices still in the vector, each once. *)
Lemma mangle_writes_positions (n : nat) :
  forall g indices,
    NoDup indices ->
    NoDup (mangle_writes n g indices).*1
    /\ (forall p, p ∈ (mangle_writes n g indices).*1 -> p ∈ indices).
Proof.
  induction n as [|n IH]; intros g indices Hnd; cbn [mangle_writes].
  - split; [constructor|]. intros p Hp. by apply elem_of_nil in Hp.
  - assert (NoDup (@nil N) /\ forall p, p ∈ @nil N -> p ∈ indices) as Hnil.
    { split; [constructor|]. intros p Hp. by apply elem_of_nil in Hp. }
    destruct (uniform_int 0 (sz_sub (length_sz indices) 1) g) as [[idx g1]| | |]; try done.
    destruct (indices !! N.to_nat idx) as [chosen|] eqn:Hc; [|done].
    destruct (last indices) as [back|] eqn:Hb; [|done].
    pose proof (swap_pop_Permutation indices _ chosen back Hc Hb) as Hperm.
    set (indices' := take (pred (length indices)) (<[N.to_nat idx:=back]> indices)) in *.
    assert (NoDup (chosen :: indices')) as Hnd' by (by rewrite <- Hperm).
    apply NoDup_cons in Hnd' as [Hfresh Hnd'].
    assert (forall g2 c,
      NoDup ((chosen, c) :: mangle_writes n g2 indices').*1
      /\ (forall p, p ∈ ((chosen, c) :: mangle_writes n g2 indices').*1 -> p ∈ indices)) as Hstep.
    { intros g2 c. destruct (IH g2 indices' Hnd') as [IH1 IH2]. simpl. split.
      - apply NoDup_cons. split; [|done]. intros Hin. by apply Hfresh, IH2.
      - intros p [->|Hp]%elem_of_cons; rewrite Hperm.
        + by left.
        + right. by apply IH2. }
    destruct (chosen =? 0).
    + destruct (sample_ascii_lower g1) as [[c g2]| | |]; try done.
    + destruct (sample_ascii g1) as [[c g2]| | |]; try done.
Qed.

(** Every replacement stores a character of the kind its position asks for. *)
Lemma mangle_writes_chars (n : nat) :
  forall g indices, Forall mangled_char (mangle_writes n g indices).
Proof.
  induction n as [|n IH]; intros g indices; cbn [mangle_writes]; [constructor|].
  destruct (uniform_int 0 (sz_sub (length_sz indices) 1) g) as [[idx g1]| | |];
    try constructor.
  destruct (indices !! N.to_nat idx) as [chosen|]; [|constructor].
  destruct (last indices) as [back|]; [|constructor].
  destruct (N.eqb_spec chosen 0) as [Hz|Hnz].
  - destruct (sample_ascii_lower g1) as [[c g2]| | |] eqn:E; try constructor; [|apply IH].
    apply sample_ascii_lower_lower in E as [E _].
    unfold mangled_char. simpl. by rewrite Hz.
  - destruct (sample_ascii g1) as [[c g2]| | |] eqn:E; try constructor; [|apply IH].
    apply sample_ascii_alnum in E as [E _].
    unfold mangled_char. simpl. destruct (N.eqb_spec chosen 0); [done|]. by exists c.
Qed.

Lemma Qfloor_add_half (n : Z) : Qfloor (inject_Z n + (1 # 2)) = n.
Proof.
  unfold Qfloor, Qplus, inject_Z. simpl.
  rewrite Z.mul_1_r. symmetry. apply (Z.div_unique_pos _ _ _ 1); lia.
Qed.

(** A factor of at least 1 never asks for more replacements than the word
    has characters. *)
Lemma mangling_magnitude_le (len : N) (mangling_factor : Q) :
  (1 <= mangling_factor)%Q ->
  (0 <= mangling_magnitude len mangling_factor <= Z.of_N len)%Z.
Proof.
  intros Hmf. unfold mangling_magnitude, round_half_away.
  set (q := (inject_Z (Z.of_N len) / mangling_factor)%Q).
  assert (0 < mangling_factor)%Q as Hpos by (eapply Qlt_le_trans; [|exact Hmf]; done).
  assert (0 <= inject_Z (Z.of_N len))%Q as Hlen.
  { change 0%Q with (inject_Z 0). rewrite <- Zle_Qle. lia. }
  assert (0 <= q)%Q as Hq0.
  { unfold q. apply Qle_shift_div_l; [done|]. by rewrite Qmult_0_l. }
  assert (q <= inject_Z (Z.of_N len))%Q as Hq1.
  { unfold q. apply Qle_shift_div_r; [done|].
    apply Qle_trans with (inject_Z (Z.of_N len) * 1)%Q.
    - rewrite Qmult_1_r. apply Qle_refl.
    - apply Qmult_le_compat_nonneg; (split; [done|]); [apply Qle_refl|done]. }
  destruct (Qle_bool 0 q) eqn:E; [|by apply Qle_bool_iff in Hq0; congruence].
  split.
  - change 0%Z with (Qfloor 0). apply Qfloor_resp_le.
    rewrite <- (Qplus_0_r 0). apply Qplus_le_compat; done.
  - rewrite <- (Qfloor_add_half (Z.of_N len)). apply Qfloor_resp_le.
    apply Qplus_le_compat; [done|apply Qle_refl].
Qed.

Lemma MANGLING_FACTOR_ge_1 : (1 <= MANGLING_FACTOR)%Q.
Proof. by vm_compute. Qed.

(** ** Rounding to an integer *)

Lemma inject_Z_sub (a b : Z) : (inject_Z (a - b) == inject_Z a - inject_Z b)%Q.
Proof. unfold Z.sub. rewrite inject_Z_plus, inject_Z_opp. reflexivity. Qed.

Lemma Qfloor_unique (x : Q) (k : Z) :
  (inject_Z k <= x < inject_Z k + 1)%Q -> Qfloor x = k.
Proof.
  intros [Hlo Hhi].
  pose proof (Qfloor_le x) as H1. pose proof (Qlt_floor x) as H2.
  rewrite inject_Z_plus in H2. change (inject_Z 1) with 1%Q in H2.
  assert (inject_Z (Qfloor x) < inject_Z (k + 1))%Q as H3
    by (rewrite inject_Z_plus; change (inject_Z 1) with 1%Q; lra).
  assert (inject_Z k < inject_Z (Qfloor x + 1))%Q as H4
    by (rewrite inject_Z_plus; change (inject_Z 1) with 1%Q; lra).
  rewrite <- Zlt_Qlt in H3, H4. lia.
Qed.

Lemma Qceiling_unique (x : Q) (k : Z) :
  (inject_Z k - 1 < x <= inject_Z k)%Q -> Qceiling x = k.
Proof.
  intros [Hlo Hhi]. unfold Qceiling.
  rewrite (Qfloor_unique (- x) (- k)); [lia|].
  rewrite inject_Z_opp. lra.
Qed.

(** [std::round] gives the integer the specification's rounding names. *)
Lemma round_half_away_rounds_to (v : Q) (k : Z) :
  rounds_to v k <-> round_half_away v = k.
Proof.
  unfold rounds_to, round_half_away. destruct (Qle_bool 0 v); split.
  - intros [Hlo Hhi]. apply Qfloor_unique. lra.
  - intros <-. pose proof (Qfloor_le (v + (1 # 2))). pose proof (Qlt_floor (v + (1 # 2))) as H2.
    rewrite inject_Z_plus in H2. change (inject_Z 1) with 1%Q in H2. lra.
  - intros [Hlo Hhi]. apply Qceiling_unique. lra.
  - intros <-. pose proof (Qle_ceiling (v - (1 # 2))).
    pose proof (Qceiling_lt (v - (1 # 2))) as H2.
    unfold Z.sub in H2. rewrite inject_Z_plus in H2.
    change (inject_Z (- (1))) with (- (1))%Q in H2. lra.
Qed.

Lemma rounds_to_unique (v : Q) (k k' : Z) : rounds_to v k -> rounds_to v k' -> k = k'.
Proof. rewrite !round_half_away_rounds_to. congruence. Qed.

(** A number between two integers is rounded to an integer between them. *)
Lemma round_half_away_between (v : Q) (a b : Z) :
  (inject_Z a <= v <= inject_Z b)%Q -> (a <= round_half_away v <= b)%Z.
Proof.
  intros [Hlo Hhi].
  pose proof (proj2 (round_half_away_rounds_to v _) eq_refl) as Hr.
  set (k := round_half_away v) in *. unfold rounds_to in Hr.
  assert (inject_Z a < inject_Z (k + 1) /\ inject_Z (k - 1) < inject_Z b)%Q as [H1 H2].
  { unfold Z.sub. rewrite !inject_Z_plus.
    change (inject_Z 1) with 1%Q. change (inject_Z (- (1))) with (- (1))%Q.
    destruct (Qle_bool 0 v); lra. }
  rewrite <- Zlt_Qlt in H1, H2. lia.
Qed.

(** ** The magnitude of the mangling in binary64 *)

Lemma double_of_sz_0 : double_of_sz 0 = S754_zero false.
Proof. reflexivity. Qed.

(** A number converted exactly, or zero. *)
Lemma double_of_sz_value (n : N) :
  n < 2 ^ 53 ->
  (n = 0 /\ double_of_sz n = S754_zero false)
  \/ exists (m : positive) (e : Z),
       double_of_sz n = S754_finite false m e
       /\ (inject_Z (Z.pos m) * 2 ^ e == inject_Z (Z.of_N n))%Q.
Proof.
  intros Hn. destruct (N.eq_dec n 0) as [->|Hne]; [by left|right].
  destruct (double_of_sz_exact n) as (m & e & H & _ & Hv); [lia|]. by exists m, e.
Qed.

(** A finite factor of at least 1 is a positive number. *)
Lemma factor_ge_1 (f : spec_float) (vf : Q) :
  Q_of_spec_float f = Some vf -> (1 <= vf)%Q ->
  exists (m : positive) (e : Z),
    f = S754_finite false m e /\ (vf == inject_Z (Z.pos m) * 2 ^ e)%Q.
Proof.
  destruct f as [s|s| |s m e]; simpl; try done.
  - intros [= <-] H. lra.
  - intros [= <-] H. exists m, e.
    assert (0 < inject_Z (Z.pos m) * 2 ^ e)%Q as Hpos.
    { apply Qmult_lt_0_compat; [|apply Qpow2_pos].
      change 0%Q with (inject_Z 0). rewrite <- Zlt_Qlt. lia. }
    destruct s; [lra|]. split; [done|reflexivity].
Qed.

Lemma round_to_i32_Some (x : spec_float) (v : Q) (k : Z) :
  Q_of_spec_float x = Some v -> round_half_away v = k ->
  (INT32_MIN <= k <= INT32_MAX)%Z ->
  round_to_i32 x = Some k.
Proof.
  intros Hx Hk [Hlo Hhi]. unfold round_to_i32. rewrite Hx. cbv zeta. rewrite Hk.
  apply Z.leb_le in Hlo, Hhi. by rewrite Hlo, Hhi.
Qed.

Lemma round_to_i32_inv (x : spec_float) (k : Z) :
  round_to_i32 x = Some k ->
  exists v, Q_of_spec_float x = Some v /\ rounds_to v k /\ (INT32_MIN <= k <= INT32_MAX)%Z.
Proof.
  unfold round_to_i32. destruct (Q_of_spec_float x) as [v|]; [|done]. cbv zeta.
  destruct (Z.leb_spec INT32_MIN (round_half_away v)); [|done].
  destruct (Z.leb_spec (round_half_away v) INT32_MAX); [|done].
  intros [= <-]. exists v. split_and!; try done. by apply round_half_away_rounds_to.
Qed.

(** For a factor of at least 1 and a word of at most [INT32_MAX] characters
    the magnitude is the rounding of the binary64 quotient, which is not
    negative and at most the length. *)
Lemma magling_magnitude_ge_1 (len : N) (f : spec_float) (vf : Q) :
  Q_of_spec_float f = Some vf -> (1 <= vf)%Q -> len <= 2147483647 ->
  exists (q : Q) (k : Z),
    Q_of_spec_float (SF64div (double_of_sz len) f) = Some q
    /\ rounds_to q k /\ (0 <= k <= Z.of_N len)%Z
    /\ magling_magnitude len f = Some k.
Proof.
  intros Hf Hge Hlen.
  destruct (factor_ge_1 f vf Hf Hge) as (m2 & e2 & -> & Hvf).
  unfold magling_magnitude.
  destruct (double_of_sz_value len) as [[-> Hz]|(m1 & e1 & -> & Hv)]; [lia| |].
  - rewrite Hz. exists 0%Q, 0%Z. split_and!; try done.
  - assert (0 <= inject_Z (Z.of_N len))%Q as Hlen0.
    { change 0%Q with (inject_Z 0). rewrite <- Zle_Qle. lia. }
    assert (fexp prec emax (Zdigits2 (Z.of_N len) + 0) <= 0)%Z as Hfexp.
    { rewrite fexp_eq.
      assert (Zdigits2 (Z.of_N len) <= 31)%Z by (apply Zdigits2_le; lia). lia. }
    assert (inject_Z (0 * Z.pos m2) * 2 ^ (0 + e2) <= inject_Z (Z.pos m1) * 2 ^ e1)%Q as H1.
    { rewrite Hv. simpl (0 * _)%Z. change (inject_Z 0) with 0%Q. by rewrite Qmult_0_l. }
    assert (inject_Z (Z.pos m1) * 2 ^ e1
            <= inject_Z (Z.of_N len * Z.pos m2) * 2 ^ (0 + e2))%Q as H2.
    { rewrite Hv, inject_Z_mult, Z.add_0_l, <- Qmult_assoc, <- Hvf.
      assert (inject_Z (Z.of_N len) * 1 <= inject_Z (Z.of_N len) * vf)%Q; [|lra].
      apply Qmult_le_compat_nonneg; split; (lra || done). }
    pose proof (SF64div_bounds false false m1 m2 e1 e2 0 (Z.of_N len) 0
                  ltac:(lia) ltac:(lia) Hfexp ltac:(reflexivity) H1 H2) as Hb.
    destruct (SF64div (S754_finite false m1 e1) (S754_finite false m2 e2))
      as [s|s| |s m e] eqn:E; try done.
    + exists 0%Q, 0%Z. split_and!; try done. lia.
    + destruct Hb as (-> & _ & Hlo & Hhi).
      simpl xorb. set (q := (inject_Z (Z.pos m) * 2 ^ e)%Q) in *.
      change (2 ^ 0)%Q with 1%Q in Hlo, Hhi.
      pose proof (round_half_away_between q 0 (Z.of_N len) ltac:(lra)) as Hk.
      exists q, (round_half_away q). split_and!; try done; try lia.
      * by apply round_half_away_rounds_to.
      * apply (round_to_i32_Some _ q); [done|done|]. unfold INT32_MIN, INT32_MAX. lia.
Qed.

(** The exact magnitude at the factor 2.7, in integers. *)
Lemma mangling_magnitude_2_7_bounds (len : N) :
  let K := mangling_magnitude len MANGLING_FACTOR in
  (27 * K - 13 <= 10 * Z.of_N len <= 27 * K + 13)%Z.
Proof.
  intros K.
  pose proof (proj2 (round_half_away_rounds_to _ _) (eq_refl K)) as HK.
  unfold rounds_to in HK.
  set (x := (inject_Z (Z.of_N len) / MANGLING_FACTOR)%Q) in *.
  assert (x == inject_Z (10 * Z.of_N len) / 27)%Q as Hx.
  { unfold x, MANGLING_FACTOR. rewrite inject_Z_mult. change (inject_Z 10) with 10%Q.
    field. }
  assert (27 * x == inject_Z (10 * Z.of_N len))%Q as Hx'.
  { rewrite Hx. field. }
  assert (0 <= x)%Q as Hx0.
  { assert (0 <= inject_Z (10 * Z.of_N len))%Q.
    { change 0%Q with (inject_Z 0). rewrite <- Zle_Qle. lia. }
    lra. }
  apply Qle_bool_iff in Hx0. rewrite Hx0 in HK. destruct HK as [Hlo Hhi].
  assert (inject_Z (54 * K - 27) <= inject_Z (20 * Z.of_N len))%Q as H1.
  { replace (20 * Z.of_N len)%Z with (2 * (10 * Z.of_N len))%Z by lia.
    rewrite inject_Z_sub, !inject_Z_mult. rewrite <- Hx'.
    change (inject_Z 54) with 54%Q. change (inject_Z 2) with 2%Q.
    change (inject_Z 27) with 27%Q. lra. }
  assert (inject_Z (20 * Z.of_N len) < inject_Z (54 * K + 27))%Q as H2.
  { replace (20 * Z.of_N len)%Z with (2 * (10 * Z.of_N len))%Z by lia.
    rewrite inject_Z_plus, !inject_Z_mult. rewrite <- Hx'.
    change (inject_Z 54) with 54%Q. change (inject_Z 2) with 2%Q.
    change (inject_Z 27) with 27%Q. lra. }
  rewrite <- Zle_Qle in H1. rewrite <- Zlt_Qlt in H2. lia.
Qed.

(** At the factor 2.7 the binary64 computation of the code gives the
    magnitude of the exact quotient, for every length whose magnitude is an
    [i32]: from 5,798,205,849 characters on the cast is undefined. *)
Lemma magling_magnitude_2_7 (len : N) :
  len <= 5798205848 ->
  magling_magnitude len double_2_7 = Some (mangling_magnitude len MANGLING_FACTOR).
Proof.
  intros Hlen. pose proof (mangling_magnitude_2_7_bounds len) as HK. cbv zeta in HK.
  set (K := mangling_magnitude len MANGLING_FACTOR) in *.
  unfold magling_magnitude.
  destruct (double_of_sz_value len) as [[-> Hz]|(m1 & e1 & -> & Hv)]; [lia| |].
  - rewrite Hz. subst K. reflexivity.
  - set (a := Z.max 0 ((2 * K - 1) * 524288)).
    set (b := ((2 * K + 1) * 524288 - 1)%Z).
    assert (fexp prec emax (Zdigits2 b + -20) <= -20)%Z as Hfexp.
    { rewrite fexp_eq.
      assert (Zdigits2 b <= 53)%Z by (apply Zdigits2_le; unfold b; lia). lia. }
    assert (inject_Z (Z.of_N len) == inject_Z (Z.of_N len) * 2 ^ 0)%Q as Hlen0
      by (change (2 ^ 0)%Q with 1%Q; ring).
    assert (inject_Z (a * 6079859496950170) * 2 ^ (-20 + -51)
            <= inject_Z (Z.pos m1) * 2 ^ e1)%Q as H1.
    { rewrite Hv, Hlen0. apply (Qscaled_le _ _ _ _ (-71)); [lia..|].
      change (2 ^ (-20 + -51 - -71))%Z with 1%Z.
      change (2 ^ (0 - -71))%Z with 2361183241434822606848%Z. unfold a. lia. }
    assert (inject_Z (Z.pos m1) * 2 ^ e1
            <= inject_Z (b * 6079859496950170) * 2 ^ (-20 + -51))%Q as H2.
    { rewrite Hv, Hlen0. apply (Qscaled_le _ _ _ _ (-71)); [lia..|].
      change (2 ^ (-20 + -51 - -71))%Z with 1%Z.
      change (2 ^ (0 - -71))%Z with 2361183241434822606848%Z. unfold b. lia. }
    pose proof (SF64div_bounds false false m1 6079859496950170 e1 (-51) a b (-20)
                  ltac:(unfold a; lia) ltac:(unfold b; lia) Hfexp ltac:(reflexivity) H1 H2)
      as Hb.
    unfold double_2_7.
    destruct (SF64div (S754_finite false m1 e1) (S754_finite false 6079859496950170 (-51)))
      as [s|s| |s m e] eqn:E; try done.
    + destruct Hb as [_ Ha]. apply (round_to_i32_Some _ 0%Q); [done| |].
      * change (round_half_away 0) with 0%Z. unfold a in Ha. lia.
      * unfold INT32_MIN, INT32_MAX. lia.
    + destruct Hb as (-> & _ & Hlo & Hhi). simpl xorb.
      set (q := (inject_Z (Z.pos m) * 2 ^ e)%Q) in *.
      change (2 ^ (-20))%Q with (1 # 1048576)%Q in Hlo, Hhi.
      apply (round_to_i32_Some _ q); [done| |unfold INT32_MIN, INT32_MAX; lia].
      apply round_half_away_rounds_to. unfold rounds_to.
      assert (inject_Z ((2 * K - 1) * 524288) <= inject_Z a)%Q as Ha
        by (rewrite <- Zle_Qle; unfold a; lia).
      assert (0 <= inject_Z a)%Q as Ha0.
      { change 0%Q with (inject_Z 0). rewrite <- Zle_Qle. unfold a. lia. }
      rewrite inject_Z_mult, inject_Z_sub, inject_Z_mult in Ha.
      unfold b in Hhi.
      rewrite inject_Z_sub, inject_Z_mult, inject_Z_plus, inject_Z_mult in Hhi.
      change (inject_Z 2) with 2%Q in *. change (inject_Z 524288) with 524288%Q in *.
      change (inject_Z 1) with 1%Q in *.
      assert (0 <= q)%Q as Hq0 by lra.
      apply Qle_bool_iff in Hq0 as ->. lra.
Qed.
Lemma iota_length (n : nat) : length (iota n) = n.
Proof. unfold iota. by rewrite length_fmap, length_seq. Qed.

Lemma iota_NoDup (n : nat) : NoDup (iota n).
Proof. unfold iota. apply NoDup_fmap; [apply _|apply NoDup_seq]. Qed.

Lemma iota_elem (n : nat) (p : N) : p ∈ iota n <-> p < N.of_nat n.
Proof.
  unfold iota. rewrite list_elem_of_fmap. split.
  - intros (i & -> & Hi%elem_of_seq). lia.
  - intros Hp. exists (N.to_nat p). split; [lia|]. apply elem_of_seq. lia.
Qed.

Lemma foldl_write_length (ws : list (N * ascii)) :
  forall piece, length (foldl write piece ws) = length piece.
Proof.
  induction ws as [|wr ws IH]; intros piece; simpl; [done|].
  rewrite IH. unfold write. by rewrite length_insert.
Qed.

(** A position that is not written keeps its character. *)
Lemma foldl_write_other (ws : list (N * ascii)) :
  forall piece (i : nat), N.of_nat i ∉ ws.*1 -> foldl write piece ws !! i = piece !! i.
Proof.
  induction ws as [|[p c] ws IH]; intros piece i Hi; simpl in *; [done|].
  apply not_elem_of_cons in Hi as [Hne Hi].
  rewrite IH by done. unfold write. simpl. apply list_lookup_insert_ne. lia.
Qed.

(** A position written once holds the character written there. *)
Lemma foldl_write_at (ws : list (N * ascii)) :
  forall piece p c,
    NoDup ws.*1 -> (p, c) ∈ ws -> (N.to_nat p < length piece)%nat ->
    foldl write piece ws !! N.to_nat p = Some c.
Proof.
  induction ws as [|[p0 c0] ws IH]; intros piece p c Hnd Hin Hlt; simpl in *.
  - by apply elem_of_nil in Hin.
  - apply NoDup_cons in Hnd as [Hfresh Hnd].
    apply elem_of_cons in Hin as [[= -> ->]|Hin].
    + rewrite foldl_write_other by (by rewrite N2Nat.id).
      unfold write. simpl. by apply list_lookup_insert_eq.
    + apply IH; [done|done|]. unfold write. by rewrite length_insert.
Qed.


(** The loop run for no more replacements than the word has characters. *)
Lemma mangle_loop_returns (k : nat) (w : str) (g : Engine) :
  (k <= length w)%nat ->
  let writes := mangle_writes k g (iota (length w)) in
  exists w' g',
    mangle_loop k g w (iota (length w)) = Ret (w', g')
    /\ length w' = length w
    /\ w' = foldl write w writes
    /\ length writes = k
    /\ NoDup writes.*1
    /\ (forall p c, (p, c) ∈ writes ->
          p < length_sz w /\ w' !! N.to_nat p = Some c /\ mangled_char (p, c))
    /\ (forall i : nat, N.of_nat i ∉ writes.*1 -> w' !! i = w !! i).
Proof.
  intros Hk writes.
  destruct (mangle_loop_total k g w (iota (length w))) as (w' & g' & Hret).
  { by rewrite iota_length. }
  exists w', g'. split; [done|].
  destruct (mangle_loop_writes _ _ _ _ _ _ Hret) as [Hw' Hlen]. fold writes in Hw', Hlen.
  destruct (mangle_writes_positions k g (iota (length w)) (iota_NoDup _)) as [Hnd Hsub].
  fold writes in Hnd, Hsub.
  assert (forall p c, (p, c) ∈ writes -> p < length_sz w) as Hrange.
  { intros p c Hin. apply iota_elem, Hsub, list_elem_of_fmap. by exists (p, c). }
  split_and!; try done.
  - subst w'. apply foldl_write_length.
  - intros p c Hin. split_and!.
    + by eapply Hrange.
    + subst w'. apply foldl_write_at; [done|done|].
      apply Hrange in Hin. unfold length_sz in Hin. lia.
    + pose proof (mangle_writes_chars k g (iota (length w))) as Hch.
      rewrite Forall_forall in Hch. by apply Hch.
  - intros i Hi. subst w'. by apply foldl_write_other.
Qed.

(** The code at the factor 2.7 is the function with the exact quotient, for
    every word the cast is defined for. *)
Lemma mangle_b64_2_7 (g : Engine) (w : str) :
  length_sz w <= 5798205848 ->
  mangle_b64 g w double_2_7 = mangle g w MANGLING_FACTOR.
Proof.
  intros Hlen. unfold mangle_b64, mangle. rewrite magling_magnitude_2_7 by done.
  pose proof (mangling_magnitude_le (length_sz w) _ MANGLING_FACTOR_ge_1) as Hk.
  destruct (Z.eqb_spec (mangling_magnitude (length_sz w) MANGLING_FACTOR) INT32_MIN) as [E|_];
    [unfold INT32_MIN in E; lia|done].
Qed.




Lemma sample_word_single (w : str) :
  sample_word (tape_of []) [[]; []; []; [w]; []; []; []; []; []; []; []; []; []] 3 8
  = Ret (w, tape_after [] 1).
Proof. vm_compute. reflexivity. Qed.

(** The bound on the length is the one of the cast. For a word of
    5,798,205,849 characters the integer nearest to the length divided by
    2.7 is 2,147,483,648, which is not an [i32]: the behaviour of the
    mangling step is undefined. *)
Example mangle_b64_long_word :
  length_sz long_word = 5798205849
  /\ rounds_to (inject_Z 5798205849 / (27 # 10)) 2147483648
  /\ (INT32_MAX < 2147483648)%Z
  /\ magling_magnitude 5798205849 double_2_7 = None
  /\ mangle_b64 (tape_of []) long_word double_2_7 = Undefined
  /\ sample_and_mangle_word_b64 (tape_of []) long_db 3 8 double_2_7 = Undefined.
Proof.
  assert (length_sz long_word = 5798205849) as Hlen.
  { unfold long_word, length_sz. rewrite length_replicate. apply N2Nat.id. }
  assert (magling_magnitude 5798205849 double_2_7 = None) as Hmag
    by (vm_compute; reflexivity).
  assert (forall g, mangle_b64 g long_word double_2_7 = Undefined) as Hu.
  { intros g. unfold mangle_b64. cbv zeta. by rewrite Hlen, Hmag. }
  split_and!; [done| |reflexivity|done|apply Hu|].
  - apply round_half_away_rounds_to. vm_compute. reflexivity.
  - unfold sample_and_mangle_word_b64, long_db. rewrite sample_word_single.
    cbn [mbind result_bind]. apply Hu.
Qed.

(** ** What [sample_word] returns *)

Lemma elem_of_concat {A} (bs : list (list A)) (x : A) :
  x ∈ concat bs <-> exists b, b ∈ bs /\ x ∈ b.
Proof.
  induction bs as [|b bs IH]; simpl.
  - split; [by intros ?%elem_of_nil|]. by intros (b & ?%elem_of_nil & _).
  - rewrite elem_of_app, IH. split.
    + intros [Hx|(b' & Hb' & Hx)]; [exists b|exists b']; (split; [|done]);
        [by left|by right].
    + intros (b' & [->|Hb']%elem_of_cons & Hx); [by left|right; by exists b'].
Qed.

(** A returned word was drawn with one draw from one of the buckets the
    range counts. *)
Lemma sample_word_Ret (g : Engine) (db : WordDB) (min_len max_len : N) (w : str) (g' : Engine) :
  sample_word g db min_len max_len = Ret (w, g') ->
  g' = advance g
  /\ min_len + sz_add (sz_sub max_len min_len) 1 <= length_sz db
  /\ exists (j : nat) (b : list str),
       N.of_nat j < sz_add (sz_sub max_len min_len) 1
       /\ db !! (N.to_nat min_len + j)%nat = Some b /\ w ∈ b.
Proof.
  unfold sample_word. set (count := sz_add (sz_sub max_len min_len) 1).
  destruct (N.leb_spec (min_len + count) (length_sz db)) as [Hfit|]; [|done].
  cbn [negb]. set (it := drop (N.to_nat min_len) db).
  rewrite count_candidates_concat.
  set (flat := concat (take (N.to_nat count) it)).
  destruct (N.eqb_spec (length_sz flat) 0) as [|Hne]; [done|].
  intros H. bind_inv H. apply uniform_int_Ret in Hcall as [Hidx ->].
  bind_inv H. injection H as -> <-.
  destruct (lookup_lt_is_Some_2 flat (N.to_nat n)) as [w' Hw'].
  { unfold length_sz in *. lia. }
  assert (bucket_walk it n = Ret w') as Hwalk.
  { rewrite <- (take_drop (N.to_nat count) it). by apply bucket_walk_concat. }
  rewrite Hwalk in Hcall. injection Hcall as ->.
  apply list_elem_of_lookup_2, elem_of_concat in Hw' as (b & Hb & Hw).
  apply elem_of_take in Hb as (j & Hj & Hlt). unfold it in Hj. rewrite lookup_drop in Hj.
  split_and!; [done|done|]. exists j, b. split_and!; [lia|done|done].
Qed.

(** Under the bucket invariant the length of a returned word is in the
    range asked for. *)
Lemma sample_word_Ret_length (g : Engine) (db : WordDB) (min_len max_len : N) (w : str) (g' : Engine) :
  representable db -> bucket_invariant db ->
  sample_word g db min_len max_len = Ret (w, g') ->
  min_len <= length_sz w <= max_len.
Proof.
  intros Hrep Hinv (_ & Hfit & j & b & Hj & Hb & Hw)%sample_word_Ret.
  unfold representable, length_sz in *. rewrite (Hinv _ _ _ Hb Hw).
  revert Hfit Hj. unfold sz_add, sz_sub.
  destruct (N.leb_spec min_len max_len) as [Hle|Hgt].
  - intros _ Hj. assert ((max_len - min_len + 1) mod SZ_MOD <= max_len - min_len + 1).
    { apply N.Div0.mod_le. }
    lia.
  - intros Hfit Hj. exfalso.
    destruct (decide (max_len + 1 = min_len)) as [Heq|Hne].
    + replace (max_len + SZ_MOD - min_len + 1) with SZ_MOD in Hj by lia.
      rewrite N.Div0.mod_same in Hj. lia.
    + rewrite N.mod_small in Hfit;
        change SZ_MOD with 18446744073709551616 in *; lia.
Qed.


(** The call of line 162, with fewer than 5,798,205,849 characters in a word. *)
Lemma sample_and_mangle_word_b64_2_7 (g : Engine) (db : WordDB) (min_len max_len : N) :
  representable db -> bucket_invariant db -> max_len <= 5798205848 ->
  sample_and_mangle_word_b64 g db min_len max_len double_2_7
  = sample_and_mangle_word g db min_len max_len MANGLING_FACTOR.
Proof.
  intros Hrep Hinv Hmax. unfold sample_and_mangle_word_b64, sample_and_mangle_word.
  destruct (sample_word g db min_len max_len) as [[w g1]| | |] eqn:E; try done.
  cbn [mbind result_bind]. apply mangle_b64_2_7.
  pose proof (sample_word_Ret_length _ _ _ _ _ _ Hrep Hinv E). lia.
Qed.

(** ** Pieces of a nickname *)

Lemma mangle_Ret (g : Engine) (piece : str) (mangling_factor : Q) (piece' : str) (g' : Engine) :
  mangle g piece mangling_factor = Ret (piece', g') ->
  exists writes,
    piece' = foldl write piece writes /\ Forall mangled_char writes.
Proof.
  unfold mangle. destruct (Qeq_bool mangling_factor 0); [done|].
  intros [-> _]%mangle_loop_writes. eexists. split; [done|]. apply mangle_writes_chars.
Qed.

Lemma mangled_char_alnum (wr : N * ascii) : mangled_char wr -> is_alnum wr.2 = true.
Proof.
  unfold mangled_char. destruct (wr.1 =? 0).
  - apply is_lower_alnum.
  - intros (c & Hc & ->). by apply tolower_alnum.
Qed.

Lemma foldl_write_alnum (ws : list (N * ascii)) :
  forall piece, Forall mangled_char ws -> alnum_str piece -> alnum_str (foldl write piece ws).
Proof.
  induction ws as [|wr ws IH]; intros piece Hws Hp; simpl; [done|].
  apply Forall_cons in Hws as [Hwr Hws]. apply IH; [done|].
  unfold write. apply Forall_insert; [done|]. by apply mangled_char_alnum.
Qed.

Lemma mangle_Ret_length (g : Engine) (piece : str) (mf : Q) (piece' : str) (g' : Engine) :
  mangle g piece mf = Ret (piece', g') -> length piece' = length piece.
Proof. intros (ws & -> & _)%mangle_Ret. apply foldl_write_length. Qed.

Lemma mangle_Ret_alnum (g : Engine) (piece : str) (mf : Q) (piece' : str) (g' : Engine) :
  mangle g piece mf = Ret (piece', g') -> alnum_str piece -> alnum_str piece'.
Proof. intros (ws & -> & Hws)%mangle_Ret. by apply foldl_write_alnum. Qed.

Lemma random_fill_eq (n : nat) :
  forall g piece, exists tail g',
    random_fill n g piece = Ret (piece ++ tail, g')
    /\ length tail = n /\ alnum_str tail.
Proof.
  induction n as [|n IH]; intros g piece; cbn [random_fill].
  - exists [], g. rewrite app_nil_r. split_and!; [done|done|constructor].
  - rewrite sample_ascii_eq. cbn [mbind result_bind].
    destruct (IH (advance g) (piece ++ [ascii_of_draw (peek g mod 62)]))
      as (tail & g' & -> & Hlen & Hal).
    exists (ascii_of_draw (peek g mod 62) :: tail), g'. split_and!.
    + by rewrite <- app_assoc.
    + simpl. by rewrite Hlen.
    + apply Forall_cons. split; [|done].
      apply ascii_of_draw_alnum. by apply N.mod_upper_bound.
Qed.

Lemma capitalize_length (piece : str) : length (capitalize piece) = length piece.
Proof. destruct piece; [done|]. unfold capitalize. by rewrite length_insert. Qed.

Lemma capitalize_alnum (piece : str) : alnum_str piece -> alnum_str (capitalize piece).
Proof.
  destruct piece as [|c piece]; [done|]. unfold capitalize. intros H.
  apply Forall_insert; [done|]. apply toupper_alnum. by apply Forall_cons in H as [? _].
Qed.

(** ** Shuffling *)

Lemma insert_Permutation_cons {A} (l : list A) (i : nat) (x y : A) :
  l !! i = Some x -> y :: l ≡ₚ x :: <[i:=y]> l.
Proof.
  revert i. induction l as [|a l IH]; intros [|i] H; simpl in *; try done.
  - injection H as ->. apply perm_swap.
  - rewrite perm_swap. rewrite (IH i H). apply perm_swap.
Qed.

Lemma swap_at_Permutation {A} (v : list A) (i j : nat) : swap_at v i j ≡ₚ v.
Proof.
  unfold swap_at. destruct (v !! i) as [x|] eqn:Hi; [|done].
  destruct (v !! j) as [y|] eqn:Hj; [|done].
  apply (Permutation_cons_inv (a := x)).
  assert (<[j:=x]> v !! i = Some x) as Hi'.
  { destruct (decide (i = j)) as [->|Hne].
    - apply list_lookup_insert_eq. by eapply lookup_lt_Some.
    - by rewrite list_lookup_insert_ne. }
  rewrite <- (insert_Permutation_cons _ i x y Hi').
  by rewrite <- (insert_Permutation_cons v j y x Hj).
Qed.

Lemma shuffle_loop_eq {A} (i : nat) :
  forall g (v : list A), exists v' g', shuffle_loop i g v = Ret (v', g') /\ v' ≡ₚ v.
Proof.
  induction i as [|i IH]; intros g v; cbn [shuffle_loop].
  - by exists v, g.
  - rewrite uniform_int_ok by lia. cbn [mbind result_bind].
    destruct (IH (advance g) (swap_at v (S i) (N.to_nat (0 + peek g mod (N.of_nat (S i) - 0 + 1)))))
      as (v' & g' & -> & Hperm).
    exists v', g'. split; [done|]. by rewrite Hperm, swap_at_Permutation.
Qed.

Lemma shuffle_eq {A} (g : Engine) (v : list A) :
  exists v' g', shuffle g v = Ret (v', g') /\ v' ≡ₚ v.
Proof. apply shuffle_loop_eq. Qed.

Lemma concat_Permutation {A} (ps ps' : list (list A)) :
  ps ≡ₚ ps' -> concat ps ≡ₚ concat ps'.
Proof.
  induction 1 as [|p ps ps' _ IH|p q ps|ps ps' ps'' _ IH1 _ IH2]; simpl.
  - done.
  - by rewrite IH.
  - rewrite !app_assoc. by rewrite (Permutation_app_comm q p).
  - by rewrite IH1.
Qed.

Lemma accumulate_from (pieces : list str) (nickname : str) :
  foldl (fun nickname piece => nickname ++ piece) nickname pieces
  = nickname ++ concat pieces.
Proof.
  revert nickname. induction pieces as [|p ps IH]; intros nickname; simpl.
  - by rewrite app_nil_r.
  - by rewrite IH, app_assoc.
Qed.

Lemma accumulate_concat (pieces : list str) : accumulate pieces = concat pieces.
Proof. unfold accumulate. by rewrite accumulate_from. Qed.

Lemma concat_snoc {A} (ps : list (list A)) (p : list A) :
  concat (ps ++ [p]) = concat ps ++ p.
Proof. rewrite concat_app. simpl. by rewrite app_nil_r. Qed.

(** ** The loop of [sample_nickname] *)

Lemma sample_and_mangle_word_Ret (g : Engine) (db : WordDB) (min_len max_len : N) (mf : Q)
  (piece : str) (g' : Engine) :
  sample_and_mangle_word g db min_len max_len mf = Ret (piece, g') ->
  exists w,
    sample_word g db min_len max_len = Ret (w, advance g)
    /\ mangle (advance g) w mf = Ret (piece, g').
Proof.
  unfold sample_and_mangle_word. intros H. bind_inv H.
  destruct (sample_word_Ret _ _ _ _ _ _ Hcall) as [-> _]. by exists l.
Qed.

(** The pieces cover the budget: their lengths and what is left of the
    budget add up to the budget the loop started with. *)
Lemma nickname_loop_length (fuel : nat) :
  forall g db opt chance pieces ps g',
    representable db -> bucket_invariant db ->
    nickname_loop fuel g db opt chance pieces = Ret (ps, g') ->
    length_sz (concat ps) = length_sz (concat pieces) + chance.
Proof.
  induction fuel as [|fuel IH]; intros g db opt chance pieces ps g' Hrep Hinv;
    cbn [nickname_loop]; destruct (N.eqb_spec chance 0) as [->|Hpos];
    try (intros [= <- <-]; lia).
  destruct (N.ltb_spec chance (min_word_len opt)) as [Hlt|Hge]; intros H.
  - bind_inv H. bind_inv H.
    destruct (random_fill_eq (N.to_nat (sz_sub chance 1)) e [a]) as (tail & g2 & Hfill & Hlen & _).
    rewrite Hfill in Hcall0. injection Hcall0 as <- <-.
    apply IH in H; [|done|done]. rewrite H, concat_snoc.
    unfold length_sz. rewrite !length_app. simpl. rewrite Hlen.
    unfold sz_sub. destruct (N.leb_spec 1 chance); lia.
  - bind_inv H. apply sample_and_mangle_word_Ret in Hcall as (w & Hw & Hm).
    apply mangle_Ret_length in Hm.
    apply sample_word_Ret_length in Hw; [|done|done].
    apply IH in H; [|done|done]. rewrite H, concat_snoc.
    unfold length_sz in *. rewrite length_app, capitalize_length, Hm.
    unfold sz_sub. destruct (N.leb_spec (N.of_nat (length w)) chance); lia.
Qed.

(** Every piece is made of letters and digits when the corpus is. *)
Lemma nickname_loop_alnum (fuel : nat) :
  forall g db opt chance pieces ps g',
    alnum_corpus db -> alnum_str (concat pieces) ->
    nickname_loop fuel g db opt chance pieces = Ret (ps, g') ->
    alnum_str (concat ps).
Proof.
  induction fuel as [|fuel IH]; intros g db opt chance pieces ps g' Hdb Hal;
    cbn [nickname_loop]; destruct (N.eqb_spec chance 0) as [->|Hpos];
    try (by intros [= <- <-]).
  destruct (N.ltb_spec chance (min_word_len opt)) as [Hlt|Hge]; intros H.
  - bind_inv H. bind_inv H. apply sample_ascii_lower_lower in Hcall as [Hlow _].
    destruct (random_fill_eq (N.to_nat (sz_sub chance 1)) e [a]) as (tail & g2 & Hfill & _ & Htail).
    rewrite Hfill in Hcall0. injection Hcall0 as <- <-.
    apply IH in H; [done|done|]. rewrite concat_snoc.
    apply Forall_app. split; [done|]. apply Forall_cons. split; [|done].
    by apply is_lower_alnum.
  - bind_inv H. apply sample_and_mangle_word_Ret in Hcall as (w & Hw & Hm).
    apply sample_word_Ret in Hw as (_ & _ & j & b & _ & Hb & Hin).
    apply IH in H; [done|done|]. rewrite concat_snoc.
    apply Forall_app. split; [done|]. apply capitalize_alnum.
    eapply mangle_Ret_alnum; [done|]. by eapply Hdb.
Qed.

(** ** Checking a corpus *)

Lemma bucket_invariantb_from_correct (db : WordDB) :
  forall L : nat,
    bucket_invariantb_from L db = true ->
    forall (i : nat) (b : list str) (w : str),
      db !! i = Some b -> w ∈ b -> length w = (L + i)%nat.
Proof.
  induction db as [|b0 db IH]; intros L H i b w Hb Hw; [done|].
  simpl in H. apply andb_true_iff in H as [H0 H].
  destruct i as [|i]; simpl in Hb.
  - injection Hb as ->. rewrite forallb_forall in H0.
    apply list_elem_of_In, H0, Nat.eqb_eq in Hw. lia.
  - rewrite (IH (S L) H i b w Hb Hw). lia.
Qed.

Lemma bucket_invariantb_correct (db : WordDB) :
  bucket_invariantb_from 0 db = true -> bucket_invariant db.
Proof. intros H L b w Hb Hw. by apply (bucket_invariantb_from_correct db 0 H L b w). Qed.

Lemma alnum_corpusb_correct (db : WordDB) :
  alnum_corpusb db = true -> alnum_corpus db.
Proof.
  unfold alnum_corpusb. rewrite forallb_forall. intros H L b w Hb Hw.
  apply list_elem_of_lookup_2, list_elem_of_In, H in Hb.
  rewrite forallb_forall in Hb. apply list_elem_of_In, Hb in Hw.
  rewrite forallb_forall in Hw. apply List.Forall_forall. done.
Qed.

(** ** The nickname *)

Lemma sample_nickname_Ret (fuel : nat) (g : Engine) (db : WordDB) (opt : SampleNicknameOpt)
  (s : str) (g' : Engine) :
  sample_nickname fuel g db opt = Ret (s, g') ->
  exists chance pieces g1,
    min_len opt <= chance <= max_len opt
    /\ nickname_loop fuel (advance g) db opt chance [] = Ret (pieces, g1)
    /\ s ≡ₚ concat pieces.
Proof.
  unfold sample_nickname. intros H. bind_inv H.
  apply uniform_int_Ret in Hcall as [Hchance ->]. bind_inv H.
  destruct (shuffle_eq e l) as (v' & g2 & Hsh & Hperm). rewrite Hsh in H.
  cbn [mbind result_bind] in H. injection H as <- <-.
  exists n, l, e. split_and!; [lia|lia|done|].
  rewrite accumulate_concat. by apply concat_Permutation.
Qed.

(** C1. For every corpus that satisfies the bucket invariant, every engine
    and every option record: a nickname that [sample_nickname] returns has a
    length between [min_len] and [max_len]; with the options of the system,
    {8, 8, 3, 8}, the length is exactly 8. *)
Theorem sample_nickname_length_in_bounds (fuel : nat) (g : Engine) (db : WordDB)
  (opt : SampleNicknameOpt) (s : str) (g' : Engine) :
  representable db -> bucket_invariant db ->
  sample_nickname fuel g db opt = Ret (s, g') ->
  min_len opt <= length_sz s <= max_len opt
  /\ (opt = SAMPLE_NICKNAME_OPT -> length s = 8%nat).
Proof.
  intros Hrep Hinv (chance & pieces & g1 & Hchance & Hloop & Hperm)%sample_nickname_Ret.
  apply nickname_loop_length in Hloop; [|done|done].
  assert (length_sz s = chance) as Hlen.
  { unfold length_sz in *. rewrite Hperm. simpl in Hloop. lia. }
  split; [lia|]. intros ->. simpl in Hchance. unfold length_sz in Hlen. lia.
Qed.

Lemma sample_nickname_length_in_bounds_witness :
  representable example_db /\ bucket_invariant example_db
  /\ sample_nickname 8 (tape_of example_tape) example_db SAMPLE_NICKNAME_OPT
     = Ret (lit "M2n4r6ve", tape_after example_tape 8)
  /\ (min_len SAMPLE_NICKNAME_OPT <= length_sz (lit "M2n4r6ve") <= max_len SAMPLE_NICKNAME_OPT
      /\ (SAMPLE_NICKNAME_OPT = SAMPLE_NICKNAME_OPT -> length (lit "M2n4r6ve") = 8%nat)).
Proof.
  assert (representable example_db) as Hrep by reflexivity.
  assert (bucket_invariant example_db) as Hinv
    by (apply bucket_invariantb_correct; vm_compute; reflexivity).
  assert (sample_nickname 8 (tape_of example_tape) example_db SAMPLE_NICKNAME_OPT
          = Ret (lit "M2n4r6ve", tape_after example_tape 8)) as Hrun
    by (vm_compute; reflexivity).
  split; [exact Hrep|]. split; [exact Hinv|]. split; [exact Hrun|].
  exact (sample_nickname_length_in_bounds 8 (tape_of example_tape) example_db
           SAMPLE_NICKNAME_OPT _ _ Hrep Hinv Hrun).
Defined.

(** C9, as the code has it. For every corpus whose words are made of ASCII
    letters and digits only, every engine and every option record, every
    character of a nickname that [sample_nickname] returns is an ASCII letter
    or digit. *)
Theorem sample_nickname_alnum (fuel : nat) (g : Engine) (db : WordDB)
  (opt : SampleNicknameOpt) (s : str) (g' : Engine) :
  alnum_corpus db ->
  sample_nickname fuel g db opt = Ret (s, g') ->
  forall c, c ∈ s -> is_alnum c = true.
Proof.
  intros Hdb (chance & pieces & g1 & _ & Hloop & Hperm)%sample_nickname_Ret.
  apply nickname_loop_alnum in Hloop; [|done|constructor].
  intros c Hc. rewrite Hperm in Hc. unfold alnum_str in Hloop.
  rewrite List.Forall_forall in Hloop. by apply Hloop, list_elem_of_In.
Qed.

Lemma sample_nickname_alnum_witness :
  alnum_corpus example_db
  /\ sample_nickname 8 (tape_of example_tape) example_db SAMPLE_NICKNAME_OPT
     = Ret (lit "M2n4r6ve", tape_after example_tape 8)
  /\ forall c, c ∈ lit "M2n4r6ve" -> is_alnum c = true.
Proof.
  assert (alnum_corpus example_db) as Hdb
    by (apply alnum_corpusb_correct; vm_compute; reflexivity).
  assert (sample_nickname 8 (tape_of example_tape) example_db SAMPLE_NICKNAME_OPT
          = Ret (lit "M2n4r6ve", tape_after example_tape 8)) as Hrun
    by (vm_compute; reflexivity).
  split; [exact Hdb|]. split; [exact Hrun|].
  exact (sample_nickname_alnum 8 (tape_of example_tape) example_db
           SAMPLE_NICKNAME_OPT _ _ Hdb Hrun).
Defined.

(** C9 as stated fails: the loader keeps a hyphen of the word list, the
    mangling leaves it in place, and the nickname returned contains it. *)
Lemma sample_nickname_alnum_counterexample :
  exists db s g',
    load_word_db (Some hyphen_file) = Some db
    /\ sample_nickname 8 (tape_of []) db SAMPLE_NICKNAME_OPT = Ret (s, g')
    /\ ~ (forall c, c ∈ s -> is_alnum c = true).
Proof.
  exists [[]; []; []; []; []; []; []; []; [lit "t-shirts"]; []; []; []; []],
         (lit "A-shir00"), (tape_after [] 8).
  split; [by vm_compute|]. split; [by vm_compute|].
  intros H. specialize (H "-"%char). 
  assert ("-"%char ∈ lit "A-shir00") as Hin by (apply list_elem_of_In; simpl; tauto).
  apply H in Hin. by vm_compute in Hin.
Qed.

(** ** Termination of [sample_nickname] *)












(** ** Selecting a word *)

Lemma eligible_words_elem (db : WordDB) (min_len max_len : N) (w : str) :
  w ∈ eligible_words db min_len max_len ->
  exists L, min_len <= L <= max_len /\ w ∈ bucket db L.
Proof.
  unfold eligible_words, eligible_lengths.
  intros (b & Hb & Hw)%elem_of_concat.
  apply list_elem_of_fmap in Hb as (L & -> & HL).
  apply list_elem_of_fmap in HL as (j & -> & Hj%elem_of_seq).
  exists (min_len + N.of_nat j). split; [lia|done].
Qed.

(** C4. On a range inside the corpus the number of candidates the code
    sums up is the length of the flattened sequence of the buckets
    min_len, ..., max_len; for every index below it the subtraction walk
    returns the word at that index of the flattened sequence; and
    [sample_word] returns the word at the index its one uniform draw gives,
    so a word is selected by its place in the flattened sequence alone. *)
Theorem sample_word_is_flat_indexing (db : WordDB) (min_len max_len : N) :
  representable db -> min_len <= max_len -> max_len < length_sz db ->
  count_candidates
    (take (N.to_nat (sz_add (sz_sub max_len min_len) 1)) (drop (N.to_nat min_len) db))
  = length_sz (eligible_words db min_len max_len)
  /\ (forall i, i < length_sz (eligible_words db min_len max_len) ->
        exists w,
          eligible_words db min_len max_len !! N.to_nat i = Some w
          /\ bucket_walk (drop (N.to_nat min_len) db) i = Ret w)
  /\ (forall g, eligible_words db min_len max_len <> [] ->
        exists w,
          eligible_words db min_len max_len
            !! N.to_nat (peek g mod length_sz (eligible_words db min_len max_len)) = Some w
          /\ sample_word g db min_len max_len = Ret (w, advance g)).
Proof.
  intros Hrep Hle Hlt. split_and!.
  - rewrite (sz_count_exact db), eligible_buckets, count_candidates_concat by done. done.
  - intros i Hi.
    destruct (lookup_lt_is_Some_2 (eligible_words db min_len max_len) (N.to_nat i)) as [w Hw].
    { unfold length_sz in Hi. lia. }
    exists w. split; [done|].
    destruct (eligible_words_prefix db min_len max_len Hle Hlt) as [rest ->].
    by apply bucket_walk_concat.
  - intros g Hne. by apply sample_word_select.
Qed.

Lemma sample_word_is_flat_indexing_witness :
  representable example_db /\ 3 <= 8 /\ 8 < length_sz example_db
  /\ eligible_words example_db 3 8 = [lit "cat"; lit "dog"; lit "mango"; lit "mangrove"]
  /\ exists w,
       eligible_words example_db 3 8 !! N.to_nat 2 = Some w
       /\ bucket_walk (drop (N.to_nat 3) example_db) 2 = Ret w.
Proof.
  assert (representable example_db) as Hrep by reflexivity.
  assert (3 <= 8) as Hle by (vm_compute; discriminate).
  assert (8 < length_sz example_db) as Hlt by reflexivity.
  split; [exact Hrep|]. split; [exact Hle|]. split; [exact Hlt|]. split; [reflexivity|].
  exact (proj1 (proj2 (sample_word_is_flat_indexing example_db 3 8 Hrep Hle Hlt))
           2 eq_refl).
Defined.

(** C2. On a range inside the corpus [sample_word] throws the domain error
    exactly when the buckets min_len, ..., max_len hold no word at all; when
    they hold a word it returns, after one draw, a word of one of these
    buckets; and with no eligible word it returns nothing. The model of
    [sample_word] needs no fuel: its loop walks down the buckets. *)
Theorem sample_word_domain_error_iff (g : Engine) (db : WordDB) (min_len max_len : N) :
  representable db -> min_len <= max_len -> max_len < length_sz db ->
  (sample_word g db min_len max_len = Throw runtime_error
   <-> length (eligible_words db min_len max_len) = 0%nat)
  /\ ((0 < length (eligible_words db min_len max_len))%nat ->
      exists w L,
        sample_word g db min_len max_len = Ret (w, advance g)
        /\ min_len <= L <= max_len /\ w ∈ bucket db L)
  /\ (length (eligible_words db min_len max_len) = 0%nat ->
      forall w g', sample_word g db min_len max_len <> Ret (w, g')).
Proof.
  intros Hrep Hle Hlt.
  assert (length (eligible_words db min_len max_len) = 0%nat ->
          sample_word g db min_len max_len = Throw runtime_error) as Hempty.
  { intros Hnil%length_zero_iff_nil. by apply sample_word_empty. }
  assert ((0 < length (eligible_words db min_len max_len))%nat ->
          exists w L,
            sample_word g db min_len max_len = Ret (w, advance g)
            /\ min_len <= L <= max_len /\ w ∈ bucket db L) as Hsome.
  { intros Hpos.
    destruct (sample_word_select g db min_len max_len Hrep Hle Hlt) as (w & Hw & Hret).
    { intros Hnil. rewrite Hnil in Hpos. simpl in Hpos. lia. }
    apply list_elem_of_lookup_2, eligible_words_elem in Hw as (L & HL & Hin).
    by exists w, L. }
  split_and!; [split|done|].
  - intros Hthrow. destruct (length (eligible_words db min_len max_len)) eqn:E; [done|].
    destruct Hsome as (w & L & Hret & _); [lia|]. congruence.
  - done.
  - intros Hnil w g' Hret. rewrite (Hempty Hnil) in Hret. done.
Qed.

Lemma sample_word_domain_error_iff_witness :
  representable example_db /\ 3 <= 8 /\ 8 < length_sz example_db
  /\ (0 < length (eligible_words example_db 3 8))%nat
  /\ exists w L,
       sample_word (tape_of [5]) example_db 3 8 = Ret (w, advance (tape_of [5]))
       /\ 3 <= L <= 8 /\ w ∈ bucket example_db L.
Proof.
  assert (representable example_db) as Hrep by reflexivity.
  assert (3 <= 8) as Hle by (vm_compute; discriminate).
  assert (8 < length_sz example_db) as Hlt by reflexivity.
  assert (0 < length (eligible_words example_db 3 8))%nat as Hpos by (vm_compute; lia).
  split; [exact Hrep|]. split; [exact Hle|]. split; [exact Hlt|]. split; [exact Hpos|].
  exact (proj1 (proj2 (sample_word_domain_error_iff (tape_of [5]) example_db 3 8
                         Hrep Hle Hlt)) Hpos).
Defined.

(** ** Loading the corpus *)

Lemma string_view_strip (line : str) :
  (2 <= length line)%nat ->
  string_view_from_1 line (sz_sub (length_sz line) 2) = strip_delimiters line.
Proof.
  intros Hlen. unfold string_view_from_1, strip_delimiters, sz_sub, length_sz.
  destruct (N.leb_spec 2 (N.of_nat (length line))); [|lia].
  destruct line as [|c rest]; [simpl in Hlen; lia|]. simpl drop. simpl tail.
  rewrite removelast_firstn_len. f_equal. simpl. lia.
Qed.

Lemma strip_delimiters_length (line : str) :
  length (strip_delimiters line) = (length line - 2)%nat.
Proof.
  unfold strip_delimiters. rewrite removelast_firstn_len, length_take.
  destruct line; simpl; lia.
Qed.

(** The slot a line goes to: its length less 2, when that is below 13. *)
Lemma load_line_slot (db : WordDB) (line : str) :
  length db = 13%nat ->
  load_line db line
  = if decide (2 <= length line <= 14)%nat
    then alter (fun b => b ++ [strip_delimiters line]) (length line - 2)%nat db
    else db.
Proof.
  intros Hdb. unfold load_line.
  destruct (decide (2 <= length line)%nat) as [Hlen|Hshort].
  - rewrite string_view_strip by done. unfold sz_sub, length_sz. rewrite Hdb.
    destruct (N.leb_spec 2 (N.of_nat (length line))); [|lia].
    replace (N.to_nat (N.of_nat (length line) - 2)) with (length line - 2)%nat by lia.
    destruct (N.ltb_spec (N.of_nat (length line) - 2) (N.of_nat 13));
      destruct (decide (2 <= length line <= 14)%nat); try done; lia.
  - unfold sz_sub, length_sz. rewrite Hdb.
    destruct (N.leb_spec 2 (N.of_nat (length line))); [lia|].
    change SZ_MOD with 18446744073709551616.
    destruct (N.ltb_spec (N.of_nat (length line) + 18446744073709551616 - 2) (N.of_nat 13));
      [lia|].
    destruct (decide (2 <= length line <= 14)%nat); [lia|done].
Qed.

Lemma foldl_load_line (lines : list str) :
  forall db : WordDB,
    length db = 13%nat ->
    length (foldl load_line db lines) = 13%nat
    /\ forall L : nat,
         foldl load_line db lines !! L
         = (fun b => b ++ (strip_delimiters <$> entries_of_length L lines)) <$> db !! L.
Proof.
  induction lines as [|line lines IH]; intros db Hdb; simpl.
  - split; [done|]. intros L. unfold entries_of_length. simpl.
    destruct (db !! L); simpl; [|done]. by rewrite app_nil_r.
  - assert (length (load_line db line) = 13%nat) as Hdb'.
    { rewrite load_line_slot by done. destruct (decide _); [|done]. by rewrite length_alter. }
    destruct (IH _ Hdb') as [Hlen Hlookup]. split; [done|].
    intros L. rewrite Hlookup, load_line_slot by done.
    unfold entries_of_length. rewrite filter_cons.
    destruct (decide (2 <= length line <= 14)%nat) as [Hin|Hout].
    + destruct (decide (length line - 2 = L)%nat) as [<-|Hne].
      * rewrite list_lookup_alter_eq. rewrite decide_True by lia.
        destruct (db !! (length line - 2)%nat); simpl; [|done].
        by rewrite <- app_assoc.
      * rewrite list_lookup_alter_ne by done. by rewrite decide_False by lia.
    + destruct (decide (length line = (L + 2)%nat)) as [Heq|Hne]; [|done].
      assert (db !! L = None) as ->; [|done].
      apply lookup_ge_None. lia.
Qed.

(** ** The lines of a file *)

Lemma getlines_fragment (frag : str) :
  forall line, newline ∉ frag -> getlines line frag = [].
Proof.
  induction frag as [|c frag IH]; intros line Hfrag; simpl; [done|].
  apply not_elem_of_cons in Hfrag as [Hc Hfrag].
  destruct (decide (c = newline)); [done|]. by apply IH.
Qed.

Lemma getlines_line (l rest : str) :
  forall line,
    newline ∉ l -> getlines line (l ++ newline :: rest) = (line ++ l) :: getlines [] rest.
Proof.
  induction l as [|c l IH]; intros line Hl; simpl.
  - destruct (decide (newline = newline)); [|done]. by rewrite app_nil_r.
  - apply not_elem_of_cons in Hl as [Hc Hl].
    destruct (decide (c = newline)); [done|].
    rewrite IH by done. by rewrite <- app_assoc.
Qed.

(** The loop sees the lines that end with a newline; what follows the last
    newline is read and left aside. *)
Lemma getlines_terminated (ls : list str) (frag : str) :
  Forall (fun l => newline ∉ l) ls -> newline ∉ frag ->
  getlines [] (concat ((fun l => l ++ [newline]) <$> ls) ++ frag) = ls.
Proof.
  intros Hls Hfrag. induction Hls as [|l ls Hl _ IH].
  - by apply getlines_fragment.
  - rewrite fmap_cons. cbn [concat]. rewrite <- !app_assoc. cbn [app].
    rewrite getlines_line by done. cbn [app]. by rewrite IH.
Qed.

(** The corpus of the lines the loop hands to its body. *)
Lemma load_word_db_getlines (f : str) :
  exists db,
    load_word_db (Some f) = Some db
    /\ length db = 13%nat
    /\ forall L : nat, (L <= 12)%nat ->
         db !! L = Some (strip_delimiters <$> entries_of_length L (getlines [] f)).
Proof.
  eexists. split; [reflexivity|].
  destruct (foldl_load_line (getlines [] f)
              (replicate (N.to_nat (MAX_NICKNAME_LEN + 1)) [])) as [Hlen Hlookup].
  { by rewrite length_replicate. }
  split; [done|]. intros L HL. rewrite Hlookup, lookup_replicate_2; [done|].
  change (N.to_nat (MAX_NICKNAME_LEN + 1)) with 13%nat. lia.
Qed.

Lemma entries_of_length_snoc (L : nat) (ls : list str) (frag : str) :
  length frag = (L + 2)%nat ->
  entries_of_length L (ls ++ [frag]) = entries_of_length L ls ++ [frag].
Proof.
  intros Hfrag. unfold entries_of_length. rewrite filter_app. f_equal.
  rewrite filter_cons_True by done. done.
Qed.

(** Every file is a sequence of lines ended by a newline, followed by the
    characters after the last newline. *)
Lemma file_lines_fragment (f : str) :
  exists (ls : list str) (frag : str),
    f = concat ((fun l => l ++ [newline]) <$> ls) ++ frag
    /\ Forall (fun l => newline ∉ l) ls /\ newline ∉ frag.
Proof.
  induction f as [|c f (ls & frag & -> & Hls & Hfrag)].
  - exists [], []. split_and!; [done|done|]. by intros ?%elem_of_nil.
  - destruct (decide (c = newline)) as [->|Hc].
    + exists ([] :: ls), frag. split_and!; [done| |done].
      constructor; [|done]. by intros ?%elem_of_nil.
    + destruct ls as [|l ls].
      * exists [], (c :: frag). split_and!; [done|done|].
        intros [?|?]%elem_of_cons; [congruence|done].
      * apply Forall_cons in Hls as [Hl Hls].
        exists ((c :: l) :: ls), frag. split_and!; [done| |done].
        constructor; [|done]. intros [?|?]%elem_of_cons; [congruence|done].
Qed.

(** C8. A word list is a sequence of lines [ls], each ended by a newline,
    followed by the characters [frag] after the last newline.
    [load_word_db] builds thirteen buckets; bucket [L], for [L] from 0 to
    12, holds exactly the lines of [ls] whose length less the first and the
    last character is [L], stripped of these two characters and in the
    order of the list; every other line (shorter than 2 characters, or
    longer than 14) is in no bucket; so every word of bucket [L] has length
    [L] and the bucket invariant holds. The characters after the last
    newline are not loaded: when the list ends with an entry of 2 to 14
    characters that no newline follows, this entry is in no bucket, and
    the corpus is not the one of the entries of the list. *)
Theorem load_word_db_buckets (ls : list str) (frag : str) :
  Forall (fun l => newline ∉ l) ls -> newline ∉ frag ->
  exists db,
    load_word_db (Some (concat ((fun l => l ++ [newline]) <$> ls) ++ frag)) = Some db
    /\ length db = 13%nat
    /\ (forall L : nat, (L <= 12)%nat ->
          db !! L = Some (strip_delimiters <$> entries_of_length L ls))
    /\ (forall line, length (strip_delimiters line) = (length line - 2)%nat)
    /\ bucket_invariant db
    /\ (forall (L : nat) (b : list str) (w : str), db !! L = Some b -> w ∈ b ->
          exists line,
            line ∈ ls /\ length line = (L + 2)%nat /\ w = strip_delimiters line)
    /\ ((2 <= length frag <= 14)%nat -> ~ claimed_corpus (ls ++ [frag]) db).
Proof.
  intros Hls Hfrag.
  destruct (load_word_db_getlines (concat ((fun l => l ++ [newline]) <$> ls) ++ frag))
    as (db & Hload & Hlen & Hbuckets).
  rewrite getlines_terminated in Hbuckets by done.
  assert (forall (L : nat) (b : list str) (w : str), db !! L = Some b -> w ∈ b ->
            exists line,
              line ∈ ls /\ length line = (L + 2)%nat /\ w = strip_delimiters line) as Hfrom.
  { intros L b w Hb Hw.
    assert (L <= 12)%nat as HL by (apply lookup_lt_Some in Hb; lia).
    rewrite (Hbuckets L HL) in Hb. injection Hb as <-.
    apply list_elem_of_fmap in Hw as (line & -> & Hline).
    apply list_elem_of_filter in Hline as [Hline Hin]. by exists line. }
  exists db. split_and!; [done|done|done|apply strip_delimiters_length| |done|].
  - intros L b w Hb Hw. destruct (Hfrom L b w Hb Hw) as (line & _ & Hline & ->).
    rewrite strip_delimiters_length. lia.
  - intros Hentry [_ Hclaimed].
    assert (length frag - 2 <= 12)%nat as HL by lia.
    specialize (Hclaimed _ HL). rewrite (Hbuckets _ HL) in Hclaimed.
    injection Hclaimed as Heq. apply (f_equal length) in Heq.
    rewrite entries_of_length_snoc, fmap_app, length_app in Heq by lia.
    simpl in Heq. lia.
Qed.

Lemma load_word_db_buckets_witness :
  Forall (fun l => newline ∉ l) [lit "'cat'"]
  /\ (newline ∉ lit "'dog'")
  /\ load_word_db (Some (lit "'cat'
'dog'"))
     = Some [[]; []; []; [lit "cat"]; []; []; []; []; []; []; []; []; []]
  /\ ~ claimed_corpus [lit "'cat'"; lit "'dog'"]
         [[]; []; []; [lit "cat"]; []; []; []; []; []; []; []; []; []].
Proof.
  assert (newline ∉ lit "'cat'") as Hcat.
  { apply (bool_decide_unpack _). vm_compute. exact I. }
  assert (newline ∉ lit "'dog'") as Hfrag.
  { apply (bool_decide_unpack _). vm_compute. exact I. }
  assert (Forall (fun l => newline ∉ l) [lit "'cat'"]) as Hls by (by constructor).
  destruct (load_word_db_buckets [lit "'cat'"] (lit "'dog'") Hls Hfrag)
    as (db & Hload & _ & _ & _ & _ & _ & Hlost).
  vm_compute in Hload. injection Hload as <-.
  split; [exact Hls|]. split; [exact Hfrag|]. split; [vm_compute; reflexivity|].
  apply Hlost. simpl. lia.
Defined.

(** ** The population phase *)

Lemma size_emplace_le (X : gset str) (x : str) : (size ({[x]} ∪ X) <= S (size X))%nat.
Proof.
  rewrite size_union_alt, size_singleton.
  assert (size (X ∖ {[x]}) <= size X)%nat by (by apply subseteq_size, subseteq_difference_l).
  lia.
Qed.

Lemma emplace_draws (X D : gset str) (x : str) : D ∪ ({[x]} ∪ X) = ({[x]} ∪ D) ∪ X.
Proof. by rewrite (assoc_L (∪)), (comm_L (∪) D). Qed.

Section ExperimentProofs.
Context {Src : Type}.
Variable next_nickname : Src -> result (str * Src).

(** The loop leaves with exactly the target, having put every draw into
    the set; every iteration made one draw. *)
Lemma population_phase_size (fuel : nat) :
  forall (num_initial : N) (w w' : Worker Src),
    size_sz (nickname_db w) <= num_initial ->
    population_phase next_nickname fuel num_initial w = Ret w' ->
    size_sz (nickname_db w') = num_initial
    /\ nickname_db w'
       = list_to_set (population_draws next_nickname fuel num_initial w) ∪ nickname_db w
    /\ num_collisions w' = num_collisions w.
Proof.
  induction fuel as [|fuel IH]; intros num_initial w w' Hsize;
    cbn [population_phase population_draws];
    destruct (N.ltb_spec (size_sz (nickname_db w)) num_initial) as [Hlt|Hge];
    try done;
    try (intros [= <-]; split_and!; [lia|by rewrite list_to_set_nil, (left_id_L ∅ (∪))|done]).
  intros H. bind_inv H. rewrite Hcall. apply IH in H.
  - destruct H as (H1 & H2 & H3). split_and!; [done| |done].
    rewrite H2. simpl. apply emplace_draws.
  - simpl. pose proof (size_emplace_le (nickname_db w) l).
    unfold size_sz in *. lia.
Qed.

(** ** The trial phase *)

Lemma trial_Ret (w w' : Worker Src) :
  trial next_nickname w = Ret w' ->
  exists nickname,
    next_nickname (source w) = Ret (nickname, source w')
    /\ nickname_db w' = nickname_db w
    /\ num_collisions w'
       = num_collisions w + (if decide (nickname ∈ nickname_db w) then 1 else 0).
Proof.
  unfold trial. intros H. bind_inv H. injection H as <-. exists l.
  split_and!; [done|done|]. simpl. destruct (decide _); lia.
Qed.

(** The trial phase changes the counter and the source only; the counter
    grows by the number of draws found in the set. *)
Lemma trial_phase_Ret (n : nat) :
  forall w w' : Worker Src,
    trial_phase next_nickname n w = Ret w' ->
    nickname_db w' = nickname_db w
    /\ exists draws,
         trial_draws next_nickname n (source w) = Ret draws
         /\ length draws = n
         /\ num_collisions w'
            = num_collisions w
              + N.of_nat (length (filter (fun nickname => nickname ∈ nickname_db w) draws)).
Proof.
  induction n as [|n IH]; intros w w'; cbn [trial_phase trial_draws].
  - intros [= <-]. split; [done|]. exists []. split_and!; [done|done|simpl; lia].
  - intros H. bind_inv H.
    apply trial_Ret in Hcall as (nickname & Hdraw & Hdb & Hcount).
    apply IH in H as (Hdb' & draws & Hdraws & Hlen & Hcount').
    split; [congruence|]. exists (nickname :: draws).
    rewrite Hdraw. cbn [mbind result_bind]. rewrite Hdraws. cbn [mbind result_bind].
    split_and!; [done|simpl; lia|].
    rewrite Hcount', Hcount, Hdb, filter_cons.
    destruct (decide (nickname ∈ nickname_db w)); simpl; lia.
Qed.

Lemma run_Ret (fuel : nat) (num_initial num_tries : N) (s : Src) (w : Worker Src) :
  run next_nickname fuel num_initial num_tries s = Ret w ->
  exists pop,
    population_phase next_nickname fuel num_initial (start s) = Ret pop
    /\ trial_phase next_nickname (N.to_nat num_tries)
         {| nickname_db := nickname_db pop; num_collisions := 0; source := source pop |}
       = Ret w.
Proof. unfold run. intros H. bind_inv H. by exists a. Qed.
End ExperimentProofs.

Lemma size_list_to_set_le (l : list str) : (size (list_to_set l : gset str) <= length l)%nat.
Proof.
  induction l as [|x l IH].
  - by rewrite list_to_set_nil, size_empty.
  - rewrite list_to_set_cons. pose proof (size_emplace_le (list_to_set l) x).
    simpl. lia.
Qed.

(** ** The percentage in binary64 *)

Example double_of_sz_100 : double_of_sz 100 = S754_finite false 7036874417766400 (-46).
Proof. reflexivity. Qed.

(** The quotient of two counts below [2 ^ 53], the first not above the
    second: at most 1 and within 2^-50 of the exact quotient. *)
Lemma SF64div_counts (c n : N) :
  0 < c -> c <= n -> n < 2 ^ 53 ->
  exists (m : positive) (e : Z),
    SF64div (double_of_sz c) (double_of_sz n) = S754_finite false m e
    /\ (e <= 1)%Z
    /\ let q := (inject_Z (Z.pos m) * 2 ^ e)%Q in
       let x := (inject_Z (Z.of_N c) / inject_Z (Z.of_N n))%Q in
       (q <= 1 /\ x * (1 - (1 # 2 ^ 50)) <= q <= x * (1 + (1 # 2 ^ 50))
        /\ (c = n -> q == 1))%Q.
Proof.
  intros Hc Hcn Hn.
  destruct (double_of_sz_exact c) as (m1 & e1 & -> & _ & Hv1); [lia|].
  destruct (double_of_sz_exact n) as (m2 & e2 & -> & _ & Hv2); [lia|].
  set (C := Z.of_N c) in *. set (Nn := Z.of_N n) in *.
  assert (0 < C <= Nn /\ Nn < 2 ^ 53)%Z as [[HC HCN] HN].
  { unfold C, Nn. change (2 ^ 53)%Z with (Z.of_N (2 ^ 53)). lia. }
  assert (0 < inject_Z Nn /\ 0 < inject_Z C)%Q as [HNq HCq].
  { change 0%Q with (inject_Z 0). rewrite <- !Zlt_Qlt. lia. }
  (* the grid: 2 ^ k with k = digits c - digits n - 51 *)
  pose proof (Zdigits2_spec C HC) as [HdC1 HdC2].
  pose proof (Zdigits2_spec Nn ltac:(lia)) as [HdN1 HdN2].
  set (dc := Zdigits2 C) in *. set (dn := Zdigits2 Nn) in *.
  assert (1 <= dc <= dn /\ dn <= 53)%Z as [[Hdc1 Hdcn] Hdn].
  { split; [split|].
    - unfold dc. destruct C; simpl; lia.
    - apply Zdigits2_mono. lia.
    - apply Zdigits2_le; lia. }
  set (S := (dn - dc + 51)%Z).
  set (a := (C * 2 ^ S / Nn)%Z).
  assert (0 < 2 ^ S)%Z as HS by (apply Z.pow_pos_nonneg; lia).
  assert (a * Nn <= C * 2 ^ S < (a + 1) * Nn)%Z as [Ha1 Ha2].
  { unfold a. pose proof (Z.mul_div_le (C * 2 ^ S) Nn ltac:(lia)).
    pose proof (Z.mul_succ_div_gt (C * 2 ^ S) Nn ltac:(lia)). lia. }
  assert (2 ^ 50 <= a < 2 ^ 52)%Z as [Ha50 Ha52].
  { assert (2 ^ S = 2 ^ (dn - dc + 1) * 2 ^ 50)%Z as HS1.
    { rewrite <- Z.pow_add_r by lia. f_equal. unfold S. lia. }
    assert (2 ^ dn = 2 ^ (dc - 1) * 2 ^ (dn - dc + 1))%Z as Hdn1.
    { rewrite <- Z.pow_add_r by lia. f_equal. lia. }
    assert (2 ^ dc * 2 ^ S = 2 ^ (dn - 1) * 2 ^ 52)%Z as HS2.
    { rewrite <- !Z.pow_add_r by lia. f_equal. unfold S. lia. }
    assert (0 < 2 ^ (dn - dc + 1))%Z by (apply Z.pow_pos_nonneg; lia).
    split.
    - unfold a. apply Z.div_le_lower_bound; [lia|]. rewrite HS1. nia.
    - unfold a. apply Z.div_lt_upper_bound; [lia|]. nia. }
  set (k := (- S)%Z).
  assert (inject_Z C == inject_Z C * 2 ^ 0)%Q as HC0 by (change (2 ^ 0)%Q with 1%Q; ring).
  assert (forall z : Z, inject_Z (z * Z.pos m2) * 2 ^ (k + e2) == inject_Z (z * Nn) * 2 ^ k)%Q
    as Hden.
  { intros z. rewrite <- Qscaled_mult, Hv2, inject_Z_mult. ring. }
  assert (fexp prec emax (Zdigits2 (a + 1) + k) <= k)%Z as Hfexp.
  { rewrite fexp_eq.
    assert (Zdigits2 (a + 1) <= 53)%Z by (apply Zdigits2_le; lia). unfold k, S. lia. }
  assert (inject_Z (a * Z.pos m2) * 2 ^ (k + e2) <= inject_Z (Z.pos m1) * 2 ^ e1)%Q as H1.
  { rewrite Hden, Hv1, HC0. apply (Qscaled_le _ _ _ _ k); [unfold k; lia..|].
    rewrite Z.sub_diag, Z.pow_0_r. replace (0 - k)%Z with S by (unfold k; lia). lia. }
  assert (inject_Z (Z.pos m1) * 2 ^ e1 <= inject_Z ((a + 1) * Z.pos m2) * 2 ^ (k + e2))%Q as H2.
  { rewrite Hden, Hv1, HC0. apply (Qscaled_le _ _ _ _ k); [unfold k; lia..|].
    rewrite Z.sub_diag, Z.pow_0_r. replace (0 - k)%Z with S by (unfold k; lia). lia. }
  pose proof (SF64div_bounds false false m1 m2 e1 e2 a (a + 1) k
                ltac:(lia) ltac:(lia) Hfexp ltac:(unfold k, S; change (emax - prec)%Z with 971%Z; lia)
                H1 H2) as Hb.
  (* at most 1, and 1 for equal counts *)
  assert (inject_Z (Z.pos m1) * 2 ^ e1 <= inject_Z (1 * Z.pos m2) * 2 ^ (0 + e2))%Q as H3.
  { rewrite Z.mul_1_l, Z.add_0_l, Hv1, Hv2. rewrite <- Zle_Qle. lia. }
  assert (inject_Z (0 * Z.pos m2) * 2 ^ (0 + e2) <= inject_Z (Z.pos m1) * 2 ^ e1)%Q as H4.
  { rewrite Hv1. simpl (0 * _)%Z. change (inject_Z 0) with 0%Q. rewrite Qmult_0_l. lra. }
  pose proof (SF64div_bounds false false m1 m2 e1 e2 0 1 0
                ltac:(lia) ltac:(lia) ltac:(rewrite fexp_eq; simpl; lia) ltac:(reflexivity) H4 H3) as Hb1.
  assert (c = n ->
          inject_Z (1 * Z.pos m2) * 2 ^ (0 + e2) <= inject_Z (Z.pos m1) * 2 ^ e1)%Q as H5.
  { intros Heq. rewrite Z.mul_1_l, Z.add_0_l, Hv1, Hv2. rewrite <- Zle_Qle. lia. }
  destruct (SF64div (S754_finite false m1 e1) (S754_finite false m2 e2))
    as [s|s| |s m e] eqn:E; try done; [destruct Hb as [_ Hb]; lia|].
  destruct Hb as (-> & _ & Hlo & Hhi). destruct Hb1 as (_ & He & _ & Hle1).
  exists m, e. split; [done|]. split; [lia|]. cbv zeta.
  set (q := (inject_Z (Z.pos m) * 2 ^ e)%Q) in *.
  change (2 ^ 0)%Q with 1%Q in Hle1.
  set (x := (inject_Z C / inject_Z Nn)%Q).
  set (step := (2 ^ k)%Q) in *.
  assert (0 < step)%Q as Hstep by apply Qpow2_pos.
  assert (inject_Z a * step <= x <= inject_Z (a + 1) * step)%Q as [Hx1 Hx2].
  { rewrite !Hden, Hv1 in H1, H2. fold step in H1, H2.
    rewrite inject_Z_mult in H1, H2. split.
    - apply Qle_shift_div_l; [done|]. lra.
    - apply Qle_shift_div_r; [done|]. lra. }
  assert (inject_Z (2 ^ 50) <= inject_Z a)%Q as Ha by (by rewrite <- Zle_Qle).
  rewrite inject_Z_plus in Hhi, Hx2. change (inject_Z 1) with 1%Q in *.
  change (inject_Z (2 ^ 50)) with 1125899906842624%Q in Ha.
  change (1 # 2 ^ 50)%Q with (1 # 1125899906842624)%Q.
  assert (1125899906842624 * step <= inject_Z a * step)%Q as Hstep50.
  { apply Qmult_le_compat_r; lra. }
  split_and!; try lra.
  intros Heq. specialize (H5 Heq).
  pose proof (SF64div_bounds false false m1 m2 e1 e2 1 1 0
                ltac:(lia) ltac:(lia) ltac:(rewrite fexp_eq; simpl; lia) ltac:(reflexivity) H5 H3) as Hb2.
  rewrite E in Hb2. destruct Hb2 as (_ & _ & Hge1 & _).
  change (2 ^ 0)%Q with 1%Q in Hge1. change (inject_Z 1) with 1%Q in Hge1.
  fold q in Hge1. apply Qle_antisym; lra.
Qed.

(** The product of a number [q] of at most 1 with 100: at most 100 and
    within 2^-50 of the exact product. *)
Lemma SF64mul_100 (m : positive) (e : Z) :
  let q := (inject_Z (Z.pos m) * 2 ^ e)%Q in
  (e <= 1)%Z -> (inject_Z 1 * 2 ^ (-60) <= q)%Q -> (q <= 1)%Q ->
  exists (m' : positive) (e' : Z),
    SF64mul (S754_finite false m e) (double_of_sz 100) = S754_finite false m' e'
    /\ let p := (inject_Z (Z.pos m') * 2 ^ e')%Q in
       (p <= 100 /\ 100 * q * (1 - (1 # 2 ^ 50)) <= p <= 100 * q * (1 + (1 # 2 ^ 50))
        /\ (q == 1 -> p == 100))%Q.
Proof.
  intros q He Hq60 Hq1. rewrite double_of_sz_100.
  set (mh := 7036874417766400%positive). set (eh := (-46)%Z).
  set (M := (Z.pos m * Z.pos mh)%Z).
  set (y := (inject_Z M * 2 ^ (e + eh))%Q).
  assert (y == 100 * q)%Q as Hy.
  { unfold y, M, q. rewrite <- Qscaled_mult.
    assert (inject_Z (Z.pos mh) * 2 ^ eh == 100)%Q as -> by reflexivity. ring. }
  assert (0 < q)%Q as Hq0.
  { eapply Qlt_le_trans; [|exact Hq60]. reflexivity. }
  assert (y <= inject_Z 100 * 2 ^ 0)%Q as Hy100.
  { change (inject_Z 100 * 2 ^ 0)%Q with (100 * 1)%Q. lra. }
  assert (inject_Z 1 * 2 ^ (-60) <= y)%Q as Hy60 by lra.
  assert (0 < M)%Z as HM by (unfold M; lia).
  set (dM := Zdigits2 M).
  assert (53 <= dM)%Z as HdM.
  { apply (Zdigits2_ge M 52); [lia|]. unfold M, mh. lia. }
  assert (-59 <= dM + e + eh <= 7)%Z as [Hlow Hhigh].
  { split.
    - unfold y in Hy60. apply (Qscaled_le _ _ _ _ (Z.min (-60) (e + eh))) in Hy60; [|lia..].
      pose proof (Zdigits2_scaled_le 1 M (-60 - Z.min (-60) (e + eh))
                    (e + eh - Z.min (-60) (e + eh))
                    ltac:(lia) ltac:(lia) ltac:(lia) ltac:(lia) Hy60) as H.
      simpl (Zdigits2 1) in H. fold dM in H. lia.
    - unfold y in Hy100. apply (Qscaled_le _ _ _ _ (Z.min 0 (e + eh))) in Hy100; [|lia..].
      pose proof (Zdigits2_scaled_le M 100 (e + eh - Z.min 0 (e + eh))
                    (0 - Z.min 0 (e + eh))
                    ltac:(lia) ltac:(lia) ltac:(lia) ltac:(lia) Hy100) as H.
      simpl (Zdigits2 100) in H. fold dM in H. lia. }
  set (t := (dM - 51)%Z).
  assert (0 < 2 ^ t)%Z as Ht by (apply Z.pow_pos_nonneg; unfold t; lia).
  set (a := (M / 2 ^ t)%Z).
  assert (a * 2 ^ t <= M < (a + 1) * 2 ^ t)%Z as [Ha1 Ha2].
  { unfold a. pose proof (Z.mul_div_le M (2 ^ t) Ht).
    pose proof (Z.mul_succ_div_gt M (2 ^ t) Ht). lia. }
  pose proof (Zdigits2_spec M HM) as [HM1 HM2]. fold dM in HM1, HM2.
  assert (2 ^ 50 <= a < 2 ^ 51)%Z as [Ha50 Ha51].
  { assert (2 ^ (dM - 1) = 2 ^ 50 * 2 ^ t)%Z as E1.
    { rewrite <- Z.pow_add_r by (unfold t; lia). f_equal. unfold t. lia. }
    assert (2 ^ dM = 2 ^ 51 * 2 ^ t)%Z as E2.
    { rewrite <- Z.pow_add_r by (unfold t; lia). f_equal. unfold t. lia. }
    split.
    - unfold a. apply Z.div_le_lower_bound; lia.
    - unfold a. apply Z.div_lt_upper_bound; lia. }
  set (k := (e + eh + t)%Z).
  assert (fexp prec emax (Zdigits2 (a + 1) + k) <= k)%Z as Hfexp.
  { rewrite fexp_eq.
    assert (Zdigits2 (a + 1) <= 52)%Z by (apply Zdigits2_le; lia). unfold k, t. lia. }
  assert (inject_Z a * 2 ^ k <= y)%Q as H1.
  { unfold y. apply (Qscaled_le _ _ _ _ (e + eh)); [unfold k, t; lia..|].
    rewrite Z.sub_diag, Z.pow_0_r. replace (k - (e + eh))%Z with t by (unfold k; lia). lia. }
  assert (y <= inject_Z (a + 1) * 2 ^ k)%Q as H2.
  { unfold y. apply (Qscaled_le _ _ _ _ (e + eh)); [unfold k, t; lia..|].
    rewrite Z.sub_diag, Z.pow_0_r. replace (k - (e + eh))%Z with t by (unfold k; lia). lia. }
  pose proof (SF64mul_bounds false false m mh e eh a (a + 1) k
                ltac:(lia) ltac:(lia) ltac:(unfold k, t; lia) Hfexp
                ltac:(unfold k, t; change (emax - prec)%Z with 971%Z; lia) H1 H2) as Hb.
  assert (inject_Z 0 * 2 ^ 0 <= y)%Q as H3.
  { change (inject_Z 0 * 2 ^ 0)%Q with (0 * 1)%Q. lra. }
  pose proof (SF64mul_bounds false false m mh e eh 0 100 0
                ltac:(lia) ltac:(lia) ltac:(unfold eh; lia)
                ltac:(rewrite fexp_eq; simpl; lia) ltac:(reflexivity) H3 Hy100) as Hb1.
  destruct (SF64mul (S754_finite false m e) (S754_finite false mh eh))
    as [s|s| |s m' e'] eqn:E; try done; [destruct Hb as [_ Hb]; lia|].
  destruct Hb as (-> & _ & Hlo & Hhi). destruct Hb1 as (_ & _ & _ & Hle100).
  exists m', e'. split; [done|]. cbv zeta.
  set (p := (inject_Z (Z.pos m') * 2 ^ e')%Q) in *.
  change (inject_Z 100 * 2 ^ 0)%Q with (100 * 1)%Q in Hle100.
  set (step := (2 ^ k)%Q) in *.
  assert (0 < step)%Q as Hstep by apply Qpow2_pos.
  assert (inject_Z (2 ^ 50) <= inject_Z a)%Q as Ha by (by rewrite <- Zle_Qle).
  rewrite inject_Z_plus in Hhi, H2. change (inject_Z 1) with 1%Q in *.
  change (inject_Z (2 ^ 50)) with 1125899906842624%Q in Ha.
  change (1 # 2 ^ 50)%Q with (1 # 1125899906842624)%Q.
  assert (1125899906842624 * step <= inject_Z a * step)%Q as Hstep50.
  { apply Qmult_le_compat_r; lra. }
  split_and!; try lra.
  intros Heq.
  assert (inject_Z 100 * 2 ^ 0 <= y)%Q as H5.
  { change (inject_Z 100 * 2 ^ 0)%Q with (100 * 1)%Q. lra. }
  pose proof (SF64mul_bounds false false m mh e eh 100 100 0
                ltac:(lia) ltac:(lia) ltac:(unfold eh; lia)
                ltac:(rewrite fexp_eq; simpl; lia) ltac:(reflexivity) H5 Hy100) as Hb2.
  rewrite E in Hb2. destruct Hb2 as (_ & _ & Hge & _).
  change (inject_Z 100 * 2 ^ 0)%Q with (100 * 1)%Q in Hge. fold p in Hge.
  apply Qle_antisym; lra.
Qed.

(** The percentage of the code against the exact one. *)
Lemma percentage_close (c n : N) :
  0 < n -> n < 2 ^ 53 -> c <= n ->
  close_percentage c n (percentage c n)
  /\ (c = 0 -> percentage c n = S754_zero false)
  /\ (c = n -> exists p, Q_of_spec_float (percentage c n) = Some p /\ (p == 100)%Q).
Proof.
  intros Hn0 Hn Hcn. unfold percentage, close_percentage, exact_percentage.
  destruct (N.eq_dec c 0) as [->|Hc].
  - destruct (double_of_sz_exact n) as (m2 & e2 & -> & _); [lia|].
    rewrite double_of_sz_0, double_of_sz_100. cbn [SF64div SFdiv SF64mul SFmul xorb].
    split_and!; [|done|lia].
    exists 0%Q. split; [done|]. change (inject_Z (Z.of_N 0)) with 0%Q.
    assert (100 * 0 / inject_Z (Z.of_N n) == 0)%Q as -> by (unfold Qdiv; ring).
    lra.
  - destruct (SF64div_counts c n) as (m & e & -> & He & Hq1 & [Hqlo Hqhi] & Hqeq); [lia..|].
    cbv zeta in *.
    set (q := (inject_Z (Z.pos m) * 2 ^ e)%Q) in *.
    set (x := (inject_Z (Z.of_N c) / inject_Z (Z.of_N n))%Q) in *.
    assert (0 < inject_Z (Z.of_N n))%Q as HNq.
    { change 0%Q with (inject_Z 0). rewrite <- Zlt_Qlt. lia. }
    assert ((1 # 2 ^ 53) <= x)%Q as Hx.
    { unfold x. apply Qle_shift_div_l; [done|].
      assert (inject_Z (Z.of_N n) <= inject_Z (2 ^ 53 * Z.of_N c))%Q as H.
      { rewrite <- Zle_Qle. change (2 ^ 53)%Z with (Z.of_N (2 ^ 53)). lia. }
      rewrite inject_Z_mult in H. change (inject_Z (2 ^ 53)) with 9007199254740992%Q in H.
      change (1 # 2 ^ 53)%Q with (1 # 9007199254740992)%Q. lra. }
    change (1 # 2 ^ 53)%Q with (1 # 9007199254740992)%Q in Hx.
    change (1 # 2 ^ 50)%Q with (1 # 1125899906842624)%Q in Hqlo, Hqhi.
    destruct (SF64mul_100 m e He) as (m' & e' & -> & Hp100 & [Hplo Hphi] & Hpeq).
    { fold q. change (inject_Z 1 * 2 ^ (-60))%Q with (1 # 1152921504606846976)%Q. lra. }
    { done. }
    cbv zeta in *. fold q in Hplo, Hphi, Hpeq.
    set (p := (inject_Z (Z.pos m') * 2 ^ e')%Q) in *.
    change (1 # 2 ^ 50)%Q with (1 # 1125899906842624)%Q in Hplo, Hphi.
    assert (100 * inject_Z (Z.of_N c) / inject_Z (Z.of_N n) == 100 * x)%Q as Hex
      by (unfold x, Qdiv; ring).
    split_and!.
    + exists p. split; [done|]. rewrite Hex.
      change (1 # 2 ^ 48)%Q with (1 # 281474976710656)%Q.
      split_and!; lra.
    + done.
    + intros Heq. exists p. split; [done|]. apply Hpeq. by apply Hqeq.
Qed.
(** C5. In every variant (whatever the draw of a nickname is), a population
    phase that starts from the empty set and terminates leaves a set of
    exactly [num_initial] distinct nicknames (the experiments run it with
    NUM_INITIAL_NICKNAMES = 10,000,000): the set is the set of the nicknames
    drawn, a draw that is already in the set does not let it grow, so the
    loop may make more draws than the target, and it never overshoots. *)
Theorem population_phase_exact {Src : Type} (next_nickname : Src -> result (str * Src))
  (fuel : nat) (num_initial : N) (s : Src) (w : Worker Src) :
  population_phase next_nickname fuel num_initial (start s) = Ret w ->
  size_sz (nickname_db w) = num_initial
  /\ nickname_db w
     = list_to_set (population_draws next_nickname fuel num_initial (start s))
  /\ num_initial <= length_sz (population_draws next_nickname fuel num_initial (start s))
  /\ (forall (X : gset str) (x : str), x ∈ X -> size ({[x]} ∪ X) = size X)
  /\ (num_initial = NUM_INITIAL_NICKNAMES -> size_sz (nickname_db w) = 10000000).
Proof.
  intros H. apply population_phase_size in H as (Hsize & Hset & _).
  2: { unfold size_sz, start. cbn [nickname_db]. rewrite size_empty. lia. }
  unfold start at 2 in Hset. cbn [nickname_db] in Hset.
  rewrite (right_id_L ∅ (∪)) in Hset.
  split_and!; [done|done| | |].
  - pose proof (size_list_to_set_le
                  (population_draws next_nickname fuel num_initial (start s))) as Hle.
    rewrite <- Hset in Hle. unfold size_sz, length_sz in *. lia.
  - intros X x Hx. f_equal. apply subseteq_union_1_L. by apply singleton_subseteq_l.
  - intros Hn. by rewrite Hsize, Hn.
Qed.

Lemma population_phase_exact_witness :
  population_phase (draw_reuse example_db 8) 40 2 (start example_start)
  = Ret example_population
  /\ size_sz (nickname_db example_population) = 2.
Proof.
  assert (population_phase (draw_reuse example_db 8) 40 2 (start example_start)
          = Ret example_population) as Hrun by (vm_compute; reflexivity).
  split; [exact Hrun|].
  exact (proj1 (population_phase_exact (draw_reuse example_db 8) 40 2 example_start
                  example_population Hrun)).
Defined.

(** C6. In every variant, an experiment that runs to its end reports
    {num_tries, collision_count, percentage} (the experiments run with
    NUM_TRIES = 50,000,000; the number of trials is below 2^53): exactly
    [num_tries] trial draws are made, the collision count is the number of
    them that are members of the set the population phase built, and it is
    at most [num_tries]. The percentage is the binary64 number the code
    computes, collision_count / num_tries * 100 with two roundings: it
    lies between 0 and 100, it is within a relative error of 2^-48 of
    100 * collision_count / num_tries, it is 0 when nothing collides and
    100 when every trial collides. *)
Theorem run_report {Src : Type} (next_nickname : Src -> result (str * Src))
  (fuel : nat) (num_initial num_tries : N) (s : Src) (w : Worker Src) :
  0 < num_tries -> num_tries < 2 ^ 53 ->
  run next_nickname fuel num_initial num_tries s = Ret w ->
  exists pop draws p,
    population_phase next_nickname fuel num_initial (start s) = Ret pop
    /\ trial_draws next_nickname (N.to_nat num_tries) (source pop) = Ret draws
    /\ length_sz draws = num_tries
    /\ num_collisions w
       = length_sz (filter (fun nickname => nickname ∈ nickname_db pop) draws)
    /\ num_collisions w <= num_tries
    /\ report num_tries w
       = (num_tries, num_collisions w,
          SF64mul (SF64div (double_of_sz (num_collisions w)) (double_of_sz num_tries))
                  (double_of_sz 100))
    /\ Q_of_spec_float (report num_tries w).2 = Some p
    /\ (0 <= p <= 100)%Q
    /\ (exact_percentage (num_collisions w) num_tries * (1 - (1 # 2 ^ 48)) <= p)%Q
    /\ (p <= exact_percentage (num_collisions w) num_tries * (1 + (1 # 2 ^ 48)))%Q
    /\ (num_collisions w = 0 -> (p == 0)%Q)
    /\ (num_collisions w = num_tries -> (p == 100)%Q).
Proof.
  intros Hpos Hsmall (pop & Hpop & Htrial)%run_Ret.
  apply trial_phase_Ret in Htrial as (_ & draws & Hdraws & Hlen & Hcount).
  simpl in Hdraws, Hcount.
  assert (num_collisions w <= num_tries) as Hle.
  { rewrite Hcount.
    pose proof (length_filter (fun nickname => nickname ∈ nickname_db pop) draws). lia. }
  destruct (percentage_close (num_collisions w) num_tries Hpos Hsmall Hle)
    as ((p & Hp & Hb & Hlo & Hhi) & Hzero & Hall).
  exists pop, draws, p.
  do 3 (split; [first [done | unfold length_sz; lia]|]).
  do 3 (split; [done|]).
  do 4 (split; [done|]).
  split.
  - intros H0. specialize (Hzero H0). rewrite Hzero in Hp. by injection Hp as <-.
  - intros Heq. destruct (Hall Heq) as (p' & Hp' & Hv).
    rewrite Hp' in Hp. by injection Hp as <-.
Qed.

Lemma run_report_witness :
  0 < 6 /\ 6 < 2 ^ 53
  /\ run (draw_reuse mangrove_db 8) 2 1 6 (tape_of []) = Ret mangrove_final
  /\ report 6 mangrove_final = (6, 6, double_of_sz 100)
  /\ exists p, Q_of_spec_float (report 6 mangrove_final).2 = Some p /\ (0 <= p <= 100)%Q.
Proof.
  assert (0 < 6) as Hpos by reflexivity.
  assert (6 < 2 ^ 53) as Hsmall by reflexivity.
  assert (run (draw_reuse mangrove_db 8) 2 1 6 (tape_of []) = Ret mangrove_final) as Hrun
    by (vm_compute; reflexivity).
  split; [exact Hpos|]. split; [exact Hsmall|]. split; [exact Hrun|].
  split; [vm_compute; reflexivity|].
  destruct (run_report (draw_reuse mangrove_db 8) 2 1 6 (tape_of []) mangrove_final
              Hpos Hsmall Hrun)
    as (pop & draws & p & _ & _ & _ & _ & _ & _ & Hp & Hbounds & _).
  exists p. split; [exact Hp|exact Hbounds].
Defined.

(** The experiment on the source [counting_draw hits], begun with one
    nickname: the trials count the draws that give [hit]. *)
Lemma trial_phase_counting (hits : N) (n : nat) :
  forall (c s : N),
    trial_phase (counting_draw hits) n
      {| nickname_db := {[lit "hit"]}; num_collisions := c; source := s |}
    = Ret {| nickname_db := {[lit "hit"]};
             num_collisions :=
               c + (N.min (s + N.of_nat n) (hits + 1) - N.min s (hits + 1));
             source := s + N.of_nat n |}.
Proof.
  induction n as [|n IH]; intros c s; cbn [trial_phase].
  - do 2 f_equal; lia.
  - unfold trial at 1. cbn [source nickname_db num_collisions].
    assert (counting_draw hits s
            = Ret (if s <=? hits then lit "hit" else lit "miss", s + 1)) as -> by done.
    cbn [mbind result_bind].
    destruct (N.leb_spec s hits) as [Hs|Hs].
    + rewrite decide_True by (by apply elem_of_singleton).
      rewrite IH. do 2 f_equal; lia.
    + rewrite decide_False by (by intros ?%elem_of_singleton).
      rewrite IH. do 2 f_equal; lia.
Qed.

Lemma population_phase_counting (hits : N) :
  population_phase (counting_draw hits) 1 1 (start 0)
  = Ret {| nickname_db := {[lit "hit"]}; num_collisions := 0; source := 1 |}.
Proof.
  unfold start. cbn [population_phase nickname_db source num_collisions].
  unfold size_sz. rewrite size_empty.
  assert (counting_draw hits 0 = Ret (lit "hit", 1)) as -> by (by destruct hits).
  cbn [mbind result_bind]. by rewrite (right_id_L ∅ (∪)), size_singleton.
Qed.

Lemma run_counting (hits num_tries : N) :
  exists w,
    run (counting_draw hits) 1 1 num_tries 0 = Ret w
    /\ num_collisions w = N.min num_tries hits.
Proof.
  eexists. split.
  - unfold run. rewrite population_phase_counting. cbn [mbind result_bind nickname_db source].
    apply trial_phase_counting.
  - cbn [num_collisions]. lia.
Qed.

(** The report is not the one the claim describes: 7 collisions in 100
    trials are reported as 7.000000000000001 per cent, and so are 3,500,000
    collisions in the 50,000,000 trials of the experiments, where the
    binary64 value of the expression [100 * count / NUM_TRIES] would be 7. *)
Lemma run_report_counterexample :
  run (counting_draw 7) 1 1 100 0 = Ret counting_final
  /\ num_collisions counting_final = 7
  /\ Q_of_spec_float (report 100 counting_final).2 = Some (7 + (1 # 2 ^ 50))%Q
  /\ ~ claimed_report 100 7 (report 100 counting_final)
  /\ (exists w,
        run (counting_draw 3500000) 1 1 NUM_TRIES 0 = Ret w
        /\ num_collisions w = 3500000
        /\ Q_of_spec_float (report NUM_TRIES w).2 = Some (7 + (1 # 2 ^ 50))%Q
        /\ ~ claimed_report NUM_TRIES 3500000 (report NUM_TRIES w))
  /\ SF64div (SF64mul (double_of_sz 100) (double_of_sz 3500000)) (double_of_sz NUM_TRIES)
     = double_of_sz 7
  /\ percentage 3500000 NUM_TRIES <> double_of_sz 7.
Proof.
  split_and!.
  - vm_compute. reflexivity.
  - reflexivity.
  - vm_compute. reflexivity.
  - intros (_ & _ & p & Hp & Heq). vm_compute in Hp. injection Hp as <-.
    vm_compute in Heq. discriminate.
  - destruct (run_counting 3500000 NUM_TRIES) as (w & Hrun & Hcount).
    change (N.min NUM_TRIES 3500000) with 3500000 in Hcount.
    exists w. unfold report. rewrite Hcount. cbn [snd]. split_and!; [done|done| |].
    + vm_compute. reflexivity.
    + intros (_ & _ & p & Hp & Heq). vm_compute in Hp. injection Hp as <-.
      vm_compute in Heq. discriminate.
  - vm_compute. reflexivity.
  - vm_compute. discriminate.
Qed.

(** C7. In every variant the trial phase never changes the set of
    nicknames: after any number of trials the set is the one the population
    phase left, and so is the set when the experiment ends. *)
Theorem trial_phase_read_only {Src : Type} (next_nickname : Src -> result (str * Src))
  (fuel : nat) (num_initial num_tries : N) (s : Src) (w : Worker Src) :
  run next_nickname fuel num_initial num_tries s = Ret w ->
  exists pop,
    population_phase next_nickname fuel num_initial (start s) = Ret pop
    /\ nickname_db w = nickname_db pop
    /\ forall (k : nat) (wk : Worker Src),
         trial_phase next_nickname k
           {| nickname_db := nickname_db pop; num_collisions := 0; source := source pop |}
         = Ret wk ->
         nickname_db wk = nickname_db pop.
Proof.
  intros (pop & Hpop & Htrial)%run_Ret. exists pop. split_and!; [done| |].
  - by apply trial_phase_Ret in Htrial as [-> _].
  - intros k wk Hk. by apply trial_phase_Ret in Hk as [-> _].
Qed.

Lemma trial_phase_read_only_witness :
  run (draw_reuse example_db 8) 40 2 6 example_start = Ret example_final
  /\ nickname_db example_final = nickname_db example_population.
Proof.
  assert (run (draw_reuse example_db 8) 40 2 6 example_start = Ret example_final) as Hrun
    by (vm_compute; reflexivity).
  split; [exact Hrun|].
  destruct (trial_phase_read_only (draw_reuse example_db 8) 40 2 6 example_start
              example_final Hrun) as (pop & Hpop & Hdb & _).
  assert (population_phase (draw_reuse example_db 8) 40 2 (start example_start)
          = Ret example_population) as Hpop' by (vm_compute; reflexivity).
  rewrite Hpop' in Hpop. injection Hpop as <-. exact Hdb.
Defined.

(** ** The four experiments *)

Lemma run_summary {Src : Type} (next_nickname : Src -> result (str * Src))
  (fuel : nat) (num_initial num_tries : N) (s : Src) (w : Worker Src) :
  0 < num_tries -> num_tries < 2 ^ 53 ->
  run next_nickname fuel num_initial num_tries s = Ret w ->
  size_sz (nickname_db w) = num_initial
  /\ num_collisions w <= num_tries
  /\ close_percentage (num_collisions w) num_tries (percentage (num_collisions w) num_tries).
Proof.
  intros Hpos Hsmall (pop & Hpop & Htrial)%run_Ret.
  apply population_phase_size in Hpop as (Hsize & _).
  2: { unfold size_sz, start. cbn [nickname_db]. rewrite size_empty. lia. }
  apply trial_phase_Ret in Htrial as (Hdb & draws & _ & Hlen & Hcount).
  cbn [nickname_db num_collisions] in Hdb, Hcount.
  assert (num_collisions w <= num_tries) as Hle.
  { rewrite Hcount.
    pose proof (length_filter (fun nickname => nickname ∈ nickname_db pop) draws). lia. }
  split_and!; [congruence|done|by apply percentage_close].
Qed.

(** With nothing to start with, nothing collides. *)
Lemma run_empty_population {Src : Type} (next_nickname : Src -> result (str * Src))
  (fuel : nat) (num_tries : N) (s : Src) (w : Worker Src) :
  run next_nickname fuel 0 num_tries s = Ret w ->
  nickname_db w = ∅ /\ num_collisions w = 0.
Proof.
  intros (pop & Hpop & Htrial)%run_Ret.
  assert (pop = start s) as ->.
  { destruct fuel; cbn [population_phase] in Hpop;
      unfold size_sz, start in Hpop; cbn [nickname_db] in Hpop;
      rewrite size_empty in Hpop; by injection Hpop as <-. }
  apply trial_phase_Ret in Htrial as (Hdb & draws & _ & _ & Hcount).
  cbn [start nickname_db num_collisions] in Hdb, Hcount. split; [done|].
  rewrite Hcount. clear. induction draws as [|x draws IH]; [done|].
  rewrite filter_cons. destruct (decide (x ∈ (∅ : gset str))) as [Hx|_]; [|done].
  by apply not_elem_of_empty in Hx.
Qed.

Section VariantProofs.
Variable mt19937 mt19937_64 : N -> Engine.
Variable word_db : WordDB.
Variable nickname_fuel : nat.

Lemma report_sound {Src : Type} (w : Worker Src) :
  num_collisions w <= NUM_TRIES ->
  close_percentage (num_collisions w) NUM_TRIES (percentage (num_collisions w) NUM_TRIES) ->
  sound_report (report NUM_TRIES w).
Proof. intros Hle Hb. unfold sound_report, report. cbn [fst snd]. by split_and!. Qed.

Lemma experiment_reuse_summary (engine_of : N -> Engine) (fuel : nat) (d : Device)
  (w : Worker Engine) :
  experiment_reuse word_db nickname_fuel engine_of fuel NUM_INITIAL_NICKNAMES NUM_TRIES d
  = Ret w ->
  size_sz (nickname_db w) = NUM_INITIAL_NICKNAMES /\ sound_report (report NUM_TRIES w).
Proof.
  unfold experiment_reuse. destruct (random_device d) as [seed d'].
  intros (Hsize & Hle & Hb)%run_summary; [|reflexivity..].
  split; [done|]. by apply report_sound.
Qed.

Lemma experiment_recreate_summary (engine_of : N -> Engine) (fuel : nat) (d : Device)
  (w : Worker Device) :
  experiment_recreate word_db nickname_fuel engine_of fuel NUM_INITIAL_NICKNAMES NUM_TRIES d
  = Ret w ->
  size_sz (nickname_db w) = NUM_INITIAL_NICKNAMES /\ sound_report (report NUM_TRIES w).
Proof.
  unfold experiment_recreate.
  intros (Hsize & Hle & Hb)%run_summary; [|reflexivity..].
  split; [done|]. by apply report_sound.
Qed.

Lemma case01_report (fuel : nat) (d : Device) (out : N * N * spec_float) :
  case01 mt19937 word_db nickname_fuel fuel d = Ret out -> sound_report out.
Proof.
  unfold case01. intros H. bind_inv H. injection H as <-.
  by apply experiment_reuse_summary in Hcall as [_ ?].
Qed.

Lemma case02_report (fuel : nat) (d : Device) (out : N * N * spec_float) :
  case02 mt19937 word_db nickname_fuel fuel d = Ret out -> sound_report out.
Proof.
  unfold case02. intros H. bind_inv H. injection H as <-.
  by apply experiment_recreate_summary in Hcall as [_ ?].
Qed.

Lemma case03_report (fuel : nat) (d : Device) (out : N * N * spec_float) :
  case03 mt19937_64 word_db nickname_fuel fuel d = Ret out -> sound_report out.
Proof.
  unfold case03. intros H. bind_inv H. injection H as <-.
  by apply experiment_reuse_summary in Hcall as [_ ?].
Qed.

Lemma case04_report (fuel : nat) (d : Device) (out : N * N * spec_float) :
  case04 mt19937_64 word_db nickname_fuel fuel d = Ret out -> sound_report out.
Proof.
  unfold case04. intros H. bind_inv H. injection H as <-.
  by apply experiment_recreate_summary in Hcall as [_ ?].
Qed.
End VariantProofs.

(** ** Examples *)

(** The binary64 operations of the model against the primitive floats of
    the machine, at some counts of the experiments and at a word of 8
    letters. *)
Example binary64_primitive :
  Prim2SF (1 / 50000000 * 100)%float = percentage 1 NUM_TRIES
  /\ Prim2SF (28188793 / 50000000 * 100)%float = percentage 28188793 NUM_TRIES
  /\ Prim2SF (3500000 / 50000000 * 100)%float = percentage 3500000 NUM_TRIES
  /\ Prim2SF (49999999 / 50000000 * 100)%float = percentage 49999999 NUM_TRIES
  /\ Prim2SF (8 / 0x1.599999999999ap+1)%float = SF64div (double_of_sz 8) double_2_7.
Proof. split_and!; vm_compute; reflexivity. Qed.

(** The literal [2.7] is the binary64 number nearest to 27 / 10, which the
    correctly rounded quotient of 27 by 10 is. *)
Example double_2_7_nearest :
  SF64div (double_of_sz 27) (double_of_sz 10) = double_2_7
  /\ exists v, Q_of_spec_float double_2_7 = Some v /\ (v == (27 # 10) + (1 # 5 * 2 ^ 50))%Q.
Proof.
  split; [vm_compute; reflexivity|]. eexists. split; [reflexivity|].
  vm_compute. reflexivity.
Qed.

Example load_word_db_example :
  load_word_db (Some example_file)
  = Some [[lit ""]; [lit "x"]; []; [lit "cat"; lit "dog"]; []; []; []; [];
          [lit "mangrove"]; []; []; []; []].
Proof. reflexivity. Qed.

Example load_word_db_unreadable : load_word_db None = None.
Proof. reflexivity. Qed.

Example sample_word_no_words :
  sample_word (tape_of []) example_db 6 7 = Throw runtime_error.
Proof. reflexivity. Qed.

Example sample_word_past_the_corpus :
  sample_word (tape_of []) example_db 3 13 = Undefined.
Proof. reflexivity. Qed.

(** A factor below 1 asks for more replacements than the word has
    characters: the loop indexes the emptied vector. *)
Example mangle_small_factor :
  mangle (tape_of []) (lit "ab") (1 # 2) = Undefined.
Proof. reflexivity. Qed.

(** A factor large enough to ask for no replacement leaves the word as it
    is, and the piece begins with its capital. *)
Example mangrove_piece :
  sample_and_mangle_word (tape_of []) mangrove_db 8 8 100
  = Ret (lit "mangrove", tape_after [] 1)
  /\ capitalize (lit "mangrove") = lit "Mangrove".
Proof. split; reflexivity. Qed.

Example sample_nickname_example :
  sample_nickname 8 (tape_of []) example_db SAMPLE_NICKNAME_OPT
  = Ret (lit "Aata0Aat", tape_after [] 11).
Proof. reflexivity. Qed.

(** The engine-recreating experiment on the small corpus. *)
Example experiment_recreate_example :
  (report 6 <$> match experiment_recreate example_db 8 example_engine_of 40 2 6 example_device with
                | Ret w => Some w
                | _ => None
                end)
  = Some (6, 0, S754_zero false).
Proof. by vm_compute. Qed.

Example mangle_example :
  mangle (tape_of [5; 3; 1; 7; 0; 9]) (lit "mangrove") MANGLING_FACTOR
  = Ret (lit "j7ngr3ve", tape_after [5; 3; 1; 7; 0; 9] 6)
  /\ mangle_writes 3 (tape_of [5; 3; 1; 7; 0; 9]) (iota 8)
     = [(5, "3"%char); (1, "7"%char); (0, "j"%char)].
Proof. split; reflexivity. Qed.

(** * Further properties of the code *)

(** ** The character samplers *)

Lemma draw_of_ascii_of_draw (n : N) : n < 62 -> draw_of_ascii (ascii_of_draw n) = n.
Proof.
  intros Hn.
  assert ((draw_of_ascii (ascii_of_draw n) =? n) = true) as H.
  { by apply (N_below_forall (fun n => draw_of_ascii (ascii_of_draw n) =? n) 62). }
  by apply N.eqb_eq in H.
Qed.

Lemma ascii_of_draw_of_ascii (c : ascii) :
  is_alnum c = true -> draw_of_ascii c < 62 /\ ascii_of_draw (draw_of_ascii c) = c.
Proof. destruct c as [[] [] [] [] [] [] [] []]; vm_compute; try done; by split. Qed.

(** X1. [sample_ascii] always returns, after one draw, and the character it
    returns is in one-to-one correspondence with the number drawn modulo 62:
    every one of the 62 letters and digits is returned for exactly one
    residue, so digits and letters are weighted by their counts. *)
Theorem sample_ascii_one_residue_per_symbol (g : Engine) (c : ascii) (g' : Engine) :
  sample_ascii g = Ret (c, g')
  <-> g' = advance g /\ is_alnum c = true /\ peek g mod 62 = draw_of_ascii c.
Proof.
  rewrite sample_ascii_eq. split.
  - intros [= <- <-].
    assert (peek g mod 62 < 62) as Hlt by (by apply N.mod_upper_bound).
    split_and!; [done|by apply ascii_of_draw_alnum|by rewrite draw_of_ascii_of_draw].
  - intros (-> & Hc & ->). by destruct (ascii_of_draw_of_ascii c Hc) as [_ ->].
Qed.

(** ** [sample_word] outside the ranges of the experiments *)

Lemma sample_word_fits (g : Engine) (db : WordDB) (min_len max_len : N) :
  min_len + sz_add (sz_sub max_len min_len) 1 <= length_sz db ->
  sample_word g db min_len max_len = Throw runtime_error
  \/ exists w, sample_word g db min_len max_len = Ret (w, advance g).
Proof.
  intros Hfit. unfold sample_word. set (count := sz_add (sz_sub max_len min_len) 1) in *.
  destruct (N.leb_spec (min_len + count) (length_sz db)) as [_|]; [|lia].
  cbn [negb]. set (it := drop (N.to_nat min_len) db).
  rewrite count_candidates_concat. set (flat := concat (take (N.to_nat count) it)).
  destruct (N.eqb_spec (length_sz flat) 0) as [|Hne]; [by left|right].
  rewrite uniform_int_ok by lia. cbn [mbind result_bind].
  replace (length_sz flat - 1 - 0 + 1) with (length_sz flat) by lia.
  rewrite N.add_0_l.
  assert (peek g mod length_sz flat < length_sz flat) as Hidx
    by (by apply N.mod_upper_bound).
  set (idx := peek g mod length_sz flat) in *.
  destruct (lookup_lt_is_Some_2 flat (N.to_nat idx)) as [w Hw].
  { unfold length_sz in Hidx. lia. }
  exists w. rewrite <- (take_drop (N.to_nat count) it).
  by rewrite (bucket_walk_concat _ _ idx w Hw).
Qed.

(** X4. The behaviour of [sample_word] is undefined exactly when the range
    it is asked for reaches past the buckets of the corpus. Inside the
    corpus it throws the domain error or returns, and a word it returns was
    taken with exactly one draw from a bucket of the corpus; [vector::at]
    never throws. *)
Theorem sample_word_undefined_iff (g : Engine) (db : WordDB) (min_len max_len : N) :
  (sample_word g db min_len max_len = Undefined
   <-> length_sz db < min_len + sz_add (sz_sub max_len min_len) 1)
  /\ sample_word g db min_len max_len <> Throw out_of_range
  /\ (forall w g',
        sample_word g db min_len max_len = Ret (w, g') ->
        g' = advance g
        /\ exists (L : nat) (b : list str), db !! L = Some b /\ w ∈ b).
Proof.
  split_and!.
  - split.
    + intros Hu.
      destruct (N.le_gt_cases (min_len + sz_add (sz_sub max_len min_len) 1) (length_sz db))
        as [Hfit|Hout]; [|lia].
      destruct (sample_word_fits g db min_len max_len Hfit) as [H|[w H]]; congruence.
    + intros Hout. unfold sample_word.
      by destruct (N.leb_spec (min_len + sz_add (sz_sub max_len min_len) 1) (length_sz db));
        [lia|].
  - destruct (N.le_gt_cases (min_len + sz_add (sz_sub max_len min_len) 1) (length_sz db))
      as [Hfit|Hout].
    + destruct (sample_word_fits g db min_len max_len Hfit) as [H|[w H]]; congruence.
    + unfold sample_word.
      by destruct (N.leb_spec (min_len + sz_add (sz_sub max_len min_len) 1) (length_sz db));
        [lia|].
  - intros w g' (Hg & _ & j & b & _ & Hb & Hw)%sample_word_Ret.
    split; [done|]. by exists (N.to_nat min_len + j)%nat, b.
Qed.

(** X5. A reversed range: with [min_len = max_len + 1] the unsigned count
    [max_len - min_len + 1] wraps to 0 and [sample_word] throws the domain
    error; with [max_len + 1 < min_len] the count wraps to a number of
    buckets no corpus has and the behaviour is undefined. *)
Theorem sample_word_reversed_range (g : Engine) (db : WordDB) (min_len max_len : N) :
  representable db -> min_len < SZ_MOD -> max_len < min_len ->
  (min_len = max_len + 1 -> min_len <= length_sz db ->
   sample_word g db min_len max_len = Throw runtime_error)
  /\ (max_len + 1 < min_len -> sample_word g db min_len max_len = Undefined).
Proof.
  unfold representable. intros Hrep Hsz Hrev.
  assert (sz_sub max_len min_len = max_len + SZ_MOD - min_len) as Hsub.
  { unfold sz_sub. destruct (N.leb_spec min_len max_len); [lia|done]. }
  split.
  - intros -> Hin. unfold sample_word. rewrite Hsub.
    replace (max_len + SZ_MOD - (max_len + 1)) with (SZ_MOD - 1) by lia.
    unfold sz_add. replace (SZ_MOD - 1 + 1) with SZ_MOD by (unfold SZ_MOD; lia).
    rewrite N.Div0.mod_same.
    destruct (N.leb_spec (max_len + 1 + 0) (length_sz db)); [|lia]. done.
  - intros Hgap. unfold sample_word. rewrite Hsub. unfold sz_add.
    rewrite N.mod_small by (change SZ_MOD with 18446744073709551616 in *; lia).
    destruct (N.leb_spec (min_len + (max_len + SZ_MOD - min_len + 1)) (length_sz db));
      [|done].
    change SZ_MOD with 18446744073709551616 in *. lia.
Qed.

Lemma sample_word_reversed_range_witness :
  representable example_db /\ 4 < SZ_MOD /\ 3 < 4
  /\ sample_word (tape_of []) example_db 4 3 = Throw runtime_error.
Proof.
  assert (representable example_db) as Hrep by reflexivity.
  assert (4 < SZ_MOD) as Hsz by reflexivity.
  assert (3 < 4) as Hrev by reflexivity.
  split; [exact Hrep|]. split; [exact Hsz|]. split; [exact Hrev|].
  refine (proj1 (sample_word_reversed_range (tape_of []) example_db 4 3 Hrep Hsz Hrev) _ _).
  - reflexivity.
  - vm_compute. discriminate.
Defined.

(** ** The mangling step for any factor *)

Lemma uniform_int_from_0 (b : N) (g : Engine) :
  exists idx, uniform_int 0 b g = Ret (idx, advance g).
Proof. rewrite uniform_int_ok by lia. by eexists. Qed.

(** Asked for more replacements than there are indices, the loop ends by
    indexing the emptied vector. *)
Lemma mangle_loop_exhausts (n : nat) :
  forall g piece indices,
    (length indices < n)%nat -> mangle_loop n g piece indices = Undefined.
Proof.
  induction n as [|n IH]; intros g piece indices Hn; [lia|]. cbn [mangle_loop].
  destruct indices as [|i0 indices'] eqn:E.
  - destruct (uniform_int_from_0 (sz_sub (length_sz (@nil N)) 1) g) as [idx ->].
    cbn [mbind result_bind]. by rewrite lookup_nil.
  - rewrite <- E in *.
    destruct (mangle_draw indices g) as (idx & chosen & back & Hu & Hc & Hb); [by subst|].
    rewrite Hu. cbn [mbind result_bind]. rewrite Hc, Hb. cbv zeta.
    assert (length (take (pred (length indices)) (<[N.to_nat idx:=back]> indices)) < n)%nat.
    { rewrite length_take, length_insert. subst indices. simpl in *. lia. }
    destruct (chosen =? 0).
    + rewrite sample_ascii_lower_eq. cbn [mbind result_bind]. by apply IH.
    + rewrite sample_ascii_eq. cbn [mbind result_bind]. by apply IH.
Qed.

(** What a call of the mangling step that returns has computed. *)
Lemma mangle_b64_Ret (g : Engine) (w : str) (mangling_factor : spec_float)
  (piece : str) (g' : Engine) :
  mangle_b64 g w mangling_factor = Ret (piece, g') ->
  exists (q : Q) (k : Z),
    Q_of_spec_float (SF64div (double_of_sz (length_sz w)) mangling_factor) = Some q
    /\ rounds_to q k
    /\ (INT32_MIN < k <= INT32_MAX)%Z
    /\ (k <= Z.of_nat (length w))%Z
    /\ mangle_loop (Z.to_nat k) g w (iota (length w)) = Ret (piece, g').
Proof.
  unfold mangle_b64, magling_magnitude.
  destruct (round_to_i32 _) as [k|] eqn:E; [|done].
  apply round_to_i32_inv in E as (q & Hq & Hr & Hk).
  destruct (Z.eqb_spec k INT32_MIN) as [|Hne]; [done|]. intros Hloop.
  exists q, k. split_and!; [done|done|lia|lia| |done].
  destruct (decide (k <= Z.of_nat (length w))%Z) as [|Hmany]; [done|].
  rewrite mangle_loop_exhausts in Hloop; [done|]. rewrite iota_length. lia.
Qed.

Lemma mangle_b64_safe (g : Engine) (w : str) (mangling_factor : spec_float) (q : Q) (k : Z) :
  Q_of_spec_float (SF64div (double_of_sz (length_sz w)) mangling_factor) = Some q ->
  rounds_to q k -> (INT32_MIN < k <= INT32_MAX)%Z -> (k <= Z.of_nat (length w))%Z ->
  mangle_b64 g w mangling_factor = mangle_loop (Z.to_nat k) g w (iota (length w))
  /\ exists w' g', mangle_b64 g w mangling_factor = Ret (w', g') /\ length w' = length w.
Proof.
  intros Hq Hr Hk Hle.
  assert (mangle_b64 g w mangling_factor = mangle_loop (Z.to_nat k) g w (iota (length w)))
    as Heq.
  { unfold mangle_b64, magling_magnitude.
    rewrite (round_to_i32_Some _ q k Hq); [|by apply round_half_away_rounds_to|lia].
    destruct (Z.eqb_spec k INT32_MIN); [lia|done]. }
  split; [done|]. rewrite Heq.
  destruct (mangle_loop_returns (Z.to_nat k) w g) as (w' & g' & Hret & Hlen & _); [lia|].
  by exists w', g'.
Qed.

(** Dividing by a zero or by a NaN gives no finite number. *)
Lemma SF64div_by_zero_or_nan (x f : spec_float) :
  f = S754_nan \/ (exists s, f = S754_zero s) -> Q_of_spec_float (SF64div x f) = None.
Proof. intros [->|[s ->]]; by destruct x. Qed.

(** X6. The mangling step is undefined exactly when the binary64 quotient
    of the length by the factor is not a finite number whose nearest
    integer (halves away from zero) is above [INT32_MIN], at most
    [INT32_MAX] and at most the length of the word: when the quotient is
    infinite or a NaN (a factor that is zero or a NaN), when its rounding
    is not an [i32], or is [INT32_MIN] (the loop condition decrements it),
    or asks for more replacements than the word has characters (the loop
    indexes the emptied index vector). A factor of at least 1 on a word of
    at most 2,147,483,647 characters never does that, and in every defined
    case a word of the same length is returned. *)
Theorem mangle_undefined_iff (g : Engine) (w : str) (mangling_factor : spec_float) :
  (mangle_b64 g w mangling_factor = Undefined
   <-> ~ exists (q : Q) (k : Z),
         Q_of_spec_float (SF64div (double_of_sz (length_sz w)) mangling_factor) = Some q
         /\ rounds_to q k
         /\ (INT32_MIN < k <= INT32_MAX)%Z
         /\ (k <= Z.of_nat (length w))%Z)
  /\ (mangle_b64 g w mangling_factor <> Undefined ->
      exists w' g', mangle_b64 g w mangling_factor = Ret (w', g') /\ length w' = length w)
  /\ (mangling_factor = S754_nan \/ (exists s, mangling_factor = S754_zero s) ->
      mangle_b64 g w mangling_factor = Undefined)
  /\ (forall vf, Q_of_spec_float mangling_factor = Some vf -> (1 <= vf)%Q ->
        length_sz w <= 2147483647 -> mangle_b64 g w mangling_factor <> Undefined).
Proof.
  assert ((exists (q : Q) (k : Z),
             Q_of_spec_float (SF64div (double_of_sz (length_sz w)) mangling_factor) = Some q
             /\ rounds_to q k
             /\ (INT32_MIN < k <= INT32_MAX)%Z
             /\ (k <= Z.of_nat (length w))%Z) ->
          exists w' g', mangle_b64 g w mangling_factor = Ret (w', g') /\ length w' = length w)
    as Hgood.
  { intros (q & k & Hq & Hr & Hk & Hle).
    by destruct (mangle_b64_safe g w mangling_factor q k Hq Hr Hk Hle) as [_ ?]. }
  assert (mangle_b64 g w mangling_factor <> Undefined ->
          exists (q : Q) (k : Z),
            Q_of_spec_float (SF64div (double_of_sz (length_sz w)) mangling_factor) = Some q
            /\ rounds_to q k
            /\ (INT32_MIN < k <= INT32_MAX)%Z
            /\ (k <= Z.of_nat (length w))%Z) as Hdef.
  { intros Hne. unfold mangle_b64, magling_magnitude in Hne.
    destruct (round_to_i32 _) as [k|] eqn:E; [|done].
    apply round_to_i32_inv in E as (q & Hq & Hr & Hk).
    destruct (Z.eqb_spec k INT32_MIN) as [|Hmin]; [done|].
    exists q, k. split_and!; [done|done|lia|lia|].
    destruct (decide (k <= Z.of_nat (length w))%Z) as [|Hmany]; [done|].
    rewrite mangle_loop_exhausts in Hne; [done|]. rewrite iota_length. lia. }
  split_and!.
  - split.
    + intros Hu Hsafe. destruct (Hgood Hsafe) as (w' & g' & Hret & _). congruence.
    + intros Hunsafe.
      destruct (mangle_b64 g w mangling_factor) as [[w' g']| | |] eqn:E; try done.
      * destruct Hunsafe. apply Hdef. congruence.
      * destruct Hunsafe. apply Hdef. congruence.
      * destruct Hunsafe. apply Hdef. congruence.
  - intros Hne. by apply Hgood, Hdef.
  - intros Hf. unfold mangle_b64, magling_magnitude, round_to_i32.
    by rewrite (SF64div_by_zero_or_nan _ _ Hf).
  - intros vf Hf Hge Hlen Hu.
    destruct (magling_magnitude_ge_1 (length_sz w) mangling_factor vf Hf Hge Hlen)
      as (q & k & Hq & Hr & Hk & _).
    unfold length_sz in Hk, Hlen.
    assert (INT32_MIN < k <= INT32_MAX)%Z as Hi32 by (unfold INT32_MIN, INT32_MAX; lia).
    assert (k <= Z.of_nat (length w))%Z as Hle by lia.
    destruct (Hgood (ex_intro _ q (ex_intro _ k (conj Hq (conj Hr (conj Hi32 Hle))))))
      as (w' & g' & Hret & _).
    congruence.
Qed.

(** The binary64 quotient of a length by a finite factor lies, up to its
    sign, between 0 and every binary64 number that is not below the exact
    quotient. *)
Lemma quotient_between (len : N) (s2 : bool) (m2 : positive) (e2 b k : Z) :
  len < 2 ^ 53 -> (0 <= b)%Z ->
  (fexp prec emax (Zdigits2 b + k) <= k)%Z -> (k < emax - prec)%Z ->
  (inject_Z (Z.of_N len) <= inject_Z b * 2 ^ k * (inject_Z (Z.pos m2) * 2 ^ e2))%Q ->
  exists q,
    Q_of_spec_float (SF64div (double_of_sz len) (S754_finite s2 m2 e2)) = Some q
    /\ (0 <= (if s2 then - q else q) <= inject_Z b * 2 ^ k)%Q.
Proof.
  intros Hlen Hb Hfexp Hk Hle.
  pose proof (Qpow2_pos k) as Hpk.
  assert (0 <= inject_Z b)%Q as Hb0.
  { change 0%Q with (inject_Z 0). rewrite <- Zle_Qle. lia. }
  assert (0 <= inject_Z b * 2 ^ k)%Q as Hbk.
  { apply Qmult_le_0_compat; [done|]. by apply Qlt_le_weak. }
  destruct (double_of_sz_value len Hlen) as [[-> Hz]|(m1 & e1 & -> & Hv)].
  - rewrite Hz. exists 0%Q. split; [done|]. destruct s2; split; done.
  - assert (inject_Z (0 * Z.pos m2) * 2 ^ (k + e2) <= inject_Z (Z.pos m1) * 2 ^ e1)%Q as H1.
    { rewrite Hv. simpl (0 * _)%Z. change (inject_Z 0) with 0%Q. rewrite Qmult_0_l.
      change 0%Q with (inject_Z 0). rewrite <- Zle_Qle. lia. }
    assert (inject_Z (Z.pos m1) * 2 ^ e1
            <= inject_Z (b * Z.pos m2) * 2 ^ (k + e2))%Q as H2.
    { rewrite Hv, <- Qscaled_mult. done. }
    pose proof (SF64div_bounds false s2 m1 m2 e1 e2 0 b k
                  ltac:(lia) Hb Hfexp Hk H1 H2) as Hbounds.
    destruct (SF64div (S754_finite false m1 e1) (S754_finite s2 m2 e2))
      as [s|s| |s m e] eqn:E; try done.
    + exists 0%Q. split; [done|]. destruct s2; split; done.
    + destruct Hbounds as (-> & _ & Hlo & Hhi). simpl xorb. simpl Q_of_spec_float.
      change (inject_Z 0) with 0%Q in Hlo. rewrite Qmult_0_l in Hlo.
      set (v := (inject_Z (Z.pos m) * 2 ^ e)%Q) in *.
      set (B := (inject_Z b * 2 ^ k)%Q) in *.
      eexists. split; [done|]. destruct s2; lra.
Qed.

Lemma round_half_away_small (q : Q) :
  (- (1 # 2) < q < 1 # 2)%Q -> round_half_away q = 0%Z.
Proof.
  intros Hq. apply round_half_away_rounds_to. unfold rounds_to.
  change (inject_Z 0) with 0%Q. destruct (Qle_bool 0 q); lra.
Qed.

Lemma mangle_b64_no_replacement (g : Engine) (w : str) (mangling_factor : spec_float)
  (q : Q) (k : Z) :
  Q_of_spec_float (SF64div (double_of_sz (length_sz w)) mangling_factor) = Some q ->
  round_half_away q = k -> (INT32_MIN < k <= 0)%Z ->
  mangle_b64 g w mangling_factor = Ret (w, g).
Proof.
  intros Hq Hr Hk. unfold mangle_b64, magling_magnitude.
  rewrite (round_to_i32_Some _ q k Hq Hr); [|unfold INT32_MAX; lia].
  destruct (Z.eqb_spec k INT32_MIN); [lia|].
  by replace (Z.to_nat k) with 0%nat by lia.
Qed.

(** X7. The mangling loop is not entered, the word is returned as it is and
    nothing is drawn, so that [sample_and_mangle_word] returns the word
    [sample_word] drew, for a word of fewer than 2^53 characters and: an
    infinite factor; a negative factor [vf] with
    length <= 2,147,483,647 * |vf| (the quotient is then an [i32] above
    [INT32_MIN] and not positive); a positive factor [vf] with
    length <= (1/2 - 2^-54) * vf (the binary64 quotient is then below
    1/2). *)
Theorem mangle_leaves_word (g : Engine) (w : str) (mangling_factor : spec_float) :
  length_sz w < 2 ^ 53 ->
  (exists s, mangling_factor = S754_infinity s)
  \/ (exists vf,
        Q_of_spec_float mangling_factor = Some vf
        /\ ((vf < 0 /\ inject_Z (Z.of_N (length_sz w)) <= 2147483647 * - vf)%Q
            \/ (0 < vf
                /\ inject_Z (Z.of_N (length_sz w)) <= ((1 # 2) - (1 # 2 ^ 54)) * vf)%Q)) ->
  mangle_b64 g w mangling_factor = Ret (w, g)
  /\ forall g0 db min_len max_len,
       sample_word g0 db min_len max_len = Ret (w, g) ->
       sample_and_mangle_word_b64 g0 db min_len max_len mangling_factor = Ret (w, g).
Proof.
  intros Hlen Hmf.
  assert (mangle_b64 g w mangling_factor = Ret (w, g)) as Hm.
  { destruct Hmf as [[s ->]|(vf & Hf & Hvf)].
    - apply (mangle_b64_no_replacement g w _ 0%Q 0%Z); [|done|unfold INT32_MIN; lia].
      by destruct (double_of_sz_value (length_sz w) Hlen)
        as [[_ ->]|(m1 & e1 & -> & _)].
    - destruct mangling_factor as [s|s| |s m e]; simpl in Hf; try done.
      { injection Hf as <-. destruct Hvf as [[H _]|[H _]]; lra. }
      injection Hf as <-.
      assert (0 < inject_Z (Z.pos m) * 2 ^ e)%Q as Hpos.
      { apply Qmult_lt_0_compat; [|apply Qpow2_pos].
        change 0%Q with (inject_Z 0). rewrite <- Zlt_Qlt. lia. }
      set (v := (inject_Z (Z.pos m) * 2 ^ e)%Q) in *.
      destruct Hvf as [[Hneg Hle]|[_ Hle]].
      + destruct s; [|lra].
        destruct (quotient_between (length_sz w) true m e 2147483647 0 Hlen
                    ltac:(lia) ltac:(rewrite fexp_eq; simpl; lia) ltac:(reflexivity))
          as (q & Hq & Hq0 & Hq1).
        { fold v. change (2 ^ 0)%Q with 1%Q.
          change (inject_Z 2147483647) with 2147483647%Q. lra. }
        change (2 ^ 0)%Q with 1%Q in Hq1.
        pose proof (round_half_away_between q (-2147483647) 0) as Hk.
        change (inject_Z 0) with 0%Q in Hk.
        change (inject_Z (-2147483647)) with (- inject_Z 2147483647)%Q in Hk.
        apply (mangle_b64_no_replacement g w _ q (round_half_away q) Hq eq_refl).
        unfold INT32_MIN. assert (- inject_Z 2147483647 <= q <= 0)%Q as Hb by lra.
        specialize (Hk Hb). lia.
      + destruct s.
        { assert (0 <= inject_Z (Z.of_N (length_sz w)))%Q as H0.
          { change 0%Q with (inject_Z 0). rewrite <- Zle_Qle. lia. }
          assert (0 < (1 # 2) - (1 # 2 ^ 54))%Q as Hc by reflexivity.
          set (c := ((1 # 2) - (1 # 2 ^ 54))%Q) in *. nra. }
        destruct (quotient_between (length_sz w) false m e 9007199254740991 (-54) Hlen
                    ltac:(lia) ltac:(rewrite fexp_eq; simpl; lia) ltac:(reflexivity))
          as (q & Hq & Hq0 & Hq1).
        { fold v.
          assert (inject_Z 9007199254740991 * 2 ^ (-54) == (1 # 2) - (1 # 2 ^ 54))%Q
            as -> by reflexivity.
          done. }
        assert (inject_Z 9007199254740991 * 2 ^ (-54) == (1 # 2) - (1 # 2 ^ 54))%Q
          as Hc by reflexivity.
        rewrite Hc in Hq1.
        apply (mangle_b64_no_replacement g w _ q 0%Z Hq); [|unfold INT32_MIN; lia].
        apply round_half_away_small.
        assert ((1 # 2) - (1 # 2 ^ 54) < 1 # 2)%Q by reflexivity. lra. }
  split; [done|]. intros g0 db min_len max_len Hw.
  unfold sample_and_mangle_word_b64. by rewrite Hw.
Qed.

Lemma mangle_leaves_word_witness :
  length_sz (lit "mangrove") < 2 ^ 53
  /\ mangle_b64 (tape_of []) (lit "mangrove") (S754_finite true 6079859496950170 (-51))
     = Ret (lit "mangrove", tape_of []).
Proof.
  assert (length_sz (lit "mangrove") < 2 ^ 53) as Hlen by reflexivity.
  split; [exact Hlen|].
  refine (proj1 (mangle_leaves_word (tape_of []) (lit "mangrove")
                   (S754_finite true 6079859496950170 (-51)) Hlen _)).
  right. eexists. split; [reflexivity|]. left.
  split; [vm_compute; reflexivity|vm_compute; discriminate].
Defined.

(** The engine after [n] draws more. *)
Lemma advance_cursor (g : Engine) :
  advance g = {| tape := tape g; cursor := S (cursor g) |}.
Proof. done. Qed.

Lemma mangle_loop_draws (n : nat) :
  forall g piece indices piece' g',
    mangle_loop n g piece indices = Ret (piece', g') ->
    tape g' = tape g /\ cursor g' = (cursor g + 2 * n)%nat.
Proof.
  induction n as [|n IH]; intros g piece indices piece' g'; cbn [mangle_loop].
  - intros [= <- <-]. split; [done|lia].
  - intros H. bind_inv H. apply uniform_int_Ret in Hcall as [_ ->].
    destruct (indices !! N.to_nat n0); [|done]. destruct (last indices); [|done].
    cbv zeta in H. destruct (_ =? 0).
    + rewrite sample_ascii_lower_eq in H. cbn [mbind result_bind] in H.
      apply IH in H as [-> ->]. simpl. split; [done|lia].
    + rewrite sample_ascii_eq in H. cbn [mbind result_bind] in H.
      apply IH in H as [-> ->]. simpl. split; [done|lia].
Qed.

(** X8. A call of [sample_and_mangle_word] that returns has sampled from
    its distributions once for the word and twice for every replacement
    (the index and the character): the piece has the length of a word of
    the corpus, the binary64 quotient of this length by the factor is a
    finite number, the number [k] of replacements is the integer nearest to
    it (halves away from zero), above [INT32_MIN] and at most the length,
    and the engine it leaves is the same stream, 1 + 2 * max(k, 0) draws
    further, one draw standing for one sample of a distribution. *)
Theorem sample_and_mangle_word_draws (g : Engine) (db : WordDB) (min_len max_len : N)
  (mangling_factor : spec_float) (piece : str) (g' : Engine) :
  sample_and_mangle_word_b64 g db min_len max_len mangling_factor = Ret (piece, g') ->
  exists (q : Q) (k : Z),
    Q_of_spec_float (SF64div (double_of_sz (length_sz piece)) mangling_factor) = Some q
    /\ rounds_to q k
    /\ (INT32_MIN < k <= Z.of_nat (length piece))%Z
    /\ tape g' = tape g
    /\ cursor g' = (cursor g + 1 + 2 * Z.to_nat (Z.max k 0))%nat
    /\ exists (L : nat) (b : list str) (w : str),
         db !! L = Some b /\ w ∈ b /\ length piece = length w.
Proof.
  unfold sample_and_mangle_word_b64. intros H.
  destruct (sample_word g db min_len max_len) as [[w g1]| | |] eqn:Hw; try done.
  cbn [mbind result_bind] in H.
  apply sample_word_Ret in Hw as (-> & _ & j & b & _ & Hb & Hin).
  apply mangle_b64_Ret in H as (q & k & Hq & Hr & Hk & Hle & Hloop).
  destruct (mangle_loop_writes _ _ _ _ _ _ Hloop) as [Hpiece _].
  assert (length piece = length w) as Hlen by (subst piece; apply foldl_write_length).
  apply mangle_loop_draws in Hloop as [Ht Hc]. simpl in Ht, Hc.
  exists q, k. unfold length_sz in *. rewrite Hlen.
  split_and!; [done|done|lia|lia|done|lia|by exists (N.to_nat min_len + j)%nat, b, w].
Qed.

Lemma sample_and_mangle_word_draws_witness :
  sample_and_mangle_word_b64 (tape_of []) mangrove_db 3 8 double_2_7
  = Ret (lit "aangro00", tape_after [] 7)
  /\ exists (q : Q) (k : Z),
       Q_of_spec_float (SF64div (double_of_sz 8) double_2_7) = Some q
       /\ rounds_to q k
       /\ cursor (tape_after [] 7) = (cursor (tape_of []) + 1 + 2 * Z.to_nat (Z.max k 0))%nat.
Proof.
  assert (sample_and_mangle_word_b64 (tape_of []) mangrove_db 3 8 double_2_7
          = Ret (lit "aangro00", tape_after [] 7)) as Hrun
    by (vm_compute; reflexivity).
  split; [exact Hrun|].
  destruct (sample_and_mangle_word_draws _ _ _ _ _ _ _ Hrun)
    as (q & k & Hq & Hr & _ & _ & Hc & _).
  exists q, k. split; [exact Hq|]. split; [exact Hr|exact Hc].
Defined.

(** The replacements of the word [mangrove] with the engine that draws 0
    for ever, at the factor 2.7 of the system. *)
Example mangle_b64_example :
  magling_magnitude 8 double_2_7 = Some 3%Z
  /\ mangle_b64 (tape_of []) (lit "mangrove") double_2_7
     = Ret (lit "aangro00", tape_after [] 6).
Proof. split; vm_compute; reflexivity. Qed.

(** With the factor -1e-9 the quotient of a length of 8 is -8,000,000,000,
    which is not an [i32]. *)
Example mangle_b64_minus_1e_9 :
  (exists q,
     Q_of_spec_float (SF64div (double_of_sz 8) (S754_finite true 4835703278458517 (-82)))
     = Some q
     /\ rounds_to q (-8000000000))
  /\ magling_magnitude 8 (S754_finite true 4835703278458517 (-82)) = None
  /\ mangle_b64 (tape_of []) (lit "mangrove") (S754_finite true 4835703278458517 (-82))
     = Undefined.
Proof.
  split_and!; [|vm_compute; reflexivity..].
  eexists. split; [vm_compute; reflexivity|].
  apply round_half_away_rounds_to. vm_compute. reflexivity.
Qed.

(** The longest word the factor 2.7 gives an [i32] for. *)
Example magling_magnitude_2_7_limit :
  magling_magnitude 5798205848 double_2_7 = Some 2147483647%Z
  /\ magling_magnitude 5798205849 double_2_7 = None.
Proof. split; vm_compute; reflexivity. Qed.

(** ** The anatomy of a nickname *)

Lemma toupper_not_lower (c : ascii) : is_lower (toupper c) = false.
Proof. destruct c as [[] [] [] [] [] [] [] []]; vm_compute; congruence. Qed.

Lemma nickname_loop_done (fuel : nat) (g : Engine) (db : WordDB) (opt : SampleNicknameOpt)
  (pieces : list str) :
  nickname_loop fuel g db opt 0 pieces = Ret (pieces, g).
Proof. by destruct fuel. Qed.

Lemma nickname_loop_anatomy (fuel : nat) :
  forall g db opt chance pieces ps g',
    representable db -> bucket_invariant db -> 1 <= min_word_len opt ->
    nickname_loop fuel g db opt chance pieces = Ret (ps, g') ->
    exists words filler,
      ps = pieces ++ words ++ filler
      /\ Forall (word_piece opt) words
      /\ (filler = [] \/ exists p, filler = [p] /\ filler_piece opt p).
Proof.
  induction fuel as [|fuel IH]; intros g db opt chance pieces ps g' Hrep Hinv H1;
    cbn [nickname_loop]; destruct (N.eqb_spec chance 0) as [->|Hpos];
    try (intros [= <- <-]; exists [], []; rewrite !app_nil_r;
         split_and!; [done|constructor|by left]); [done|].
  destruct (N.ltb_spec chance (min_word_len opt)) as [Hlt|Hge]; intros H.
  - bind_inv H. bind_inv H. apply sample_ascii_lower_lower in Hcall as [Hlow _].
    destruct (random_fill_eq (N.to_nat (sz_sub chance 1)) e [a]) as (tail & g2 & Hfill & Hlen & Htail).
    rewrite Hfill in Hcall0. injection Hcall0 as <- <-.
    rewrite nickname_loop_done in H. injection H as <- <-.
    exists [], [[a] ++ tail]. split_and!; [done|constructor|right].
    eexists. split; [done|]. split.
    + unfold length_sz. simpl. rewrite Hlen. unfold sz_sub.
      destruct (N.leb_spec 1 chance); lia.
    + by exists a, tail.
  - bind_inv H. pose proof Hcall as Hpiece.
    apply sample_and_mangle_word_Ret in Hcall as (w & Hw & Hm).
    apply mangle_Ret_length in Hm.
    apply sample_word_Ret_length in Hw; [|done|done].
    apply IH in H as (words & filler & -> & Hwords & Hfiller); [|done..].
    exists (capitalize l :: words), filler. split_and!; [by rewrite <- app_assoc| |done].
    constructor; [|done]. split.
    + unfold length_sz in *. rewrite capitalize_length, Hm. lia.
    + destruct l as [|c rest]; [unfold length_sz in *; simpl in *; lia|].
      exists (toupper c), rest. split; [done|apply toupper_not_lower].
Qed.

Lemma sample_nickname_pieces (fuel : nat) (g : Engine) (db : WordDB) (opt : SampleNicknameOpt)
  (s : str) (g' : Engine) :
  sample_nickname fuel g db opt = Ret (s, g') ->
  exists chance made shuffled g1,
    min_len opt <= chance <= max_len opt
    /\ nickname_loop fuel (advance g) db opt chance [] = Ret (made, g1)
    /\ shuffled ≡ₚ made
    /\ s = concat shuffled.
Proof.
  unfold sample_nickname. intros H. bind_inv H.
  apply uniform_int_Ret in Hcall as [Hchance ->]. bind_inv H.
  destruct (shuffle_eq e l) as (v' & g2 & Hsh & Hperm). rewrite Hsh in H.
  cbn [mbind result_bind] in H. injection H as <- <-.
  exists n, l, v', e. split_and!; [lia|lia|done|done|apply accumulate_concat].
Qed.

(** X9. Under the bucket invariant and with words of at least one
    character, a nickname that [sample_nickname] returns is the
    concatenation, in some order, of pieces made of words and of at most
    one random filler: every word piece has between [min_word_len] and
    [max_word_len] characters and begins with a character that is not a
    lowercase letter; the filler is shorter than [min_word_len] and is a
    lowercase letter followed by letters and digits. *)
Theorem sample_nickname_anatomy (fuel : nat) (g : Engine) (db : WordDB)
  (opt : SampleNicknameOpt) (s : str) (g' : Engine) :
  representable db -> bucket_invariant db -> 1 <= min_word_len opt ->
  sample_nickname fuel g db opt = Ret (s, g') ->
  exists words filler pieces,
    s = concat pieces
    /\ pieces ≡ₚ words ++ filler
    /\ Forall (word_piece opt) words
    /\ (filler = [] \/ exists p, filler = [p] /\ filler_piece opt p).
Proof.
  intros Hrep Hinv H1 (chance & made & shuffled & g1 & _ & Hloop & Hperm & ->)%sample_nickname_pieces.
  apply nickname_loop_anatomy in Hloop as (words & filler & -> & Hwords & Hfiller); [|done..].
  by exists words, filler, shuffled.
Qed.

Lemma sample_nickname_anatomy_witness :
  representable example_db /\ bucket_invariant example_db
  /\ 1 <= min_word_len SAMPLE_NICKNAME_OPT
  /\ sample_nickname 8 (tape_of []) example_db SAMPLE_NICKNAME_OPT
     = Ret (lit "Aata0Aat", tape_after [] 11)
  /\ exists words filler pieces,
       lit "Aata0Aat" = concat pieces
       /\ pieces ≡ₚ words ++ filler
       /\ Forall (word_piece SAMPLE_NICKNAME_OPT) words
       /\ (filler = [] \/ exists p, filler = [p] /\ filler_piece SAMPLE_NICKNAME_OPT p).
Proof.
  assert (representable example_db) as Hrep by reflexivity.
  assert (bucket_invariant example_db) as Hinv
    by (apply bucket_invariantb_correct; vm_compute; reflexivity).
  assert (1 <= min_word_len SAMPLE_NICKNAME_OPT) as H1 by (vm_compute; discriminate).
  assert (sample_nickname 8 (tape_of []) example_db SAMPLE_NICKNAME_OPT
          = Ret (lit "Aata0Aat", tape_after [] 11)) as Hrun by (vm_compute; reflexivity).
  split; [exact Hrep|]. split; [exact Hinv|]. split; [exact H1|]. split; [exact Hrun|].
  exact (sample_nickname_anatomy 8 (tape_of []) example_db SAMPLE_NICKNAME_OPT _ _
           Hrep Hinv H1 Hrun).
Defined.

(** ** When [sample_nickname] returns and when it throws *)


Lemma eligible_words_all_empty (db : WordDB) (min_len max_len : N) :
  (forall L, min_len <= L <= max_len -> bucket db L = []) ->
  eligible_words db min_len max_len = [].
Proof.
  intros Hempty. destruct (eligible_words db min_len max_len) as [|w ws] eqn:E; [done|].
  assert (w ∈ eligible_words db min_len max_len) as Hw by (rewrite E; by left).
  apply eligible_words_elem in Hw as (L & HL & Hin).
  rewrite (Hempty L HL) in Hin. by apply elem_of_nil in Hin.
Qed.




(** Without a word for its first piece the call throws. *)
Lemma sample_nickname_no_words (fuel : nat) (g : Engine) (db : WordDB)
  (opt : SampleNicknameOpt) :
  representable db ->
  1 <= min_word_len opt -> min_word_len opt <= max_word_len opt ->
  min_word_len opt <= min_len opt -> min_len opt <= max_len opt ->
  N.min (max_word_len opt) (max_len opt) < length_sz db ->
  (forall L, min_word_len opt <= L <= max_word_len opt -> bucket db L = []) ->
  (1 <= fuel)%nat ->
  sample_nickname fuel g db opt = Throw runtime_error.
Proof.
  intros Hrep H1 Hle Hneed Hord Hin Hempty Hfuel. unfold sample_nickname.
  rewrite uniform_int_ok by done. cbn [mbind result_bind].
  set (chance := min_len opt + peek g mod (max_len opt - min_len opt + 1)).
  assert (min_len opt <= chance <= max_len opt) as Hchance.
  { assert (peek g mod (max_len opt - min_len opt + 1) < max_len opt - min_len opt + 1)
      by (apply N.mod_upper_bound; lia).
    unfold chance. set (m := peek g mod _) in *. lia. }
  destruct fuel as [|fuel]; [lia|]. cbn [nickname_loop].
  destruct (N.eqb_spec chance 0) as [|_]; [lia|].
  destruct (N.ltb_spec chance (min_word_len opt)) as [|_]; [lia|].
  unfold sample_and_mangle_word. rewrite sample_word_empty; [done|done|lia|lia|].
  apply eligible_words_all_empty. intros L HL. apply Hempty. lia.
Qed.

(** X11. When the corpus has no word of any length from [min_word_len] to
    [max_word_len] and every nickname is long enough to need a word
    ([min_word_len <= min_len]), [sample_nickname] throws the domain error
    for every engine, at its first piece. *)
Theorem sample_nickname_throws_without_words (fuel : nat) (g : Engine) (db : WordDB)
  (opt : SampleNicknameOpt) :
  representable db ->
  1 <= min_word_len opt -> min_word_len opt <= max_word_len opt ->
  min_word_len opt <= min_len opt -> min_len opt <= max_len opt ->
  N.min (max_word_len opt) (max_len opt) < length_sz db ->
  (forall L, min_word_len opt <= L <= max_word_len opt -> bucket db L = []) ->
  (1 <= fuel)%nat ->
  sample_nickname fuel g db opt = Throw runtime_error.
Proof. apply sample_nickname_no_words. Qed.

Lemma sample_nickname_throws_without_words_witness :
  representable empty_db
  /\ 1 <= min_word_len SAMPLE_NICKNAME_OPT
  /\ min_word_len SAMPLE_NICKNAME_OPT <= max_word_len SAMPLE_NICKNAME_OPT
  /\ min_word_len SAMPLE_NICKNAME_OPT <= min_len SAMPLE_NICKNAME_OPT
  /\ min_len SAMPLE_NICKNAME_OPT <= max_len SAMPLE_NICKNAME_OPT
  /\ N.min (max_word_len SAMPLE_NICKNAME_OPT) (max_len SAMPLE_NICKNAME_OPT)
     < length_sz empty_db
  /\ (forall L, min_word_len SAMPLE_NICKNAME_OPT <= L <= max_word_len SAMPLE_NICKNAME_OPT ->
        bucket empty_db L = [])
  /\ (1 <= 8)%nat
  /\ sample_nickname 8 (tape_of example_tape) empty_db SAMPLE_NICKNAME_OPT
     = Throw runtime_error.
Proof.
  assert (representable empty_db) as Hrep by reflexivity.
  assert (1 <= min_word_len SAMPLE_NICKNAME_OPT) as H1 by (vm_compute; discriminate).
  assert (min_word_len SAMPLE_NICKNAME_OPT <= max_word_len SAMPLE_NICKNAME_OPT) as Hle
    by (vm_compute; discriminate).
  assert (min_word_len SAMPLE_NICKNAME_OPT <= min_len SAMPLE_NICKNAME_OPT) as Hneed
    by (vm_compute; discriminate).
  assert (min_len SAMPLE_NICKNAME_OPT <= max_len SAMPLE_NICKNAME_OPT) as Hord
    by (vm_compute; discriminate).
  assert (N.min (max_word_len SAMPLE_NICKNAME_OPT) (max_len SAMPLE_NICKNAME_OPT)
          < length_sz empty_db) as Hin by reflexivity.
  assert (forall L, min_word_len SAMPLE_NICKNAME_OPT <= L <= max_word_len SAMPLE_NICKNAME_OPT ->
            bucket empty_db L = []) as Hempty.
  { intros L HL. unfold bucket, empty_db.
    destruct (replicate 13 [] !! N.to_nat L) as [b|] eqn:E; [|done].
    by apply lookup_replicate in E as [-> _]. }
  assert (1 <= 8)%nat as Hfuel by lia.
  split; [exact Hrep|]. split; [exact H1|]. split; [exact Hle|]. split; [exact Hneed|].
  split; [exact Hord|]. split; [exact Hin|]. split; [exact Hempty|]. split; [exact Hfuel|].
  exact (sample_nickname_throws_without_words 8 (tape_of example_tape) empty_db
           SAMPLE_NICKNAME_OPT Hrep H1 Hle Hneed Hord Hin Hempty Hfuel).
Defined.

(** X12. When even the longest nickname is shorter than the shortest word
    ([max_len < min_word_len]), [sample_nickname] never looks at the corpus:
    for every corpus and engine it returns, and the nickname is empty (when
    the length drawn is 0) or a lowercase letter followed by letters and
    digits, of the length drawn. *)
Theorem sample_nickname_filler_only (fuel : nat) (g : Engine) (db : WordDB)
  (opt : SampleNicknameOpt) :
  max_len opt < min_word_len opt -> min_len opt <= max_len opt -> (1 <= fuel)%nat ->
  exists s g',
    sample_nickname fuel g db opt = Ret (s, g')
    /\ min_len opt <= length_sz s <= max_len opt
    /\ (s = [] \/ exists c rest, s = c :: rest /\ is_lower c = true /\ alnum_str rest)
    /\ forall db', sample_nickname fuel g db' opt = Ret (s, g').
Proof.
  intros Hshort Hord Hfuel. unfold sample_nickname.
  rewrite uniform_int_ok by done. cbn [mbind result_bind].
  set (chance := min_len opt + peek g mod (max_len opt - min_len opt + 1)).
  assert (min_len opt <= chance <= max_len opt) as Hchance.
  { assert (peek g mod (max_len opt - min_len opt + 1) < max_len opt - min_len opt + 1)
      by (apply N.mod_upper_bound; lia).
    unfold chance. set (m := peek g mod _) in *. lia. }
  destruct fuel as [|fuel]; [lia|]. cbn [nickname_loop].
  destruct (N.eqb_spec chance 0) as [Hz|Hpos].
  - cbn [mbind result_bind]. exists [], (advance g).
    assert (length_sz (@nil ascii) = 0) as Hnil by done.
    clearbody chance. rewrite Hnil.
    split_and!; [done|lia|lia|by left|done].
  - destruct (N.ltb_spec chance (min_word_len opt)) as [_|]; [|lia].
    rewrite sample_ascii_lower_eq. cbn [mbind result_bind].
    set (g1 := advance g). set (c := ascii_of_N (97 + peek g1 mod 26)).
    destruct (sample_ascii_lower_lower g1 c (advance g1))
      as [Hlow _]; [apply sample_ascii_lower_eq|].
    destruct (random_fill_eq (N.to_nat (sz_sub chance 1)) (advance g1) [c])
      as (tail & g2 & -> & Hlen & Htail).
    cbn [mbind result_bind].
    assert (forall d : WordDB,
              nickname_loop fuel g2 d opt 0 ([] ++ [[c] ++ tail])
              ≫= (λ '(pieces, g0),
                    shuffle g0 pieces ≫= λ '(pieces0, g3), Ret (accumulate pieces0, g3))
              = Ret (c :: tail, g2)) as Hsame.
    { intros d. rewrite nickname_loop_done. cbn [mbind result_bind].
      unfold shuffle. by cbn. }
    exists (c :: tail), g2.
    split_and!; [apply Hsame| | |right; by eexists _, _|apply Hsame].
    + unfold length_sz. simpl. rewrite Hlen. unfold sz_sub.
      destruct (N.leb_spec 1 chance); lia.
    + unfold length_sz. simpl. rewrite Hlen. unfold sz_sub.
      destruct (N.leb_spec 1 chance); lia.
Qed.

Lemma sample_nickname_filler_only_witness :
  max_len short_opt < min_word_len short_opt /\ min_len short_opt <= max_len short_opt
  /\ (1 <= 1)%nat
  /\ exists s g',
       sample_nickname 1 (tape_of [0; 7; 40]) empty_db short_opt = Ret (s, g')
       /\ min_len short_opt <= length_sz s <= max_len short_opt.
Proof.
  assert (max_len short_opt < min_word_len short_opt) as Hshort by reflexivity.
  assert (min_len short_opt <= max_len short_opt) as Hord by (vm_compute; discriminate).
  assert (1 <= 1)%nat as Hfuel by lia.
  split; [exact Hshort|]. split; [exact Hord|]. split; [exact Hfuel|].
  destruct (sample_nickname_filler_only 1 (tape_of [0; 7; 40]) empty_db short_opt
              Hshort Hord Hfuel) as (s & g' & Hrun & Hlen & _).
  exists s, g'. split; [exact Hrun|exact Hlen].
Defined.




(** ** Word lists in pieces *)

Lemma getlines_app (f1 f2 : str) :
  forall line,
    getlines line (f1 ++ newline :: f2) = getlines line (f1 ++ [newline]) ++ getlines [] f2.
Proof.
  induction f1 as [|c f1 IH]; intros line; simpl.
  - by destruct (decide (newline = newline)).
  - destruct (decide (c = newline)); [|apply IH]. simpl. f_equal. apply IH.
Qed.

Lemma load_word_db_Some (f : str) : exists db, load_word_db (Some f) = Some db.
Proof. by eexists. Qed.

Lemma bucket_of_load_word_db (f : str) (db : WordDB) (L : N) :
  load_word_db (Some f) = Some db ->
  bucket db L
  = if decide (L <= 12)
    then strip_delimiters <$> entries_of_length (N.to_nat L) (getlines [] f)
    else [].
Proof.
  intros [= <-].
  destruct (foldl_load_line (getlines [] f)
              (replicate (N.to_nat (MAX_NICKNAME_LEN + 1)) [])) as [Hlen Hlookup].
  { by rewrite length_replicate. }
  unfold bucket. rewrite Hlookup. change (N.to_nat (MAX_NICKNAME_LEN + 1)) with 13%nat.
  destruct (decide (L <= 12)) as [HL|HL].
  - rewrite lookup_replicate_2 by lia. done.
  - rewrite (proj1 (lookup_replicate_None 13 [] (N.to_nat L))) by lia. done.
Qed.

(** X14. [load_word_db] does not load what follows the last newline of the
    file: a last line that is not ended by a newline leaves the corpus as
    it is without that line, and a file without any newline gives thirteen
    empty buckets. *)
Theorem load_word_db_ignores_unterminated_line (f frag : str) :
  newline ∉ frag ->
  load_word_db (Some (f ++ newline :: frag)) = load_word_db (Some (f ++ [newline]))
  /\ load_word_db (Some frag) = Some (replicate 13 []).
Proof.
  intros Hfrag. unfold load_word_db. split.
  - by rewrite (getlines_app f frag), (getlines_fragment frag), app_nil_r.
  - by rewrite (getlines_fragment frag).
Qed.

Lemma load_word_db_ignores_unterminated_line_witness :
  (newline ∉ lit "'dog'")
  /\ load_word_db (Some (lit "'cat'" ++ newline :: lit "'dog'"))
     = load_word_db (Some (lit "'cat'" ++ [newline])).
Proof.
  assert (newline ∉ lit "'dog'") as Hfrag.
  { apply (bool_decide_unpack _). vm_compute. exact I. }
  split; [exact Hfrag|].
  exact (proj1 (load_word_db_ignores_unterminated_line (lit "'cat'") (lit "'dog'") Hfrag)).
Defined.

(** X15. Loading two word lists one after the other, the first ended by a
    newline, gives in every bucket the words of the first list followed by
    the words of the second. *)
Theorem load_word_db_app (f1 f2 : str) :
  exists db1 db2 db,
    load_word_db (Some (f1 ++ [newline])) = Some db1
    /\ load_word_db (Some f2) = Some db2
    /\ load_word_db (Some (f1 ++ newline :: f2)) = Some db
    /\ forall L, bucket db L = bucket db1 L ++ bucket db2 L.
Proof.
  destruct (load_word_db_Some (f1 ++ [newline])) as [db1 H1].
  destruct (load_word_db_Some f2) as [db2 H2].
  destruct (load_word_db_Some (f1 ++ newline :: f2)) as [db H].
  exists db1, db2, db. split_and!; [done..|]. intros L.
  rewrite (bucket_of_load_word_db _ _ L H1), (bucket_of_load_word_db _ _ L H2),
    (bucket_of_load_word_db _ _ L H).
  destruct (decide (L <= 12)); [|done].
  rewrite (getlines_app f1 f2). unfold entries_of_length. by rewrite filter_app, fmap_app.
Qed.

(** ** Experiments that cannot end *)

Lemma population_draws_from {Src : Type} (next_nickname : Src -> result (str * Src))
  (U : gset str) (fuel : nat) :
  (forall s nickname s', next_nickname s = Ret (nickname, s') -> nickname ∈ U) ->
  forall (num_initial : N) (w : Worker Src) (x : str),
    x ∈ population_draws next_nickname fuel num_initial w -> x ∈ U.
Proof.
  intros HU. induction fuel as [|fuel IH]; intros num_initial w x;
    cbn [population_draws]; destruct (_ <? _); try (by intros ?%elem_of_nil).
  destruct (next_nickname (source w)) as [[nickname s']| | |] eqn:E;
    try (by intros ?%elem_of_nil).
  intros [->|Hx]%elem_of_cons; [by eapply HU|by eapply IH].
Qed.

(** X16. When the draws can give fewer distinct nicknames than the target
    asks for, the population phase never ends: for no amount of fuel does
    it return, in any variant, and neither does the experiment. *)
Theorem population_phase_needs_enough_nicknames {Src : Type}
  (next_nickname : Src -> result (str * Src)) (U : gset str)
  (fuel : nat) (num_initial num_tries : N) (s : Src) :
  (forall s nickname s', next_nickname s = Ret (nickname, s') -> nickname ∈ U) ->
  size_sz U < num_initial ->
  (forall w, population_phase next_nickname fuel num_initial (start s) <> Ret w)
  /\ (forall w, run next_nickname fuel num_initial num_tries s <> Ret w).
Proof.
  intros HU Hsmall.
  assert (forall w, population_phase next_nickname fuel num_initial (start s) <> Ret w) as Hpop.
  { intros w Hret. apply population_phase_size in Hret as (Hsize & Hset & _).
    2: { unfold size_sz, start. cbn [nickname_db]. rewrite size_empty. lia. }
    assert (nickname_db w ⊆ U) as Hsub.
    { rewrite Hset. unfold start. cbn [nickname_db]. rewrite (right_id_L ∅ (∪)).
      intros x Hx%elem_of_list_to_set. by eapply population_draws_from. }
    apply subseteq_size in Hsub. unfold size_sz in *. lia. }
  split; [done|]. intros w (pop & Hret & _)%run_Ret. by eapply Hpop.
Qed.

Lemma population_phase_needs_enough_nicknames_witness :
  (forall s nickname s', constant_draw s = Ret (nickname, s') ->
     nickname ∈ ({[lit "Aata0Aat"]} : gset str))
  /\ size_sz {[lit "Aata0Aat"]} < 2
  /\ (forall w, population_phase constant_draw 100 2 (start tt) <> Ret w).
Proof.
  assert (forall s nickname s', constant_draw s = Ret (nickname, s') ->
            nickname ∈ ({[lit "Aata0Aat"]} : gset str)) as HU.
  { intros s nickname s' [= <- _]. by apply elem_of_singleton. }
  assert (size_sz {[lit "Aata0Aat"]} < 2) as Hsmall by (vm_compute; reflexivity).
  split; [exact HU|]. split; [exact Hsmall|].
  exact (proj1 (population_phase_needs_enough_nicknames constant_draw _ 100 2 0 tt
                  HU Hsmall)).
Defined.

(** X17. With no nickname to start with the population phase ends at once,
    whatever the fuel, without a draw; an experiment that then runs to its
    end has an empty set and reports no collision. *)
Theorem run_without_population {Src : Type} (next_nickname : Src -> result (str * Src))
  (fuel : nat) (num_tries : N) (s : Src) (w : Worker Src) :
  run next_nickname fuel 0 num_tries s = Ret w ->
  population_phase next_nickname fuel 0 (start s) = Ret (start s)
  /\ population_draws next_nickname fuel 0 (start s) = []
  /\ nickname_db w = ∅
  /\ report num_tries w = (num_tries, 0, percentage 0 num_tries).
Proof.
  intros Hrun.
  assert (population_phase next_nickname fuel 0 (start s) = Ret (start s)
          /\ population_draws next_nickname fuel 0 (start s) = []) as [Hpop Hdraws].
  { destruct fuel; cbn [population_phase population_draws];
      unfold size_sz, start; cbn [nickname_db]; by rewrite size_empty. }
  apply run_empty_population in Hrun as [Hdb Hc].
  split_and!; [done|done|done|]. unfold report. by rewrite Hc.
Qed.

Lemma run_without_population_witness :
  run constant_draw 0 0 6 tt
  = Ret {| nickname_db := ∅; num_collisions := 0; source := tt |}
  /\ report 6 {| nickname_db := ∅; num_collisions := 0; source := tt |}
     = (6, 0, percentage 0 6).
Proof.
  assert (run constant_draw 0 0 6 tt
          = Ret {| nickname_db := ∅; num_collisions := 0; source := tt |}) as Hrun
    by (vm_compute; reflexivity).
  split; [exact Hrun|].
  exact (proj2 (proj2 (proj2 (run_without_population constant_draw 0 6 tt _ Hrun)))).
Defined.

(** ** The four experiments on a corpus without words *)

Lemma population_phase_first_draw_throws {Src : Type}
  (next_nickname : Src -> result (str * Src)) (fuel : nat) (num_initial : N) (s : Src)
  (e : exn) :
  0 < num_initial -> (1 <= fuel)%nat -> next_nickname s = Throw e ->
  population_phase next_nickname fuel num_initial (start s) = Throw e.
Proof.
  intros Hpos Hfuel Hdraw. destruct fuel as [|fuel]; [lia|]. cbn [population_phase].
  unfold size_sz, start. cbn [nickname_db source]. rewrite size_empty.
  destruct (N.ltb_spec (N.of_nat 0) num_initial); [|lia]. by rewrite Hdraw.
Qed.

Lemma run_first_draw_throws {Src : Type}
  (next_nickname : Src -> result (str * Src)) (fuel : nat) (num_initial num_tries : N)
  (s : Src) (e : exn) :
  0 < num_initial -> (1 <= fuel)%nat -> next_nickname s = Throw e ->
  run next_nickname fuel num_initial num_tries s = Throw e.
Proof.
  intros Hpos Hfuel Hdraw. unfold run.
  by rewrite (population_phase_first_draw_throws _ _ _ _ e Hpos Hfuel Hdraw).
Qed.

(** X18. On a corpus without a word of 3 to 8 characters each of the four
    experiments ends with the domain error of [sample_word], at its first
    draw: no experiment reports a result. *)
Theorem cases_throw_without_words (mt19937 mt19937_64 : N -> Engine) (word_db : WordDB)
  (nickname_fuel fuel : nat) (d : Device) :
  representable word_db -> 8 < length_sz word_db ->
  (forall L, 3 <= L <= 8 -> bucket word_db L = []) ->
  (1 <= nickname_fuel)%nat -> (1 <= fuel)%nat ->
  case01 mt19937 word_db nickname_fuel fuel d = Throw runtime_error
  /\ case02 mt19937 word_db nickname_fuel fuel d = Throw runtime_error
  /\ case03 mt19937_64 word_db nickname_fuel fuel d = Throw runtime_error
  /\ case04 mt19937_64 word_db nickname_fuel fuel d = Throw runtime_error.
Proof.
  intros Hrep Hin Hempty Hnf Hfuel.
  assert (forall g, sample_nickname nickname_fuel g word_db SAMPLE_NICKNAME_OPT
                    = Throw runtime_error) as Hthrow.
  { intros g. apply sample_nickname_no_words; try done; try (vm_compute; discriminate). }
  assert (0 < NUM_INITIAL_NICKNAMES) as Hpos by reflexivity.
  assert (forall engine_of,
            experiment_reuse word_db nickname_fuel engine_of fuel
              NUM_INITIAL_NICKNAMES NUM_TRIES d = Throw runtime_error) as Hreuse.
  { intros engine_of. unfold experiment_reuse. destruct (random_device d) as [seed d'].
    apply run_first_draw_throws; [done|done|]. apply Hthrow. }
  assert (forall engine_of,
            experiment_recreate word_db nickname_fuel engine_of fuel
              NUM_INITIAL_NICKNAMES NUM_TRIES d = Throw runtime_error) as Hrecreate.
  { intros engine_of. unfold experiment_recreate.
    apply run_first_draw_throws; [done|done|].
    unfold draw_recreate. destruct (random_device d) as [seed d']. by rewrite Hthrow. }
  unfold case01, case02, case03, case04. by rewrite !Hreuse, !Hrecreate.
Qed.

Lemma cases_throw_without_words_witness :
  representable empty_db /\ 8 < length_sz empty_db
  /\ (forall L, 3 <= L <= 8 -> bucket empty_db L = [])
  /\ (1 <= 8)%nat /\ (1 <= 1)%nat
  /\ case01 example_engine_of empty_db 8 1 example_device = Throw runtime_error.
Proof.
  assert (representable empty_db) as Hrep by reflexivity.
  assert (8 < length_sz empty_db) as Hin by reflexivity.
  assert (forall L, 3 <= L <= 8 -> bucket empty_db L = []) as Hempty.
  { intros L HL. unfold bucket, empty_db.
    destruct (replicate 13 [] !! N.to_nat L) as [b|] eqn:E; [|done].
    by apply lookup_replicate in E as [-> _]. }
  assert (1 <= 8)%nat as Hnf by lia.
  assert (1 <= 1)%nat as Hfuel by lia.
  split; [exact Hrep|]. split; [exact Hin|]. split; [exact Hempty|].
  split; [exact Hnf|]. split; [exact Hfuel|].
  exact (proj1 (cases_throw_without_words example_engine_of example_engine_of empty_db
                  8 1 example_device Hrep Hin Hempty Hnf Hfuel)).
Defined.

(** ** Seeds *)

Lemma draw_recreate_seed (word_db : WordDB) (nickname_fuel : nat) (engine_of : N -> Engine)
  (d : Device) (nickname : str) (d' : Device) :
  draw_recreate word_db nickname_fuel engine_of d = Ret (nickname, d') ->
  entropy d' = entropy d /\ taken d' = S (taken d)
  /\ exists g',
       sample_nickname nickname_fuel (engine_of (entropy d (taken d))) word_db
         SAMPLE_NICKNAME_OPT = Ret (nickname, g').
Proof.
  unfold draw_recreate, random_device. intros H. bind_inv H. injection H as <- <-.
  split_and!; [done|done|by exists e].
Qed.

Lemma population_phase_seeds (word_db : WordDB) (nickname_fuel : nat)
  (engine_of : N -> Engine) (fuel : nat) :
  forall (num_initial : N) (w w' : Worker Device),
    population_phase (draw_recreate word_db nickname_fuel engine_of) fuel num_initial w
    = Ret w' ->
    entropy (source w') = entropy (source w)
    /\ taken (source w')
       = (taken (source w)
          + length (population_draws (draw_recreate word_db nickname_fuel engine_of)
                      fuel num_initial w))%nat.
Proof.
  induction fuel as [|fuel IH]; intros num_initial w w';
    cbn [population_phase population_draws]; destruct (_ <? _);
    try done; try (intros [= <-]; split; [done|simpl; lia]).
  intros H. bind_inv H. rewrite Hcall.
  apply draw_recreate_seed in Hcall as (He & Ht & _).
  apply IH in H as [He' Ht']. cbn [source] in He', Ht'. split; [congruence|].
  rewrite Ht', Ht. simpl. lia.
Qed.

Lemma trial_phase_seeds (word_db : WordDB) (nickname_fuel : nat)
  (engine_of : N -> Engine) (n : nat) :
  forall w w' : Worker Device,
    trial_phase (draw_recreate word_db nickname_fuel engine_of) n w = Ret w' ->
    entropy (source w') = entropy (source w)
    /\ taken (source w') = (taken (source w) + n)%nat.
Proof.
  induction n as [|n IH]; intros w w'; cbn [trial_phase].
  - intros [= <-]. split; [done|lia].
  - intros H. bind_inv H. apply trial_Ret in Hcall as (nickname & Hdraw & _).
    apply draw_recreate_seed in Hdraw as (He & Ht & _).
    apply IH in H as [He' Ht']. split; [congruence|lia].
Qed.

(** X19. An engine-recreating experiment that runs to its end has taken
    from the random device one seed for every draw of a nickname: as many
    as the population phase made draws, duplicates included, and one for
    each of the trials. *)
Theorem experiment_recreate_seeds (word_db : WordDB) (nickname_fuel : nat)
  (engine_of : N -> Engine) (fuel : nat) (num_initial num_tries : N) (d : Device)
  (w : Worker Device) :
  experiment_recreate word_db nickname_fuel engine_of fuel num_initial num_tries d = Ret w ->
  entropy (source w) = entropy d
  /\ taken (source w)
     = (taken d
        + length (population_draws (draw_recreate word_db nickname_fuel engine_of)
                    fuel num_initial (start d))
        + N.to_nat num_tries)%nat.
Proof.
  unfold experiment_recreate. intros (pop & Hpop & Htrial)%run_Ret.
  apply population_phase_seeds in Hpop as [He Ht].
  apply trial_phase_seeds in Htrial as [He' Ht']. cbn [source start] in *.
  split; [congruence|lia].
Qed.

Lemma experiment_recreate_seeds_witness :
  experiment_recreate example_db 8 example_engine_of 40 2 6 example_device
  = Ret example_recreate_final
  /\ taken (source example_recreate_final)
     = (taken example_device
        + length (population_draws (draw_recreate example_db 8 example_engine_of)
                    40 2 (start example_device))
        + N.to_nat 6)%nat.
Proof.
  assert (experiment_recreate example_db 8 example_engine_of 40 2 6 example_device
          = Ret example_recreate_final) as Hrun by (vm_compute; reflexivity).
  split; [exact Hrun|].
  exact (proj2 (experiment_recreate_seeds example_db 8 example_engine_of 40 2 6
                  example_device example_recreate_final Hrun)).
Defined.

(** ** The description of the corpus in the log *)

Lemma chars_of_uint_inj (d d' : Decimal.uint) :
  chars_of_uint d = chars_of_uint d' -> d = d'.
Proof.
  revert d'. induction d as [|d IH|d IH|d IH|d IH|d IH|d IH|d IH|d IH|d IH|d IH];
    intros [|d'|d'|d'|d'|d'|d'|d'|d'|d'|d']; simpl; intros H;
    try discriminate; try done; injection H as H; f_equal; by apply IH.
Qed.

Lemma show_sz_inj (n n' : N) : show_sz n = show_sz n' -> n = n'.
Proof.
  unfold show_sz. intros H%chars_of_uint_inj.
  apply (f_equal N.of_uint) in H. by rewrite !DecimalN.Unsigned.of_to in H.
Qed.

Lemma show_sz_digits (n : N) : Forall (fun c => is_digit c = true) (show_sz n).
Proof.
  unfold show_sz. generalize (N.to_uint n). intros d.
  induction d; simpl; constructor; (reflexivity || assumption).
Qed.

(** A numeral followed by something that is not a digit can be read back in
    one way only. *)
Lemma digits_then_other (s s' t t' : str) (c c' : ascii) :
  Forall (fun c => is_digit c = true) s -> Forall (fun c => is_digit c = true) s' ->
  is_digit c = false -> is_digit c' = false ->
  s ++ c :: t = s' ++ c' :: t' -> s = s' /\ c :: t = c' :: t'.
Proof.
  intros Hs. revert s'. induction Hs as [|x s Hx _ IH]; intros s' Hs' Hc Hc' H.
  - destruct Hs' as [|x' s' Hx' _]; [done|]. simpl in H. injection H as -> _. congruence.
  - destruct Hs' as [|x' s' Hx' Hs']; simpl in H.
    + injection H as -> _. congruence.
    + injection H as -> H. destruct (IH s' Hs' Hc Hc' H) as [-> ?]. done.
Qed.

Lemma word_db_info_loop_tail (buckets : list (list str)) :
  forall (i : nat) (info : str),
    (0 < i)%nat ->
    word_db_info_loop (N.of_nat i) buckets info = info ++ info_tail i buckets.
Proof.
  induction buckets as [|b buckets IH]; intros i info Hi;
    cbn [word_db_info_loop info_tail].
  - by rewrite app_nil_r.
  - destruct (N.ltb_spec 0 (N.of_nat i)); [|lia].
    replace (N.of_nat i + 1) with (N.of_nat (S i)) by lia.
    rewrite IH by lia. unfold info_entry.
    change (lit "]=") with (lit "]" ++ lit "="). by rewrite <- !app_assoc.
Qed.

Lemma print_about_expriment_env_eq (word_db : WordDB) :
  print_about_expriment_env word_db
  = lit "ENV: WORD DB { "
    ++ match word_db with
       | [] => []
       | b :: buckets => info_entry 0 b ++ info_tail 1 buckets
       end
    ++ lit " }".
Proof.
  unfold print_about_expriment_env. destruct word_db as [|b buckets]; [done|].
  cbn [word_db_info_loop]. change (0 <? 0) with false. cbv iota.
  change (0 + 1) with (N.of_nat 1). rewrite word_db_info_loop_tail by lia.
  unfold info_entry. change (lit "]=") with (lit "]" ++ lit "=").
  by rewrite <- !app_assoc.
Qed.

Lemma info_tail_join (buckets : list (list str)) :
  forall (f : nat -> list str -> str) (i : nat) (b : list str),
    (forall j x, f j x = info_entry (i + j) x) ->
    info_entry i b ++ info_tail (S i) buckets = join_entries (imap f (b :: buckets)).
Proof.
  induction buckets as [|b' buckets IH]; intros f i b Hf.
  - cbn. by rewrite Hf, Nat.add_0_r, app_nil_r.
  - cbn [info_tail]. rewrite (IH (f ∘ S) (S i) b').
    + cbn [imap join_entries]. by rewrite Hf, Nat.add_0_r.
    + intros j x. simpl. rewrite Hf. f_equal. lia.
Qed.

Lemma info_tail_inj (buckets : list (list str)) :
  forall (buckets' : list (list str)) (i : nat),
    info_tail i buckets ++ lit " }" = info_tail i buckets' ++ lit " }" ->
    length <$> buckets = length <$> buckets'.
Proof.
  induction buckets as [|b buckets IH]; intros [|b' buckets'] i H; try done.
  cbn [info_tail] in H. unfold info_entry in H. rewrite <- !app_assoc in H.
    do 4 apply app_inv_head in H.
    assert (forall bs, exists c t, info_tail (S i) bs ++ lit " }" = c :: t /\ is_digit c = false)
      as Hnext.
    { intros [|x bs]; unfold lit; simpl; by eexists _, _. }
    destruct (Hnext buckets) as (c & t & Ht & Hc).
    destruct (Hnext buckets') as (c' & t' & Ht' & Hc').
    rewrite Ht, Ht' in H.
    apply digits_then_other in H as [Hn Htail]; [|apply show_sz_digits..|done|done].
    apply show_sz_inj in Hn. rewrite <- Ht, <- Ht' in Htail.
    rewrite !fmap_cons. f_equal; [unfold length_sz in Hn; lia|by eapply IH].
Qed.

(** X20. The message of [print_about_expriment_env] is the text
    [ENV: WORD DB { ], the entries [[i]=size] of the buckets in order, with
    index and size in decimal, joined by a comma and a space, and the text
    [ }]; nothing separates the braces for a corpus without buckets. *)
Theorem print_about_expriment_env_format (word_db : WordDB) :
  print_about_expriment_env word_db
  = lit "ENV: WORD DB { " ++ join_entries (imap info_entry word_db) ++ lit " }".
Proof.
  rewrite print_about_expriment_env_eq. destruct word_db as [|b buckets]; [done|].
  by rewrite (info_tail_join buckets info_entry 0 b).
Qed.

(** X21. The message of [print_about_expriment_env] tells the sizes of the
    buckets: two corpora with the same message have the same number of
    buckets and, bucket by bucket, the same number of words. *)
Theorem print_about_expriment_env_sizes (word_db word_db' : WordDB) :
  print_about_expriment_env word_db = print_about_expriment_env word_db' ->
  length <$> word_db = length <$> word_db'.
Proof.
  rewrite !print_about_expriment_env_eq. intros H. apply app_inv_head in H.
  destruct word_db as [|b buckets], word_db' as [|b' buckets']; try done.
  unfold info_entry in H. rewrite <- !app_assoc in H.
  do 3 apply app_inv_head in H.
  assert (forall bs, exists c t, info_tail 1 bs ++ lit " }" = c :: t /\ is_digit c = false)
    as Hnext.
  { intros [|x bs]; unfold lit; simpl; by eexists _, _. }
  destruct (Hnext buckets) as (c & t & Ht & Hc).
  destruct (Hnext buckets') as (c' & t' & Ht' & Hc').
  rewrite Ht, Ht' in H.
  apply digits_then_other in H as [Hn Htail]; [|apply show_sz_digits..|done|done].
  apply show_sz_inj in Hn. rewrite <- Ht, <- Ht' in Htail.
  rewrite !fmap_cons. f_equal; [unfold length_sz in Hn; lia|by eapply info_tail_inj].
Qed.

Lemma print_about_expriment_env_sizes_witness :
  print_about_expriment_env example_db = print_about_expriment_env other_db
  /\ length <$> example_db = length <$> other_db.
Proof.
  assert (print_about_expriment_env example_db = print_about_expriment_env other_db) as Hsame
    by (vm_compute; reflexivity).
  split; [exact Hsame|].
  exact (print_about_expriment_env_sizes example_db other_db Hsame).
Defined.

Example print_about_expriment_env_example :
  print_about_expriment_env example_db
  = lit "ENV: WORD DB { [0]=0, [1]=0, [2]=0, [3]=2, [4]=0, [5]=1, [6]=0, [7]=0, [8]=1, [9]=0, [10]=0, [11]=0, [12]=0 }".
Proof. by vm_compute. Qed.

(** X22. The loop of [load_word_db] reads back the lines of a file: when
    lines without a newline are written one after the other, each ended by
    a newline, the loop handles exactly these lines, in order. *)
Theorem getlines_reads_the_lines_written (ls : list str) :
  Forall (fun l => newline ∉ l) ls ->
  getlines [] (concat ((fun l => l ++ [newline]) <$> ls)) = ls.
Proof.
  intros Hls. rewrite <- (app_nil_r (concat _)).
  apply getlines_terminated; [done|]. by intros ?%elem_of_nil.
Qed.

Lemma getlines_reads_the_lines_written_witness :
  Forall (fun l => newline ∉ l) [lit "'cat'"; lit ""; lit "'mangrove'"]
  /\ getlines [] (concat ((fun l => l ++ [newline])
                           <$> [lit "'cat'"; lit ""; lit "'mangrove'"]))
     = [lit "'cat'"; lit ""; lit "'mangrove'"].
Proof.
  assert (Forall (fun l => newline ∉ l) [lit "'cat'"; lit ""; lit "'mangrove'"]) as Hls.
  { repeat constructor; apply (bool_decide_unpack _); vm_compute; exact I. }
  split; [exact Hls|].
  exact (getlines_reads_the_lines_written _ Hls).
Defined.
